(** * Zrythm routing graph and recording pipeline: a shallow embedding

    The development follows [src/audio/port.c] (ports, connections and the
    per-cycle port processing) and [src/audio/recording_manager.c] (the
    per-cycle recording decision and the consumer of recording events).

    Conventions of the embedding:
    - a C [int]/[long] is a [Z]; the counters of the code (numbers of
      sources and destinations, frame indices) stay far below the wrap-around
      of their type, so no reduction modulo [2^w] is written for them, while
      the unsigned [nframes_t] sum that the recording code guards on is
      reduced modulo [2^32];
    - a C [float] is an IEEE-754 binary32 number ([spec_float] at precision
      24 and maximal exponent 128), with the operations of [SpecFloat];
    - a C array is a total function from indices to elements together with
      the counter the code keeps next to it; slots at and beyond the counter
      hold stale values exactly as in the C arrays, and the fixed capacity of
      the arrays is not modelled;
    - a pointer to a [Port] is an address in a heap of ports, so that two
      pointers to the same port alias the same record. *)

From Stdlib Require Import ZArith List Bool Lia String.
From Stdlib Require Import Floats.SpecFloat.
Import ListNotations.
Open Scope Z_scope.

(** ** C control flow and arrays *)

Module C.

Definition array (A : Type) := Z -> A.

(** [a[i] = v]. *)
Definition array_set {A : Type} (a : array A) (i : Z) (v : A) : array A :=
  fun j => if j =? i then v else a j.

(** [for (i = lo; i < hi; i++) body], for a body that changes neither
    [i] nor [hi]. *)
Fixpoint for_steps {S : Type} (n : nat) (i : Z) (body : Z -> S -> S) (s : S) : S :=
  match n with
  | O => s
  | Datatypes.S k => for_steps k (i + 1) body (body i s)
  end.

Definition for_range {S : Type} (lo hi : Z) (body : Z -> S -> S) (s : S) : S :=
  for_steps (Z.to_nat (hi - lo)) lo body s.

(** The same loop with a body that may [break]. *)
Inductive ctl (S : Type) : Type :=
| Continue (s : S)
| Break (s : S).
Arguments Continue {S} s.
Arguments Break {S} s.

Fixpoint for_steps_break {S : Type} (n : nat) (i : Z) (body : Z -> S -> ctl S) (s : S) : S :=
  match n with
  | O => s
  | Datatypes.S k =>
      match body i s with
      | Continue s' => for_steps_break k (i + 1) body s'
      | Break s' => s'
      end
  end.

Definition for_range_break {S : Type} (lo hi : Z) (body : Z -> S -> ctl S) (s : S) : S :=
  for_steps_break (Z.to_nat (hi - lo)) lo body s.

(** Modelled from the spec: the macro [array_delete_return_pos] of
    [utils/arrays.h], which is not among the sources at hand.  The spec
    has disconnect remove the port from the list if present and do nothing
    if it is absent; the macro scans [array[0 .. size)] for the first slot
    equal to [element], records its index in [pos], decrements [size] and
    moves the following elements one slot down.  The loop bound [size]
    changes only on the iteration that breaks. *)
Definition array_delete_return_pos {A : Type} (eqb : A -> A -> bool)
    (arr : array A) (size : Z) (element : A) (pos : Z) : array A * Z * Z :=
  for_range_break 0 size
    (fun ii '(arr, size, pos) =>
       if eqb (arr ii) element then
         let pos := ii in
         let size := size - 1 in
         let arr :=
           for_range ii size (fun jj arr => array_set arr jj (arr (jj + 1))) arr in
         Break (arr, size, pos)
       else Continue (arr, size, pos))
    (arr, size, pos).

(** Modelled from the spec: [array_contains] of [utils/arrays.h] (not
    among the sources at hand), the membership test behind
    [ports_connected]: 1 if some slot of [array[0 .. size)] equals
    [element], 0 otherwise. *)
Definition array_contains {A : Type} (eqb : A -> A -> bool)
    (arr : array A) (size : Z) (element : A) : Z :=
  for_range_break 0 size
    (fun i r => if eqb (arr i) element then Break 1 else Continue r) 0.

(** The glib macro [CLAMP (x, low, high)]:
    [((x) > (high)) ? (high) : (((x) < (low)) ? (low) : (x))]. *)
Definition CLAMP {A : Type} (ltb : A -> A -> bool) (x low high : A) : A :=
  if ltb high x then high else if ltb x low then low else x.

End C.

(** ** binary32 arithmetic *)

Module F32.

Definition float := spec_float.

Definition prec : Z := 24.
Definition emax : Z := 128.

Definition add : float -> float -> float := SFadd prec emax.
Definition sub : float -> float -> float := SFsub prec emax.
Definition mul : float -> float -> float := SFmul prec emax.
Definition div : float -> float -> float := SFdiv prec emax.
Definition sqrtf : float -> float := SFsqrt prec emax.
Definition eqb : float -> float -> bool := SFeqb.
Definition ltb : float -> float -> bool := SFltb.

(** The value of an integer constant such as [1.f] or [2.f]. *)
Definition of_Z (z : Z) : float := binary_normalize prec emax z 0 false.

(** The binary32 number nearest to the decimal fraction [n / d], which is
    the value a compiler gives a literal such as [0.3f]. *)
Definition of_frac (n d : Z) : float := div (of_Z n) (of_Z d).

Definition zero : float := S754_zero false.
Definition one : float := of_Z 1.
Definition two : float := of_Z 2.

End F32.

(** ** MIDI events, as far as the port and recording code look into them *)

Module Midi.

Inductive MidiEventType : Type :=
| MIDI_EVENT_TYPE_PITCHBEND
| MIDI_EVENT_TYPE_CONTROLLER
| MIDI_EVENT_TYPE_NOTE_OFF
| MIDI_EVENT_TYPE_NOTE_ON
| MIDI_EVENT_TYPE_ALL_NOTES_OFF.

Record MidiEvent : Type := {
  type : MidiEventType;
  note_pitch : Z;
  velocity : Z;
  time : Z
}.

(** [MidiEvents]: the array [events] with its counter [num_events]. *)
Definition MidiEvents := list MidiEvent.

Definition num_events (ev : MidiEvents) : Z := Z.of_nat (List.length ev).

End Midi.

(** ** Ports ([audio/port.c]) *)

Module Port.

Import C.

Inductive PortType : Type :=
| TYPE_UNKNOWN
| TYPE_CONTROL
| TYPE_AUDIO
| TYPE_EVENT
| TYPE_CV.

Inductive PortFlow : Type :=
| FLOW_UNKNOWN
| FLOW_INPUT
| FLOW_OUTPUT.

Inductive PortOwnerType : Type :=
| PORT_OWNER_TYPE_BACKEND
| PORT_OWNER_TYPE_PLUGIN
| PORT_OWNER_TYPE_TRACK
| PORT_OWNER_TYPE_FADER
| PORT_OWNER_TYPE_PREFADER
| PORT_OWNER_TYPE_SAMPLE_PROCESSOR.

Inductive PortInternalType : Type :=
| INTERNAL_NONE
| INTERNAL_LV2_PORT
| INTERNAL_JACK_PORT.

Definition PortType_eqb (a b : PortType) : bool :=
  match a, b with
  | TYPE_UNKNOWN, TYPE_UNKNOWN
  | TYPE_CONTROL, TYPE_CONTROL
  | TYPE_AUDIO, TYPE_AUDIO
  | TYPE_EVENT, TYPE_EVENT
  | TYPE_CV, TYPE_CV => true
  | _, _ => false
  end.

Definition PortFlow_eqb (a b : PortFlow) : bool :=
  match a, b with
  | FLOW_UNKNOWN, FLOW_UNKNOWN
  | FLOW_INPUT, FLOW_INPUT
  | FLOW_OUTPUT, FLOW_OUTPUT => true
  | _, _ => false
  end.

Definition PortOwnerType_eqb (a b : PortOwnerType) : bool :=
  match a, b with
  | PORT_OWNER_TYPE_BACKEND, PORT_OWNER_TYPE_BACKEND
  | PORT_OWNER_TYPE_PLUGIN, PORT_OWNER_TYPE_PLUGIN
  | PORT_OWNER_TYPE_TRACK, PORT_OWNER_TYPE_TRACK
  | PORT_OWNER_TYPE_FADER, PORT_OWNER_TYPE_FADER
  | PORT_OWNER_TYPE_PREFADER, PORT_OWNER_TYPE_PREFADER
  | PORT_OWNER_TYPE_SAMPLE_PROCESSOR, PORT_OWNER_TYPE_SAMPLE_PROCESSOR => true
  | _, _ => false
  end.

Definition PortInternalType_eqb (a b : PortInternalType) : bool :=
  match a, b with
  | INTERNAL_NONE, INTERNAL_NONE
  | INTERNAL_LV2_PORT, INTERNAL_LV2_PORT
  | INTERNAL_JACK_PORT, INTERNAL_JACK_PORT => true
  | _, _ => false
  end.

(** Modelled from the spec: the bits of [PortFlags] are declared in
    [audio/port.h], which is not among the sources at hand; the spec names
    the semantic flags "is stereo left/right channel", and the code tests
    each with a bitwise and, so each is a bit of its own. *)
Definition PORT_FLAG_STEREO_L : Z := 1.
Definition PORT_FLAG_STEREO_R : Z := 2.

Record PortIdentifier : Type := {
  label : string;
  owner_type : PortOwnerType;
  type : PortType;
  flow : PortFlow;
  flags : Z;
  plugin_slot : Z;
  track_pos : Z;
  port_index : Z
}.

(** Modelled from the spec: [port_identifier_copy (src, dest)] of
    [audio/port.h] (not among the sources at hand) fills the identifier
    slot [dest] with the serializable identifier [src], field by field; the
    result is the new content of the slot. *)
Definition port_identifier_copy (src : PortIdentifier) : PortIdentifier :=
  {| label := label src;
     owner_type := owner_type src;
     type := type src;
     flow := flow src;
     flags := flags src;
     plugin_slot := plugin_slot src;
     track_pos := track_pos src;
     port_index := port_index src |}.

(** [lv2_port->lv2_control->minf], [->maxf] and [lv2_port->control]: the
    pointees are embedded, so the dereferences of the code are total. *)
Record Lv2Control : Type := {
  minf : F32.float;
  maxf : F32.float
}.

Record LV2_Port : Type := {
  control : F32.float;
  lv2_control : Lv2Control
}.

(** A pointer to a port. *)
Definition ptr := Z.

Record Port : Type := {
  identifier : PortIdentifier;
  internal_type : PortInternalType;
  buf : array F32.float;
  midi_events : Midi.MidiEvents;
  srcs : array ptr;
  dests : array ptr;
  src_ids : array PortIdentifier;
  dest_ids : array PortIdentifier;
  multipliers : array F32.float;
  dest_locked : array Z;
  dest_enabled : array Z;
  num_srcs : Z;
  num_dests : Z;
  base_value : F32.float;
  lv2_port : LV2_Port
}.

(** Assignments to single fields of a port. *)
Definition set_buf (v : array F32.float) (p : Port) : Port :=
  {| identifier := identifier p; internal_type := internal_type p;
     buf := v; midi_events := midi_events p;
     srcs := srcs p; dests := dests p;
     src_ids := src_ids p; dest_ids := dest_ids p;
     multipliers := multipliers p; dest_locked := dest_locked p;
     dest_enabled := dest_enabled p;
     num_srcs := num_srcs p; num_dests := num_dests p;
     base_value := base_value p; lv2_port := lv2_port p |}.

Definition set_midi_events (v : Midi.MidiEvents) (p : Port) : Port :=
  {| identifier := identifier p; internal_type := internal_type p;
     buf := buf p; midi_events := v;
     srcs := srcs p; dests := dests p;
     src_ids := src_ids p; dest_ids := dest_ids p;
     multipliers := multipliers p; dest_locked := dest_locked p;
     dest_enabled := dest_enabled p;
     num_srcs := num_srcs p; num_dests := num_dests p;
     base_value := base_value p; lv2_port := lv2_port p |}.

Definition set_srcs (v : array ptr) (p : Port) : Port :=
  {| identifier := identifier p; internal_type := internal_type p;
     buf := buf p; midi_events := midi_events p;
     srcs := v; dests := dests p;
     src_ids := src_ids p; dest_ids := dest_ids p;
     multipliers := multipliers p; dest_locked := dest_locked p;
     dest_enabled := dest_enabled p;
     num_srcs := num_srcs p; num_dests := num_dests p;
     base_value := base_value p; lv2_port := lv2_port p |}.

Definition set_dests (v : array ptr) (p : Port) : Port :=
  {| identifier := identifier p; internal_type := internal_type p;
     buf := buf p; midi_events := midi_events p;
     srcs := srcs p; dests := v;
     src_ids := src_ids p; dest_ids := dest_ids p;
     multipliers := multipliers p; dest_locked := dest_locked p;
     dest_enabled := dest_enabled p;
     num_srcs := num_srcs p; num_dests := num_dests p;
     base_value := base_value p; lv2_port := lv2_port p |}.

Definition set_src_ids (v : array PortIdentifier) (p : Port) : Port :=
  {| identifier := identifier p; internal_type := internal_type p;
     buf := buf p; midi_events := midi_events p;
     srcs := srcs p; dests := dests p;
     src_ids := v; dest_ids := dest_ids p;
     multipliers := multipliers p; dest_locked := dest_locked p;
     dest_enabled := dest_enabled p;
     num_srcs := num_srcs p; num_dests := num_dests p;
     base_value := base_value p; lv2_port := lv2_port p |}.

Definition set_dest_ids (v : array PortIdentifier) (p : Port) : Port :=
  {| identifier := identifier p; internal_type := internal_type p;
     buf := buf p; midi_events := midi_events p;
     srcs := srcs p; dests := dests p;
     src_ids := src_ids p; dest_ids := v;
     multipliers := multipliers p; dest_locked := dest_locked p;
     dest_enabled := dest_enabled p;
     num_srcs := num_srcs p; num_dests := num_dests p;
     base_value := base_value p; lv2_port := lv2_port p |}.

Definition set_multipliers (v : array F32.float) (p : Port) : Port :=
  {| identifier := identifier p; internal_type := internal_type p;
     buf := buf p; midi_events := midi_events p;
     srcs := srcs p; dests := dests p;
     src_ids := src_ids p; dest_ids := dest_ids p;
     multipliers := v; dest_locked := dest_locked p;
     dest_enabled := dest_enabled p;
     num_srcs := num_srcs p; num_dests := num_dests p;
     base_value := base_value p; lv2_port := lv2_port p |}.

Definition set_dest_locked (v : array Z) (p : Port) : Port :=
  {| identifier := identifier p; internal_type := internal_type p;
     buf := buf p; midi_events := midi_events p;
     srcs := srcs p; dests := dests p;
     src_ids := src_ids p; dest_ids := dest_ids p;
     multipliers := multipliers p; dest_locked := v;
     dest_enabled := dest_enabled p;
     num_srcs := num_srcs p; num_dests := num_dests p;
     base_value := base_value p; lv2_port := lv2_port p |}.

Definition set_dest_enabled (v : array Z) (p : Port) : Port :=
  {| identifier := identifier p; internal_type := internal_type p;
     buf := buf p; midi_events := midi_events p;
     srcs := srcs p; dests := dests p;
     src_ids := src_ids p; dest_ids := dest_ids p;
     multipliers := multipliers p; dest_locked := dest_locked p;
     dest_enabled := v;
     num_srcs := num_srcs p; num_dests := num_dests p;
     base_value := base_value p; lv2_port := lv2_port p |}.

Definition set_num_srcs (v : Z) (p : Port) : Port :=
  {| identifier := identifier p; internal_type := internal_type p;
     buf := buf p; midi_events := midi_events p;
     srcs := srcs p; dests := dests p;
     src_ids := src_ids p; dest_ids := dest_ids p;
     multipliers := multipliers p; dest_locked := dest_locked p;
     dest_enabled := dest_enabled p;
     num_srcs := v; num_dests := num_dests p;
     base_value := base_value p; lv2_port := lv2_port p |}.

Definition set_num_dests (v : Z) (p : Port) : Port :=
  {| identifier := identifier p; internal_type := internal_type p;
     buf := buf p; midi_events := midi_events p;
     srcs := srcs p; dests := dests p;
     src_ids := src_ids p; dest_ids := dest_ids p;
     multipliers := multipliers p; dest_locked := dest_locked p;
     dest_enabled := dest_enabled p;
     num_srcs := num_srcs p; num_dests := v;
     base_value := base_value p; lv2_port := lv2_port p |}.

Definition set_base_value (v : F32.float) (p : Port) : Port :=
  {| identifier := identifier p; internal_type := internal_type p;
     buf := buf p; midi_events := midi_events p;
     srcs := srcs p; dests := dests p;
     src_ids := src_ids p; dest_ids := dest_ids p;
     multipliers := multipliers p; dest_locked := dest_locked p;
     dest_enabled := dest_enabled p;
     num_srcs := num_srcs p; num_dests := num_dests p;
     base_value := v; lv2_port := lv2_port p |}.

(** [port->lv2_port->control = v]. *)
Definition set_lv2_port_control (v : F32.float) (p : Port) : Port :=
  {| identifier := identifier p; internal_type := internal_type p;
     buf := buf p; midi_events := midi_events p;
     srcs := srcs p; dests := dests p;
     src_ids := src_ids p; dest_ids := dest_ids p;
     multipliers := multipliers p; dest_locked := dest_locked p;
     dest_enabled := dest_enabled p;
     num_srcs := num_srcs p; num_dests := num_dests p;
     base_value := base_value p;
     lv2_port := {| control := v; lv2_control := lv2_control (lv2_port p) |} |}.

(** The heap of ports: what every [Port *] of the program points into. *)
Definition heap := ptr -> Port.

(** [*a = p]. *)
Definition store (h : heap) (a : ptr) (p : Port) : heap :=
  fun x => if x =? a then p else h x.

(** Straight-line code over the heap: a statement maps the heap before
    it to the heap after it.  [assign a F] is the assignment [*a = F h],
    whose right-hand side reads the heap [h] it runs in; [c1 ;; c2] runs
    [c1] and then [c2]; [when c s] is [if (c) s]. *)
Definition stmt : Type := heap -> heap.

Definition assign (a : ptr) (F : heap -> Port) : stmt :=
  fun h => store h a (F h).

Definition seq (c1 c2 : stmt) : stmt := fun h => c2 (c1 h).

Definition skip : stmt := fun h => h.

Definition when (c : heap -> bool) (s : stmt) : stmt :=
  fun h => if c h then s h else h.

Notation "c1 ;; c2" := (seq c1 c2) (at level 100, right associativity).

(** Disconnects [src] from [dest] ([port_disconnect]); the result is the
    returned status and the heap after the call.  The warning on a null
    argument is only logged, so it has no counterpart here. *)
Definition port_disconnect (h : heap) (src dest : ptr) : Z * heap :=
  let pos := -1 in
  (* disconnect dest from src *)
  let '(dests', num_dests', pos) :=
    array_delete_return_pos Z.eqb (dests (h src)) (num_dests (h src)) dest pos in
  let h := store h src (set_num_dests num_dests' (set_dests dests' (h src))) in
  let h :=
    if 0 <=? pos then
      for_range pos (num_dests (h src))
        (fun i h =>
           store h src
             (set_dest_ids
                (array_set (dest_ids (h src)) i
                   (port_identifier_copy (dest_ids (h src) (i + 1))))
                (h src)))
        h
    else h in
  (* disconnect src from dest *)
  let pos := -1 in
  let '(srcs', num_srcs', pos) :=
    array_delete_return_pos Z.eqb (srcs (h dest)) (num_srcs (h dest)) src pos in
  let h := store h dest (set_num_srcs num_srcs' (set_srcs srcs' (h dest))) in
  let h :=
    if 0 <=? pos then
      for_range pos (num_srcs (h dest))
        (fun i h =>
           store h dest
             (set_src_ids
                (array_set (src_ids (h dest)) i
                   (port_identifier_copy (src_ids (h dest) (i + 1))))
                (h dest)))
        h
    else h in
  (0, h).

(** The statements of [port_connect] that follow the test of the kinds:
    the edge is appended on both sides, and the base value is set for a CV
    source driving a control. *)
Definition port_connect_append (src dest : ptr) (locked : Z) : stmt :=
  assign src (fun h =>
    set_dests (array_set (dests (h src)) (num_dests (h src)) dest) (h src)) ;;
  assign src (fun h =>
    set_dest_ids
      (array_set (dest_ids (h src)) (num_dests (h src))
         (port_identifier_copy (identifier (h dest))))
      (h src)) ;;
  assign src (fun h =>
    set_multipliers
      (array_set (multipliers (h src)) (num_dests (h src)) F32.one) (h src)) ;;
  assign src (fun h =>
    set_dest_locked
      (array_set (dest_locked (h src)) (num_dests (h src)) locked) (h src)) ;;
  assign src (fun h =>
    set_dest_enabled
      (array_set (dest_enabled (h src)) (num_dests (h src)) 1) (h src)) ;;
  assign src (fun h => set_num_dests (num_dests (h src) + 1) (h src)) ;;
  assign dest (fun h =>
    set_srcs (array_set (srcs (h dest)) (num_srcs (h dest)) src) (h dest)) ;;
  assign dest (fun h =>
    set_src_ids
      (array_set (src_ids (h dest)) (num_srcs (h dest))
         (port_identifier_copy (identifier (h src))))
      (h dest)) ;;
  assign dest (fun h => set_num_srcs (num_srcs (h dest) + 1) (h dest)) ;;
  (* set base value if cv -> control *)
  when (fun h => PortType_eqb (type (identifier (h src))) TYPE_CV
                 && PortType_eqb (type (identifier (h dest))) TYPE_CONTROL)
    (when (fun h => PortInternalType_eqb (internal_type (h dest)) INTERNAL_LV2_PORT)
       (assign dest (fun h =>
          set_base_value (control (lv2_port (h dest))) (h dest)))).

(** Connects [src] to [dest] ([port_connect]); the result is the returned
    status and the heap after the call. *)
Definition port_connect (h : heap) (src dest : ptr) (locked : Z) : Z * heap :=
  let h := snd (port_disconnect h src dest) in
  if negb (PortType_eqb (type (identifier (h src))) (type (identifier (h dest))))
     && negb (PortType_eqb (type (identifier (h src))) TYPE_CV
              && PortType_eqb (type (identifier (h dest))) TYPE_CONTROL)
  then (-1, h)
  else (0, port_connect_append src dest locked h).

(** Returns if the two ports are connected or not ([ports_connected]). *)
Definition ports_connected (h : heap) (src dest : ptr) : Z :=
  if array_contains Z.eqb (dests (h src)) (num_dests (h src)) dest =? 0
  then 0 else 1.

(** Modelled from the spec: [port_get_dest_index (port, dest)] of
    [audio/port.h] (not among the sources at hand) gives the index of the
    connection from [port] to [dest], whose scalar multiplier the control
    modulation reads; it is the first slot of [port->dests] that holds
    [dest], and -1 when there is none. *)
Definition port_get_dest_index (h : heap) (port dest : ptr) : Z :=
  for_range_break 0 (num_dests (h port))
    (fun i r => if dests (h port) i =? dest then Break i else Continue r) (-1).

(** Apply given fader value to port ([port_apply_fader]). *)
Definition port_apply_fader (h : heap) (port : ptr) (amp : F32.float)
    (start_frame nframes : Z) : heap :=
  for_range start_frame (start_frame + nframes)
    (fun i h =>
       if negb (F32.eqb (buf (h port) i) F32.zero) then
         store h port
           (set_buf (array_set (buf (h port)) i (F32.mul (buf (h port) i) amp))
              (h port))
       else h)
    h.

Inductive PanLaw : Type :=
| PAN_LAW_0DB
| PAN_LAW_MINUS_3DB
| PAN_LAW_MINUS_6DB.

Inductive PanAlgorithm : Type :=
| PAN_ALGORITHM_LINEAR
| PAN_ALGORITHM_SQUARE_ROOT
| PAN_ALGORITHM_SINE_LAW.

(** [#define M_PIF 3.14159265358979323846f]: the binary32 number nearest
    to pi. *)
Definition M_PIF : F32.float := S754_finite false 13176795 (-22).

Section SignalFlow.

(** The buffer JACK hands out for the JACK port behind a port
    ([jack_port_get_buffer (JACK_PORT_T (port->data), ...)]). *)
Variable jack_port_get_buffer : ptr -> array F32.float.

(** The MIDI events waiting in the JACK buffer of a port. *)
Variable jack_midi_events : ptr -> Midi.MidiEvents.

(** [sinf] of the C library. *)
Variable sinf : F32.float -> F32.float.

(** [AUDIO_ENGINE->block_length]. *)
Variable block_length : Z.

(** Modelled from the spec: [midi_events_append] of [audio/midi.c] (not
    among the sources at hand) appends the source's in-range events to the
    destination, preserving the source's order. *)
Definition midi_events_append (src dest : Midi.MidiEvents)
    (start_frame nframes : Z) (queued : Z) : Midi.MidiEvents :=
  dest ++ filter
            (fun e => (start_frame <=? Midi.time e)
                      && (Midi.time e <? start_frame + nframes))
            src.

Definition port_receive_midi_events_from_jack (h : heap) (self : ptr)
    (start_frame nframes : Z) : heap :=
  if negb (PortInternalType_eqb (internal_type (h self)) INTERNAL_JACK_PORT)
     || negb (PortType_eqb (type (identifier (h self))) TYPE_EVENT)
  then h
  else
    store h self
      (set_midi_events
         (midi_events (h self) ++
          filter
            (fun e => (start_frame <=? Midi.time e)
                      && (Midi.time e <? start_frame + nframes))
            (jack_midi_events self))
         (h self)).

Definition port_receive_audio_data_from_jack (h : heap) (port : ptr)
    (start_frames nframes : Z) : heap :=
  if negb (PortInternalType_eqb (internal_type (h port)) INTERNAL_JACK_PORT)
     || negb (PortType_eqb (type (identifier (h port))) TYPE_AUDIO)
  then h
  else
    let in_ := jack_port_get_buffer port in
    for_range start_frames (start_frames + nframes)
      (fun i h =>
         store h port
           (set_buf
              (array_set (buf (h port)) i (F32.add (buf (h port) i) (in_ i)))
              (h port)))
      h.

(** Sums the inputs coming in from JACK, before the port is processed
    ([port_sum_data_from_jack]). *)
Definition port_sum_data_from_jack (h : heap) (self : ptr)
    (start_frame nframes : Z) : heap :=
  if PortOwnerType_eqb (owner_type (identifier (h self))) PORT_OWNER_TYPE_BACKEND
     || negb (PortInternalType_eqb (internal_type (h self)) INTERNAL_JACK_PORT)
     || negb (PortFlow_eqb (flow (identifier (h self))) FLOW_INPUT)
  then h
  else
    let h := port_receive_midi_events_from_jack h self start_frame nframes in
    port_receive_audio_data_from_jack h self start_frame nframes.

(** [port_send_data_to_jack] copies the port's events and samples into the
    buffer of its JACK port and changes no port, so it is the identity on
    the heap of ports. *)
Definition port_send_data_to_jack (h : heap) (self : ptr)
    (start_frame nframes : Z) : heap := h.

(** First sets port buf to 0, then sums the given port signal from its
    inputs ([port_sum_signal_from_inputs]).  The notification of the owner
    track for a port that ends with events lives outside the heap of ports
    and has no counterpart here. *)
Definition port_sum_signal_from_inputs (h : heap) (port : ptr)
    (start_frame nframes : Z) (noroll : bool) : heap :=
  match type (identifier (h port)) with
  | TYPE_EVENT =>
      if noroll then h
      else
        let h := port_sum_data_from_jack h port start_frame nframes in
        let h :=
          for_range 0 (num_srcs (h port))
            (fun k h =>
               let src_port := srcs (h port) k in
               store h port
                 (set_midi_events
                    (midi_events_append (midi_events (h src_port))
                       (midi_events (h port)) start_frame nframes 0)
                    (h port)))
            h in
        port_send_data_to_jack h port start_frame nframes
  | TYPE_AUDIO =>
      if noroll then
        for_range start_frame nframes
          (fun l h =>
             store h port (set_buf (array_set (buf (h port)) l F32.zero) (h port)))
          h
      else
        let h := port_sum_data_from_jack h port start_frame nframes in
        let h :=
          for_range 0 (num_srcs (h port))
            (fun k h =>
               let src_port := srcs (h port) k in
               (* sum the signals *)
               for_range start_frame nframes
                 (fun l h =>
                    store h port
                      (set_buf
                         (array_set (buf (h port)) l
                            (F32.add (buf (h port) l) (buf (h src_port) l)))
                         (h port)))
                 h)
            h in
        port_send_data_to_jack h port start_frame nframes
  | TYPE_CONTROL =>
      (* whether this is the first CV processed on this control port *)
      let first_cv := true in
      fst
        (for_range 0 (num_srcs (h port))
           (fun k (st : heap * bool) =>
              let '(h, first_cv) := st in
              let src_port := srcs (h port) k in
              if PortType_eqb (type (identifier (h src_port))) TYPE_CV then
                let maxf := maxf (lv2_control (lv2_port (h port))) in
                let minf := minf (lv2_control (lv2_port (h port))) in
                let depth_range := F32.div (F32.sub maxf minf) F32.two in
                (* figure out whether to use base value or the current
                   value *)
                let '(val_to_use, first_cv) :=
                  if first_cv then (base_value (h port), false)
                  else (control (lv2_port (h port)), first_cv) in
                (store h port
                   (set_lv2_port_control
                      (CLAMP F32.ltb
                         (F32.add val_to_use
                            (F32.mul
                               (F32.mul depth_range (buf (h src_port) 0))
                               (multipliers (h src_port)
                                  (port_get_dest_index h src_port port))))
                         minf maxf)
                      (h port)),
                 first_cv)
              else (h, first_cv))
           (h, first_cv))
  | _ => h
  end.

(** Clears the port buffer ([port_clear_buffer]): [memset] over the
    [block_length] samples of an audio port, the event count of an event
    port set to 0. *)
Definition port_clear_buffer (h : heap) (port : ptr) : heap :=
  if PortType_eqb (type (identifier (h port))) TYPE_AUDIO then
    store h port
      (set_buf
         (fun i => if (0 <=? i) && (i <? block_length) then F32.zero
                   else buf (h port) i)
         (h port))
  else if PortType_eqb (type (identifier (h port))) TYPE_EVENT then
    store h port (set_midi_events [] (h port))
  else h.

(** The two scalars [calc_l] and [calc_r] that [port_apply_pan] computes
    once per call. *)
Definition pan_scalars (pan : F32.float) (pan_algo : PanAlgorithm)
    : F32.float * F32.float :=
  match pan_algo with
  | PAN_ALGORITHM_SINE_LAW =>
      (sinf (F32.mul (F32.sub F32.one pan) (F32.div M_PIF F32.two)),
       sinf (F32.mul pan (F32.div M_PIF F32.two)))
  | PAN_ALGORITHM_SQUARE_ROOT =>
      (F32.sqrtf (F32.sub F32.one pan), F32.sqrtf pan)
  | PAN_ALGORITHM_LINEAR =>
      (F32.sub F32.one pan, pan)
  end.

(** Applies the pan to the given port ([port_apply_pan]). *)
Definition port_apply_pan (h : heap) (port : ptr) (pan : F32.float)
    (pan_law : PanLaw) (pan_algo : PanAlgorithm)
    (start_frame nframes : Z) : heap :=
  let is_stereo_r := Z.land (flags (identifier (h port))) PORT_FLAG_STEREO_R in
  let '(calc_l, calc_r) := pan_scalars pan pan_algo in
  for_range start_frame (start_frame + nframes)
    (fun i h =>
       if F32.eqb (buf (h port) i) F32.zero then h
       else if negb (is_stereo_r =? 0) then
         store h port
           (set_buf (array_set (buf (h port)) i (F32.mul (buf (h port) i) calc_r))
              (h port))
       else
         store h port
           (set_buf (array_set (buf (h port)) i (F32.mul (buf (h port) i) calc_l))
              (h port)))
    h.

End SignalFlow.

End Port.

(** ** The routing graph read off a heap of ports *)

Module Graph.

Import C Port.

(** Membership in, and absence of duplicates from, the live part
    [arr[0 .. n)] of an array. *)
Definition array_in {A : Type} (arr : array A) (n : Z) (x : A) : Prop :=
  exists i, 0 <= i < n /\ arr i = x.

Definition array_nodup {A : Type} (arr : array A) (n : Z) : Prop :=
  forall i j, 0 <= i < n -> 0 <= j < n -> arr i = arr j -> i = j.

(** [d] is in the destination list of [p]. *)
Definition in_dests (h : heap) (p d : ptr) : Prop :=
  array_in (dests (h p)) (num_dests (h p)) d.

(** [s] is in the source list of [p]. *)
Definition in_srcs (h : heap) (p s : ptr) : Prop :=
  array_in (srcs (h p)) (num_srcs (h p)) s.

(** A directed path of at least one edge of the relation "dest is in src's
    destination list". *)
Inductive reaches (h : heap) : ptr -> ptr -> Prop :=
| reaches_edge (a b : ptr) : in_dests h a b -> reaches h a b
| reaches_step (a b c : ptr) : in_dests h a b -> reaches h b c -> reaches h a c.

Definition has_cycle (h : heap) : Prop := exists a, reaches h a a.

Definition acyclic (h : heap) : Prop := forall a, ~ reaches h a a.

(** The test of [port_connect] on the signal kinds: equal kinds, or CV
    driving a control. *)
Definition kinds_compatible (h : heap) (src dest : ptr) : bool :=
  PortType_eqb (type (identifier (h src))) (type (identifier (h dest)))
  || (PortType_eqb (type (identifier (h src))) TYPE_CV
      && PortType_eqb (type (identifier (h dest))) TYPE_CONTROL).

(** The live part of the four edge arrays and their two counters agree in
    two heaps, port by port. *)
Definition same_edge_lists (h h' : heap) : Prop :=
  forall p,
    num_dests (h' p) = num_dests (h p) /\
    num_srcs (h' p) = num_srcs (h p) /\
    (forall i, 0 <= i < num_dests (h p) ->
       dests (h' p) i = dests (h p) i /\ dest_ids (h' p) i = dest_ids (h p) i) /\
    (forall i, 0 <= i < num_srcs (h p) ->
       srcs (h' p) i = srcs (h p) i /\ src_ids (h' p) i = src_ids (h p) i).

(** The identifier arrays run parallel to the pointer arrays. *)
Definition ids_aligned (h : heap) : Prop :=
  forall p i,
    (0 <= i < num_dests (h p) ->
       dest_ids (h p) i = identifier (h (dests (h p) i))) /\
    (0 <= i < num_srcs (h p) ->
       src_ids (h p) i = identifier (h (srcs (h p) i))).

(** No port is listed twice in a destination list or in a source list. *)
Definition no_duplicate_edges (h : heap) : Prop :=
  forall p,
    array_nodup (dests (h p)) (num_dests (h p)) /\
    array_nodup (srcs (h p)) (num_srcs (h p)).

(** Source lists and destination lists are mutually consistent. *)
Definition lists_consistent (h : heap) : Prop :=
  forall a b, in_dests h a b <-> in_srcs h b a.

(** The two counters of every port are counts. *)
Definition counters_nonneg (h : heap) : Prop :=
  forall p, 0 <= num_dests (h p) /\ 0 <= num_srcs (h p).

Definition graph_wf (h : heap) : Prop :=
  counters_nonneg h /\ no_duplicate_edges h /\ lists_consistent h.

(** Every edge joins two ports whose kinds pass the test of
    [port_connect]. *)
Definition edges_compatible (h : heap) : Prop :=
  forall a b, in_dests h a b -> kinds_compatible h a b = true.

(** Ports that have no connection yet, as [port_new_with_type] leaves
    them. *)
Definition unconnected (h : heap) : Prop :=
  forall p, num_dests (h p) = 0 /\ num_srcs (h p) = 0.

(** Sequences of connect and disconnect calls. *)
Inductive op : Type :=
| Connect (src dest : ptr) (locked : Z)
| Disconnect (src dest : ptr).

Definition run_op (h : heap) (o : op) : heap :=
  match o with
  | Connect src dest locked => snd (port_connect h src dest locked)
  | Disconnect src dest => snd (port_disconnect h src dest)
  end.

Definition run_ops (ops : list op) (h : heap) : heap :=
  fold_left run_op ops h.

(** What removing the first occurrence of [x] from the live part
    [arr[0 .. n)] leaves in slot [j], when that occurrence is at [k]. *)
Definition shifted {A : Type} (arr : array A) (k n : Z) : array A :=
  fun j => if (k <=? j) && (j <? n - 1) then arr (j + 1) else arr j.

(** The list [(arr', ids', n')] is the list [(arr, ids, n)] with the first
    occurrence of [x] removed, in the pointers and in the identifiers
    alike; nothing is removed when [x] does not occur. *)
Definition side_deleted (arr : array ptr) (ids : array PortIdentifier) (n : Z)
    (arr' : array ptr) (ids' : array PortIdentifier) (n' : Z) (x : ptr) : Prop :=
  ((forall i, 0 <= i < n -> arr i <> x) /\
   n' = n /\
   (forall j, arr' j = arr j) /\
   (forall j, ids' j = ids j))
  \/
  (exists k, 0 <= k < n /\ arr k = x /\
     (forall i, 0 <= i < k -> arr i <> x) /\
     n' = n - 1 /\
     (forall j, arr' j = shifted arr k n j) /\
     (forall j, ids' j = shifted ids k n j)).

Definition dests_side_deleted (P P' : Port) (x : ptr) : Prop :=
  side_deleted (dests P) (dest_ids P) (num_dests P)
               (dests P') (dest_ids P') (num_dests P') x.

Definition srcs_side_deleted (P P' : Port) (x : ptr) : Prop :=
  side_deleted (srcs P) (src_ids P) (num_srcs P)
               (srcs P') (src_ids P') (num_srcs P') x.

(** The two halves of [port_disconnect]: "disconnect dest from src" and
    "disconnect src from dest". *)
Definition remove_dest (h : heap) (src dest : ptr) : heap :=
  let pos := -1 in
  let '(dests', num_dests', pos) :=
    array_delete_return_pos Z.eqb (dests (h src)) (num_dests (h src)) dest pos in
  let h := store h src (set_num_dests num_dests' (set_dests dests' (h src))) in
  if 0 <=? pos then
    for_range pos (num_dests (h src))
      (fun i h =>
         store h src
           (set_dest_ids
              (array_set (dest_ids (h src)) i
                 (port_identifier_copy (dest_ids (h src) (i + 1))))
              (h src)))
      h
  else h.

Definition remove_src (h : heap) (src dest : ptr) : heap :=
  let pos := -1 in
  let '(srcs', num_srcs', pos) :=
    array_delete_return_pos Z.eqb (srcs (h dest)) (num_srcs (h dest)) src pos in
  let h := store h dest (set_num_srcs num_srcs' (set_srcs srcs' (h dest))) in
  if 0 <=? pos then
    for_range pos (num_srcs (h dest))
      (fun i h =>
         store h dest
           (set_src_ids
              (array_set (src_ids (h dest)) i
                 (port_identifier_copy (src_ids (h dest) (i + 1))))
              (h dest)))
      h
  else h.

(** [P'] is [P] except for its destination side, respectively its source
    side. *)
Definition same_but_dests (P P' : Port) : Prop :=
  P' = set_dest_ids (dest_ids P')
         (set_num_dests (num_dests P') (set_dests (dests P') P)).

Definition same_but_srcs (P P' : Port) : Prop :=
  P' = set_src_ids (src_ids P')
         (set_num_srcs (num_srcs P') (set_srcs (srcs P') P)).

Definition same_but_edges (P P' : Port) : Prop :=
  P' = set_src_ids (src_ids P')
         (set_num_srcs (num_srcs P')
            (set_srcs (srcs P')
               (set_dest_ids (dest_ids P')
                  (set_num_dests (num_dests P') (set_dests (dests P') P))))).

(** The fields that neither [port_disconnect] nor the list part of
    [port_connect] touches. *)
Definition same_payload (P P' : Port) : Prop :=
  identifier P' = identifier P /\
  internal_type P' = internal_type P /\
  buf P' = buf P /\
  midi_events P' = midi_events P /\
  lv2_port P' = lv2_port P.

(** A port as [port_new_with_type] leaves it, as far as the model goes:
    zeroed by [calloc], with the given kind and flow. *)
Definition blank_identifier (t : PortType) (f : PortFlow) : PortIdentifier :=
  {| label := EmptyString; owner_type := PORT_OWNER_TYPE_BACKEND;
     type := t; flow := f; flags := 0;
     plugin_slot := -1; track_pos := -1; port_index := 0 |}.

Definition blank_port (t : PortType) (f : PortFlow) : Port :=
  {| identifier := blank_identifier t f;
     internal_type := INTERNAL_NONE;
     buf := fun _ => F32.zero;
     midi_events := [];
     srcs := fun _ => 0; dests := fun _ => 0;
     src_ids := fun _ => blank_identifier TYPE_UNKNOWN FLOW_UNKNOWN;
     dest_ids := fun _ => blank_identifier TYPE_UNKNOWN FLOW_UNKNOWN;
     multipliers := fun _ => F32.zero;
     dest_locked := fun _ => 0; dest_enabled := fun _ => 0;
     num_srcs := 0; num_dests := 0;
     base_value := F32.zero;
     lv2_port := {| control := F32.zero;
                    lv2_control := {| minf := F32.zero; maxf := F32.zero |} |} |}.

(** Heaps for the examples: ports of one kind without connections; ports
    without connections of which port 2 is of kind event and the others
    are of kind audio; a CV port 1 and an LV2 control port 2 whose base
    value is 1 and whose current value is 5. *)
Definition audio_heap : heap := fun _ => blank_port TYPE_AUDIO FLOW_UNKNOWN.

Definition mixed_heap : heap :=
  fun p =>
    if p =? 2 then blank_port TYPE_EVENT FLOW_INPUT
    else blank_port TYPE_AUDIO FLOW_OUTPUT.

Definition cv_heap : heap :=
  fun p =>
    if p =? 1 then blank_port TYPE_CV FLOW_OUTPUT
    else if p =? 2 then
      {| identifier := blank_identifier TYPE_CONTROL FLOW_INPUT;
         internal_type := INTERNAL_LV2_PORT;
         buf := fun _ => F32.zero;
         midi_events := [];
         srcs := fun _ => 0; dests := fun _ => 0;
         src_ids := fun _ => blank_identifier TYPE_UNKNOWN FLOW_UNKNOWN;
         dest_ids := fun _ => blank_identifier TYPE_UNKNOWN FLOW_UNKNOWN;
         multipliers := fun _ => F32.zero;
         dest_locked := fun _ => 0; dest_enabled := fun _ => 0;
         num_srcs := 0; num_dests := 0;
         base_value := F32.of_Z 1;
         lv2_port := {| control := F32.of_Z 5;
                        lv2_control := {| minf := F32.zero;
                                          maxf := F32.of_Z 10 |} |} |}
    else blank_port TYPE_AUDIO FLOW_UNKNOWN.

End Graph.

(** ** Port processing: frames, the control value the spec describes,
    example heaps *)

Module Processing.

Import C Port Graph.

(** [P'] is [P] except for its buffer, respectively for the current value
    of its LV2 control. *)
Definition same_but_buf (P P' : Port) : Prop := P' = set_buf (buf P') P.

Definition same_but_control (P P' : Port) : Prop :=
  P' = set_lv2_port_control (control (lv2_port P')) P.

(** The indices [lo, lo + 1, ..., lo + n - 1]. *)
Definition zrange (lo : Z) (n : nat) : list Z :=
  map (fun k => lo + Z.of_nat k) (List.seq 0 n).

(** The source list of a port, in the order of the array. *)
Definition live_srcs (h : heap) (port : ptr) : list ptr :=
  map (srcs (h port)) (zrange 0 (Z.to_nat (num_srcs (h port)))).

(** The control value as the spec words it.  For each CV source, a bipolar
    offset scaled by half the declared range and by the multiplier of the
    connection is applied to the base value (first CV source) or to the
    running value (subsequent ones), and the result is clamped to the
    declared range; the other sources do not take part. *)
Definition modulate (minf maxf val_to_use cv mult : F32.float) : F32.float :=
  CLAMP F32.ltb
    (F32.add val_to_use
       (F32.mul (F32.mul (F32.div (F32.sub maxf minf) F32.two) cv) mult))
    minf maxf.

Definition spec_step (minf maxf base : F32.float)
    (st : F32.float * bool) (cv_mult : F32.float * F32.float) : F32.float * bool :=
  (modulate minf maxf (if snd st then base else fst st) (fst cv_mult) (snd cv_mult),
   false).

Definition control_value_spec (minf maxf base current : F32.float)
    (cvs : list (F32.float * F32.float)) : F32.float :=
  fst (fold_left (spec_step minf maxf base) cvs (current, true)).

Definition is_cv (h : heap) (s : ptr) : bool :=
  PortType_eqb (type (identifier (h s))) TYPE_CV.

(** What the CV sources of [port] contribute: the first sample of each
    and the multiplier of its connection to [port]. *)
Definition cv_inputs (h : heap) (port : ptr) : list (F32.float * F32.float) :=
  map (fun s => (buf (h s) 0, multipliers (h s) (port_get_dest_index h s port)))
    (filter (is_cv h) (live_srcs h port)).

(** An audio port 0 fed by the audio ports 1, 2 and 3, whose buffers hold
    1, 2 and 3 in every frame. *)
Definition sum_heap : heap :=
  fun p =>
    if p =? 0 then
      set_num_srcs 3
        (set_src_ids (fun _ => blank_identifier TYPE_AUDIO FLOW_OUTPUT)
           (set_srcs (fun i => i + 1) (blank_port TYPE_AUDIO FLOW_INPUT)))
    else if (1 <=? p) && (p <=? 3) then
      set_buf (fun _ => F32.of_Z p)
        (set_num_dests 1
           (set_dest_ids (fun _ => blank_identifier TYPE_AUDIO FLOW_INPUT)
              (set_dests (fun _ => 0) (blank_port TYPE_AUDIO FLOW_OUTPUT))))
    else blank_port TYPE_AUDIO FLOW_UNKNOWN.

(** A right-channel audio port 0 whose buffer holds 1.0 in every frame but
    frame 1, which holds 0. *)
Definition right_heap : heap :=
  fun p =>
    if p =? 0 then
      {| identifier :=
           {| label := EmptyString; owner_type := PORT_OWNER_TYPE_TRACK;
              type := TYPE_AUDIO; flow := FLOW_OUTPUT;
              flags := PORT_FLAG_STEREO_R;
              plugin_slot := -1; track_pos := 0; port_index := 0 |};
         internal_type := INTERNAL_NONE;
         buf := fun i => if i =? 1 then F32.zero else F32.one;
         midi_events := [];
         srcs := fun _ => 0; dests := fun _ => 0;
         src_ids := fun _ => blank_identifier TYPE_UNKNOWN FLOW_UNKNOWN;
         dest_ids := fun _ => blank_identifier TYPE_UNKNOWN FLOW_UNKNOWN;
         multipliers := fun _ => F32.zero;
         dest_locked := fun _ => 0; dest_enabled := fun _ => 0;
         num_srcs := 0; num_dests := 0;
         base_value := F32.zero;
         lv2_port := {| control := F32.zero;
                        lv2_control := {| minf := F32.zero; maxf := F32.zero |} |} |}
    else blank_port TYPE_AUDIO FLOW_UNKNOWN.

(** The control port 2 of [cv_heap] (range 0 to 10, base value 1, current
    value 5) with three sources: the CV port 1, whose first sample is 1/2,
    the audio port 3, and the CV port 4, whose first sample is -1/4. *)
Definition modulated_heap : heap :=
  fun p =>
    if p =? 2 then
      set_num_srcs 3
        (set_srcs (fun i => if i =? 0 then 1 else if i =? 1 then 3 else 4)
           (cv_heap 2))
    else if p =? 1 then
      set_buf (fun _ => F32.of_frac 1 2)
        (set_multipliers (fun _ => F32.one)
           (set_num_dests 1
              (set_dests (fun _ => 2) (blank_port TYPE_CV FLOW_OUTPUT))))
    else if p =? 4 then
      set_buf (fun _ => F32.of_frac (-1) 4)
        (set_multipliers (fun _ => F32.one)
           (set_num_dests 1
              (set_dests (fun _ => 2) (blank_port TYPE_CV FLOW_OUTPUT))))
    else
      set_buf (fun _ => F32.of_Z 7)
        (set_num_dests 1
           (set_dests (fun _ => 2) (blank_port TYPE_AUDIO FLOW_OUTPUT))).

(** No JACK input in the examples. *)
Definition no_jack_buffer : ptr -> array F32.float := fun _ _ => F32.zero.

Definition no_jack_events : ptr -> Midi.MidiEvents := fun _ => [].

End Processing.

(** ** Recording ([audio/recording_manager.c]) *)

Module Recording.

Import C.

Record Position : Type := {
  frames : Z;
  total_ticks : Z
}.

Inductive TrackType : Type :=
| TRACK_TYPE_INSTRUMENT
| TRACK_TYPE_AUDIO
| TRACK_TYPE_MASTER
| TRACK_TYPE_CHORD
| TRACK_TYPE_BUS.

Definition TrackType_eqb (a b : TrackType) : bool :=
  match a, b with
  | TRACK_TYPE_INSTRUMENT, TRACK_TYPE_INSTRUMENT
  | TRACK_TYPE_AUDIO, TRACK_TYPE_AUDIO
  | TRACK_TYPE_MASTER, TRACK_TYPE_MASTER
  | TRACK_TYPE_CHORD, TRACK_TYPE_CHORD
  | TRACK_TYPE_BUS, TRACK_TYPE_BUS => true
  | _, _ => false
  end.

Inductive RecordingEventType : Type :=
| RECORDING_EVENT_TYPE_START_TRACK_RECORDING
| RECORDING_EVENT_TYPE_START_AUTOMATION_RECORDING
| RECORDING_EVENT_TYPE_MIDI
| RECORDING_EVENT_TYPE_AUDIO
| RECORDING_EVENT_TYPE_AUTOMATION
| RECORDING_EVENT_TYPE_SPLIT_TRACK_RECORDING
| RECORDING_EVENT_TYPE_SPLIT_AUTOMATION_RECORDING
| RECORDING_EVENT_TYPE_STOP_TRACK_RECORDING
| RECORDING_EVENT_TYPE_STOP_AUTOMATION_RECORDING.

Definition RecordingEventType_eqb (a b : RecordingEventType) : bool :=
  match a, b with
  | RECORDING_EVENT_TYPE_START_TRACK_RECORDING,
    RECORDING_EVENT_TYPE_START_TRACK_RECORDING
  | RECORDING_EVENT_TYPE_START_AUTOMATION_RECORDING,
    RECORDING_EVENT_TYPE_START_AUTOMATION_RECORDING
  | RECORDING_EVENT_TYPE_MIDI, RECORDING_EVENT_TYPE_MIDI
  | RECORDING_EVENT_TYPE_AUDIO, RECORDING_EVENT_TYPE_AUDIO
  | RECORDING_EVENT_TYPE_AUTOMATION, RECORDING_EVENT_TYPE_AUTOMATION
  | RECORDING_EVENT_TYPE_SPLIT_TRACK_RECORDING,
    RECORDING_EVENT_TYPE_SPLIT_TRACK_RECORDING
  | RECORDING_EVENT_TYPE_SPLIT_AUTOMATION_RECORDING,
    RECORDING_EVENT_TYPE_SPLIT_AUTOMATION_RECORDING
  | RECORDING_EVENT_TYPE_STOP_TRACK_RECORDING,
    RECORDING_EVENT_TYPE_STOP_TRACK_RECORDING
  | RECORDING_EVENT_TYPE_STOP_AUTOMATION_RECORDING,
    RECORDING_EVENT_TYPE_STOP_AUTOMATION_RECORDING => true
  | _, _ => false
  end.

Inductive AutomationRecordMode : Type :=
| AUTOMATION_RECORD_MODE_TOUCH
| AUTOMATION_RECORD_MODE_LATCH.

Inductive RegionType : Type :=
| REGION_TYPE_MIDI
| REGION_TYPE_AUDIO
| REGION_TYPE_AUTOMATION
| REGION_TYPE_CHORD.

(** [RecordingEvent]: the fields the producer fills and the consumer
    reads. *)
Record RecordingEvent : Type := {
  type : RecordingEventType;
  g_start_frames : Z;
  local_offset : Z;
  nframes : Z;
  track_name : string;
  port_id : Port.PortIdentifier;
  has_midi_event : Z;
  midi_event : Midi.MidiEvent;
  lbuf : array F32.float;
  rbuf : array F32.float
}.

(** The five assignments every emission starts with: [re->type],
    [re->g_start_frames], [re->local_offset], [re->nframes] and
    [strcpy (re->track_name, tr->name)].  The other fields of the pooled
    object keep what they held. *)
Definition set_header (ty : RecordingEventType) (g lo n : Z) (nm : string)
    (re : RecordingEvent) : RecordingEvent :=
  {| type := ty; g_start_frames := g; local_offset := lo; nframes := n;
     track_name := nm; port_id := port_id re;
     has_midi_event := has_midi_event re; midi_event := midi_event re;
     lbuf := lbuf re; rbuf := rbuf re |}.

Definition set_port_id (v : Port.PortIdentifier) (re : RecordingEvent) : RecordingEvent :=
  {| type := type re; g_start_frames := g_start_frames re;
     local_offset := local_offset re; nframes := nframes re;
     track_name := track_name re; port_id := v;
     has_midi_event := has_midi_event re; midi_event := midi_event re;
     lbuf := lbuf re; rbuf := rbuf re |}.

Definition set_has_midi_event (v : Z) (re : RecordingEvent) : RecordingEvent :=
  {| type := type re; g_start_frames := g_start_frames re;
     local_offset := local_offset re; nframes := nframes re;
     track_name := track_name re; port_id := port_id re;
     has_midi_event := v; midi_event := midi_event re;
     lbuf := lbuf re; rbuf := rbuf re |}.

Definition set_midi_event (v : Midi.MidiEvent) (re : RecordingEvent) : RecordingEvent :=
  {| type := type re; g_start_frames := g_start_frames re;
     local_offset := local_offset re; nframes := nframes re;
     track_name := track_name re; port_id := port_id re;
     has_midi_event := has_midi_event re; midi_event := v;
     lbuf := lbuf re; rbuf := rbuf re |}.

Definition set_bufs (l r : array F32.float) (re : RecordingEvent) : RecordingEvent :=
  {| type := type re; g_start_frames := g_start_frames re;
     local_offset := local_offset re; nframes := nframes re;
     track_name := track_name re; port_id := port_id re;
     has_midi_event := has_midi_event re; midi_event := midi_event re;
     lbuf := l; rbuf := r |}.

(** [memcpy (dst, src, sizeof (float) * n)]. *)
Definition memcpy (dst src : array F32.float) (n : Z) : array F32.float :=
  fun i => if (0 <=? i) && (i <? n) then src i else dst i.

Record AutomationTrack : Type := {
  at_port_id : Port.PortIdentifier;
  recording_started : bool;
  record_mode : AutomationRecordMode
}.

Record TrackLane : Type := {
  regions : list Z
}.

(** A track, as far as recording looks at it.  [recording_region] is a
    pointer to the region being recorded into, or [None] for [NULL]. *)
Record Track : Type := {
  name : string;
  pos : Z;
  track_type : TrackType;
  in_signal_type : Port.PortType;
  recording : bool;
  recording_region : option Z;
  lanes : list TrackLane;
  automation_tracklist : list AutomationTrack
}.

Definition num_lanes (tr : Track) : Z := Z.of_nat (List.length (lanes tr)).

Definition set_recording_region (v : option Z) (tr : Track) : Track :=
  {| name := name tr; pos := pos tr; track_type := track_type tr;
     in_signal_type := in_signal_type tr; recording := recording tr;
     recording_region := v; lanes := lanes tr;
     automation_tracklist := automation_tracklist tr |}.

Definition set_lanes (v : list TrackLane) (tr : Track) : Track :=
  {| name := name tr; pos := pos tr; track_type := track_type tr;
     in_signal_type := in_signal_type tr; recording := recording tr;
     recording_region := recording_region tr; lanes := v;
     automation_tracklist := automation_tracklist tr |}.

(** [TrackProcessor]: its track, the events of its [midi_in] port and
    the buffers of its [stereo_in] ports. *)
Record TrackProcessor : Type := {
  track : Track;
  midi_in_events : Midi.MidiEvents;
  stereo_in_l_buf : array F32.float;
  stereo_in_r_buf : array F32.float
}.

(** [TRANSPORT]: [rolling] stands for the macro [TRANSPORT_IS_ROLLING]. *)
Record Transport : Type := {
  punch_mode : bool;
  transport_recording : bool;
  rolling : bool;
  loop_start_pos : Position;
  loop_end_pos : Position;
  punch_in_pos : Position;
  punch_out_pos : Position
}.

(** Modelled from the spec: [transport_position_is_inside_punch_range] of
    [audio/transport.c] (not among the sources at hand) tells whether a
    position falls inside the configured punch range. *)
Definition transport_position_is_inside_punch_range (t : Transport)
    (p : Position) : bool :=
  (frames (punch_in_pos t) <=? frames p) && (frames p <? frames (punch_out_pos t)).

(** The recording manager, as the audio thread sees it: the pool of event
    objects and the queue of events.  A computation fails ([None]) when it
    needs an object from an empty pool. *)
Record rm_state : Type := {
  event_obj_pool : list RecordingEvent;
  event_queue : list RecordingEvent
}.

Definition M (A : Type) : Type := rm_state -> option (A * rm_state).

Definition ret {A : Type} (a : A) : M A := fun s => Some (a, s).

Definition bind {A B : Type} (m : M A) (k : A -> M B) : M B :=
  fun s => match m s with
           | Some (a, s') => k a s'
           | None => None
           end.

Notation "'let*' x ':=' m 'in' k" := (bind m (fun x => k))
  (at level 10, x name, m at level 100, k at level 200).

Notation "m1 '>>' m2" := (bind m1 (fun _ => m2))
  (at level 100, m2 at level 200, right associativity).

(** Modelled from the spec: [object_pool_get] of [utils/object_pool.h]
    (not among the sources at hand) takes a pre-allocated object from the
    pool and never allocates. *)
Definition object_pool_get : M RecordingEvent :=
  fun s => match event_obj_pool s with
           | [] => None
           | re :: rest =>
               Some (re, {| event_obj_pool := rest; event_queue := event_queue s |})
           end.

(** Modelled from the spec: [recording_event_queue_push_back_event] of
    [audio/recording_manager.h] (not among the sources at hand) appends the
    event to the FIFO queue of the manager. *)
Definition recording_event_queue_push_back_event (re : RecordingEvent) : M unit :=
  fun s => Some (tt, {| event_obj_pool := event_obj_pool s;
                        event_queue := event_queue s ++ [re] |}).

(** An emission: an object is taken from the pool, filled and pushed. *)
Definition send (fill : RecordingEvent -> RecordingEvent) : M unit :=
  let* re := object_pool_get in
  recording_event_queue_push_back_event (fill re).

Definition when_ (c : bool) (m : M unit) : M unit := if c then m else ret tt.

Fixpoint for_each {A : Type} (l : list A) (body : A -> M unit) : M unit :=
  match l with
  | [] => ret tt
  | a :: rest => body a >> for_each rest body
  end.

Definition is_set {A : Type} (p : option A) : bool :=
  match p with Some _ => true | None => false end.

Section HandleRecording.

Variable TRANSPORT : Transport.

(** [AUDIO_ENGINE->block_length]. *)
Variable block_length : Z.

(** [position_from_frames] of [audio/position.c]. *)
Variable position_from_frames : Z -> Position.

(** [track_type_can_record] and [track_has_piano_roll] of
    [audio/track.h]. *)
Variable track_type_can_record : TrackType -> bool.
Variable track_has_piano_roll : Track -> bool.

(** [automation_track_should_be_recording (at, cur_time, false)] of
    [audio/automation_track.c]. *)
Variable automation_track_should_be_recording : AutomationTrack -> Z -> bool -> bool.

(** Handles the recording logic inside the process cycle
    ([recording_manager_handle_recording]).  [nframes_t] is an unsigned
    32-bit integer, so the sum the guard tests wraps around. *)
Definition recording_manager_handle_recording (track_processor : TrackProcessor)
    (cur_time : Z) (g_start_frames : Z) (local_offset nframes : Z)
    (reached_loop_end : bool) : M unit :=
  let tr := track track_processor in
  let atl := automation_tracklist tr in
  (* g_return_if_fail *)
  if negb ((local_offset + nframes) mod 2 ^ 32 <=? block_length) then ret tt
  else
  let inside_punch_range :=
    if punch_mode TRANSPORT then
      transport_position_is_inside_punch_range TRANSPORT
        (position_from_frames g_start_frames)
    else true in
  let* stop_recording :=
    if negb (transport_recording TRANSPORT) || negb (recording tr)
       || negb (rolling TRANSPORT) || negb inside_punch_range
    then
      when_ (track_type_can_record (track_type tr) && is_set (recording_region tr))
        (* send stop recording event *)
        (send (set_header RECORDING_EVENT_TYPE_STOP_TRACK_RECORDING
                 g_start_frames local_offset nframes (name tr))) >>
      ret true
    else
      when_ (inside_punch_range && track_type_can_record (track_type tr))
        (if reached_loop_end && is_set (recording_region tr) then
           (* send split recording event *)
           send (set_header RECORDING_EVENT_TYPE_SPLIT_TRACK_RECORDING
                   g_start_frames local_offset nframes (name tr))
         else if negb (is_set (recording_region tr)) then
           (* send start recording event *)
           send (set_header RECORDING_EVENT_TYPE_START_TRACK_RECORDING
                   g_start_frames local_offset nframes (name tr))
         else ret tt) >>
      ret false in
  for_each atl
    (fun at_ =>
       when_
         ((negb (rolling TRANSPORT) || negb inside_punch_range
           || negb (automation_track_should_be_recording at_ cur_time false))
          && recording_started at_)
         (* send stop automation recording event *)
         (send (fun re =>
            set_port_id (Port.port_identifier_copy (at_port_id at_))
              (set_header RECORDING_EVENT_TYPE_STOP_AUTOMATION_RECORDING
                 g_start_frames local_offset nframes (name tr) re))) >>
       when_
         (rolling TRANSPORT && inside_punch_range
          && automation_track_should_be_recording at_ cur_time false)
         (let* at_split :=
            if recording_started at_ && reached_loop_end then
              (* send split recording event *)
              send (fun re =>
                set_port_id (Port.port_identifier_copy (at_port_id at_))
                  (set_header RECORDING_EVENT_TYPE_SPLIT_AUTOMATION_RECORDING
                     g_start_frames local_offset nframes (name tr) re)) >>
              ret true
            else if negb (recording_started at_) then
              (* send start recording event *)
              send (fun re =>
                set_port_id (Port.port_identifier_copy (at_port_id at_))
                  (set_header RECORDING_EVENT_TYPE_START_AUTOMATION_RECORDING
                     g_start_frames local_offset nframes (name tr) re)) >>
              ret false
            else ret false in
          when_ (negb at_split)
            (* add recorded automation material to event queue *)
            (send (fun re =>
               set_port_id (Port.port_identifier_copy (at_port_id at_))
                 (set_header RECORDING_EVENT_TYPE_AUTOMATION
                    g_start_frames local_offset nframes (name tr) re))))) >>
  if stop_recording then ret tt
  else
  (* add recorded track material to event queue *)
  if track_has_piano_roll tr then
    let midi_events := midi_in_events track_processor in
    for_each midi_events
      (fun me =>
         send (fun re =>
           set_midi_event me
             (set_has_midi_event 1
                (set_header RECORDING_EVENT_TYPE_MIDI
                   g_start_frames local_offset nframes (name tr) re)))) >>
    when_ (Midi.num_events midi_events =? 0)
      (send (fun re =>
         set_has_midi_event 0
           (set_header RECORDING_EVENT_TYPE_MIDI
              g_start_frames local_offset nframes (name tr) re)))
  else if TrackType_eqb (track_type tr) TRACK_TYPE_AUDIO then
    send (fun re =>
      set_bufs
        (memcpy (lbuf re) (stereo_in_l_buf track_processor) block_length)
        (memcpy (rbuf re) (stereo_in_r_buf track_processor) block_length)
        (set_header RECORDING_EVENT_TYPE_AUDIO
           g_start_frames local_offset nframes (name tr) re))
  else ret tt.

End HandleRecording.

(** *** The consumer side: regions, notes and clips *)

(** Objects of the project live in heaps that only grow; a pointer is an
    index into its heap, and a dereference of a pointer outside the heap
    fails. *)
Definition deref {A : Type} (heap : list A) (p : Z) : option A :=
  if p <? 0 then None else nth_error heap (Z.to_nat p).

Fixpoint list_set {A : Type} (l : list A) (n : nat) (v : A) : list A :=
  match l, n with
  | [], _ => []
  | _ :: rest, O => v :: rest
  | a :: rest, S k => a :: list_set rest k v
  end.

Definition store_at {A : Type} (heap : list A) (p : Z) (v : A) : list A :=
  if p <? 0 then heap else list_set heap (Z.to_nat p) v.

Notation "'let?' x ':=' m 'in' k" :=
  (match m with Some x => k | None => None end)
  (at level 10, x name, m at level 100, k at level 200).

Module ArrangerObj.

Record ArrangerObject : Type := {
  pos : Position;
  end_pos : Position;
  loop_end_pos : Position;
  fade_out_pos : Position
}.

Definition set_end_pos (v : Position) (o : ArrangerObject) : ArrangerObject :=
  {| pos := pos o; end_pos := v; loop_end_pos := loop_end_pos o;
     fade_out_pos := fade_out_pos o |}.

Definition set_loop_end_pos (v : Position) (o : ArrangerObject) : ArrangerObject :=
  {| pos := pos o; end_pos := end_pos o; loop_end_pos := v;
     fade_out_pos := fade_out_pos o |}.

Definition set_fade_out_pos (v : Position) (o : ArrangerObject) : ArrangerObject :=
  {| pos := pos o; end_pos := end_pos o; loop_end_pos := loop_end_pos o;
     fade_out_pos := v |}.

(** [obj->end_pos.frames = v]. *)
Definition set_end_pos_frames (v : Z) (o : ArrangerObject) : ArrangerObject :=
  set_end_pos {| frames := v; total_ticks := total_ticks (end_pos o) |} o.

(** Modelled from the spec: the setters [arranger_object_end_pos_setter]
    and [arranger_object_loop_end_pos_setter] of
    [gui/backend/arranger_object.c] (not among the sources at hand) place
    the end, respectively the loop end, of an object at the given
    position. *)
Definition arranger_object_end_pos_setter (o : ArrangerObject) (p : Position)
  : ArrangerObject := set_end_pos p o.

Definition arranger_object_loop_end_pos_setter (o : ArrangerObject) (p : Position)
  : ArrangerObject := set_loop_end_pos p o.

End ArrangerObj.

Module RegionId.

Record RegionIdentifier : Type := {
  type : RegionType;
  track_pos : Z;
  lane_pos : Z;
  idx : Z
}.

(** Modelled from the spec: [region_identifier_copy (dest, src)] copies
    the identifier field by field. *)
Definition region_identifier_copy (src : RegionIdentifier) : RegionIdentifier :=
  {| type := type src; track_pos := track_pos src; lane_pos := lane_pos src;
     idx := idx src |}.

End RegionId.

Module Note.

Record MidiNote : Type := {
  base : ArrangerObj.ArrangerObject;
  val : Z;
  vel : Z
}.

Definition set_base (v : ArrangerObj.ArrangerObject) (mn : MidiNote) : MidiNote :=
  {| base := v; val := val mn; vel := vel mn |}.

End Note.

Module Clip.

Record AudioClip : Type := {
  frames : array F32.float;
  num_frames : Z;
  channels : Z
}.

Definition set_frames (v : array F32.float) (c : AudioClip) : AudioClip :=
  {| frames := v; num_frames := num_frames c; channels := channels c |}.

Definition set_num_frames (v : Z) (c : AudioClip) : AudioClip :=
  {| frames := frames c; num_frames := v; channels := channels c |}.

End Clip.

Module Region.

(** [ZRegion]: [unended_notes] holds pointers to the notes still open,
    the note opened last first; [midi_notes] holds pointers to all notes of
    the region. *)
Record ZRegion : Type := {
  base : ArrangerObj.ArrangerObject;
  id : RegionId.RegionIdentifier;
  frames : array F32.float;
  num_frames : Z;
  pool_id : Z;
  midi_notes : list Z;
  unended_notes : list Z
}.

Definition set_base (v : ArrangerObj.ArrangerObject) (r : ZRegion) : ZRegion :=
  {| base := v; id := id r; frames := frames r; num_frames := num_frames r;
     pool_id := pool_id r; midi_notes := midi_notes r;
     unended_notes := unended_notes r |}.

Definition set_frames (v : array F32.float) (r : ZRegion) : ZRegion :=
  {| base := base r; id := id r; frames := v; num_frames := num_frames r;
     pool_id := pool_id r; midi_notes := midi_notes r;
     unended_notes := unended_notes r |}.

Definition set_num_frames (v : Z) (r : ZRegion) : ZRegion :=
  {| base := base r; id := id r; frames := frames r; num_frames := v;
     pool_id := pool_id r; midi_notes := midi_notes r;
     unended_notes := unended_notes r |}.

Definition set_unended_notes (v : list Z) (r : ZRegion) : ZRegion :=
  {| base := base r; id := id r; frames := frames r; num_frames := num_frames r;
     pool_id := pool_id r; midi_notes := midi_notes r;
     unended_notes := v |}.

End Region.

(** The part of the project the consumer works on: the tracks of the
    tracklist, the heaps of regions, notes and audio clips, and the
    identifiers recorded in this session ([recorded_ids], whose counter
    [num_recorded_ids] is the length of the list). *)
Record project : Type := {
  tracks : list Track;
  region_heap : list Region.ZRegion;
  note_heap : list Note.MidiNote;
  clip_heap : list Clip.AudioClip;
  recorded_ids : list RegionId.RegionIdentifier
}.

Definition set_tracks (v : list Track) (pj : project) : project :=
  {| tracks := v; region_heap := region_heap pj; note_heap := note_heap pj;
     clip_heap := clip_heap pj; recorded_ids := recorded_ids pj |}.

Definition set_region_heap (v : list Region.ZRegion) (pj : project) : project :=
  {| tracks := tracks pj; region_heap := v; note_heap := note_heap pj;
     clip_heap := clip_heap pj; recorded_ids := recorded_ids pj |}.

Definition set_note_heap (v : list Note.MidiNote) (pj : project) : project :=
  {| tracks := tracks pj; region_heap := region_heap pj; note_heap := v;
     clip_heap := clip_heap pj; recorded_ids := recorded_ids pj |}.

Definition set_clip_heap (v : list Clip.AudioClip) (pj : project) : project :=
  {| tracks := tracks pj; region_heap := region_heap pj; note_heap := note_heap pj;
     clip_heap := v; recorded_ids := recorded_ids pj |}.

Definition set_recorded_ids (v : list RegionId.RegionIdentifier) (pj : project)
  : project :=
  {| tracks := tracks pj; region_heap := region_heap pj; note_heap := note_heap pj;
     clip_heap := clip_heap pj; recorded_ids := v |}.

(** Modelled from the spec: [track_get_from_name] of [audio/track.c] (not
    among the sources at hand) looks a track up by name; the result is the
    pointer to the first track of that name, or [None] for [NULL]. *)
Fixpoint find_track (l : list Track) (nm : string) (i : Z) : option Z :=
  match l with
  | [] => None
  | tr :: rest => if String.eqb (name tr) nm then Some i else find_track rest nm (i + 1)
  end.

Definition track_get_from_name (pj : project) (nm : string) : option Z :=
  find_track (tracks pj) nm 0.

(** Adds the region's identifier to the recorded identifiers
    ([add_recorded_id]). *)
Definition add_recorded_id (pj : project) (region : Region.ZRegion) : project :=
  set_recorded_ids
    (recorded_ids pj ++ [RegionId.region_identifier_copy (Region.id region)]) pj.

(** Modelled from the spec: [midi_region_pop_unended_note (region, pitch)]
    of [audio/midi_region.c] (not among the sources at hand) takes the
    matching open note off the unended notes of the region, the note opened
    last first; a pitch of -1 matches every note.  The result is the pointer
    to the note ([None] for [NULL]) and the unended notes that remain; a
    note pointer outside the heap of notes fails. *)
Fixpoint pop_unended (notes : list Note.MidiNote) (unended : list Z) (pitch : Z)
  : option (option Z * list Z) :=
  match unended with
  | [] => Some (None, [])
  | mn :: rest =>
      let? n := deref notes mn in
      if (pitch =? -1) || (Note.val n =? pitch) then Some (Some mn, rest)
      else
        let? r := pop_unended notes rest pitch in
        Some (fst r, mn :: snd r)
  end.

Definition midi_region_pop_unended_note (pj : project) (region : Z) (pitch : Z)
  : option (option Z * project) :=
  let? r := deref (region_heap pj) region in
  let? res := pop_unended (note_heap pj) (Region.unended_notes r) pitch in
  Some (fst res,
        set_region_heap
          (store_at (region_heap pj) region (Region.set_unended_notes (snd res) r))
          pj).

(** Modelled from the spec: [track_add_region (track, region, NULL,
    lane_pos, ...)] of [audio/track.c] (not among the sources at hand) puts
    the region into the lane [lane_pos] of the track, after creating the
    lanes that are missing up to that lane. *)
Definition create_missing_lanes (l : list TrackLane) (lane_pos : Z) : list TrackLane :=
  l ++ repeat {| regions := [] |} (Z.to_nat (lane_pos + 1) - List.length l).

Definition lane_add_region (lane : TrackLane) (region : Z) : TrackLane :=
  {| regions := regions lane ++ [region] |}.

Definition track_add_region (tr : Track) (region : Z) (lane_pos : Z) : Track :=
  let l := create_missing_lanes (lanes tr) lane_pos in
  match deref l lane_pos with
  | Some lane => set_lanes (store_at l lane_pos (lane_add_region lane region)) tr
  | None => set_lanes l tr
  end.

(** [tr->num_lanes > new_lane_pos ? tr->lanes[new_lane_pos]->num_regions : 0]. *)
Definition lane_num_regions (tr : Track) (lane_pos : Z) : Z :=
  if num_lanes tr >? lane_pos then
    match deref (lanes tr) lane_pos with
    | Some lane => Z.of_nat (List.length (regions lane))
    | None => 0
    end
  else 0.

Section HandleSplit.

Variable TRANSPORT : Transport.

(** [position_from_frames] and [position_from_ticks] of
    [audio/position.c]. *)
Variable position_from_frames : Z -> Position.
Variable position_from_ticks : Z -> Position.

(** [handle_split_event] for an event of type
    [RECORDING_EVENT_TYPE_SPLIT_AUTOMATION_RECORDING] (its second branch,
    which the statements below do not look into). *)
Variable handle_split_automation : RecordingEvent -> project -> option project.

(** Modelled from the spec: [position_set_to_pos (dest, src)] of
    [audio/position.h] (not among the sources at hand) copies a position,
    and [position_add_ticks (pos, ticks)] recomputes the position from its
    ticks plus [ticks]. *)
Definition position_set_to_pos (src : Position) : Position :=
  {| frames := frames src; total_ticks := total_ticks src |}.

Definition position_add_ticks (p : Position) (ticks : Z) : Position :=
  position_from_ticks (total_ticks p + ticks).

(** Modelled from the spec: [midi_region_new (start_pos, end_pos,
    track_pos, lane_pos, idx)] of [audio/midi_region.c] (not among the
    sources at hand) makes a MIDI region without notes from the start
    position to the end position, for the given track, lane and index in
    the lane. *)
Definition midi_region_new (start_pos end_pos : Position)
    (track_pos lane_pos idx : Z) : Region.ZRegion :=
  {| Region.base :=
       {| ArrangerObj.pos := start_pos;
          ArrangerObj.end_pos := end_pos;
          ArrangerObj.loop_end_pos :=
            position_from_ticks (total_ticks end_pos - total_ticks start_pos);
          ArrangerObj.fade_out_pos :=
            position_from_ticks (total_ticks end_pos - total_ticks start_pos) |};
     Region.id :=
       {| RegionId.type := REGION_TYPE_MIDI; RegionId.track_pos := track_pos;
          RegionId.lane_pos := lane_pos; RegionId.idx := idx |};
     Region.frames := fun _ => F32.zero;
     Region.num_frames := 0;
     Region.pool_id := -1;
     Region.midi_notes := [];
     Region.unended_notes := [] |}.

(** Modelled from the spec: [audio_region_new (-1, NULL, NULL, nframes,
    channels, start_pos, track_pos, lane_pos, idx)] of
    [audio/audio_region.c] (not among the sources at hand) makes a clip of
    [nframes] frames for recording, which goes into the pool at [pool_id],
    and an audio region for it that starts at the start position and is
    [nframes] frames long. *)
Definition audio_clip_new_recording (channels nframes : Z) : Clip.AudioClip :=
  {| Clip.frames := fun _ => F32.zero; Clip.num_frames := nframes;
     Clip.channels := channels |}.

Definition audio_region_new (pool_id nframes : Z) (start_pos : Position)
    (track_pos lane_pos idx : Z) : Region.ZRegion :=
  {| Region.base :=
       {| ArrangerObj.pos := start_pos;
          ArrangerObj.end_pos := position_from_frames (frames start_pos + nframes);
          ArrangerObj.loop_end_pos := position_from_frames nframes;
          ArrangerObj.fade_out_pos := position_from_frames nframes |};
     Region.id :=
       {| RegionId.type := REGION_TYPE_AUDIO; RegionId.track_pos := track_pos;
          RegionId.lane_pos := lane_pos; RegionId.idx := idx |};
     Region.frames := fun _ => F32.zero;
     Region.num_frames := nframes;
     Region.pool_id := pool_id;
     Region.midi_notes := [];
     Region.unended_notes := [] |}.

(** [while ((mn = midi_region_pop_unended_note (region, -1)))
    arranger_object_end_pos_setter (mn_obj, &r_loop_end)], with fuel for
    the iterations: [None] when the fuel runs out or a pointer is
    invalid. *)
Fixpoint end_unended_notes (fuel : nat) (pj : project) (region : Z)
    (r_loop_end : Position) : option project :=
  match fuel with
  | O => None
  | S fuel' =>
      let? popped := midi_region_pop_unended_note pj region (-1) in
      match fst popped with
      | None => Some (snd popped)
      | Some mn =>
          let pj := snd popped in
          let? note := deref (note_heap pj) mn in
          let pj :=
            set_note_heap
              (store_at (note_heap pj) mn
                 (Note.set_base
                    (ArrangerObj.arranger_object_end_pos_setter (Note.base note)
                       r_loop_end)
                    note))
              pj in
          end_unended_notes fuel' pj region r_loop_end
      end
  end.

(** [handle_split_event], for an event of type
    [RECORDING_EVENT_TYPE_SPLIT_TRACK_RECORDING].  The result is [None]
    when a pointer that the code dereferences is invalid or the fuel of the
    loop over the unended notes runs out. *)
Definition handle_split_event (fuel : nat) (ev : RecordingEvent) (pj : project)
  : option project :=
  (* tmp end position after loop end *)
  let end_pos := position_from_frames (frames (loop_start_pos TRANSPORT) + 1) in
  let local_offset := local_offset ev in
  let nframes := nframes ev in
  let g_start_frames := g_start_frames ev in
  if RecordingEventType_eqb (type ev) RECORDING_EVENT_TYPE_SPLIT_TRACK_RECORDING
  then
    let? tr_ptr := track_get_from_name pj (track_name ev) in
    let? tr := deref (tracks pj) tr_ptr in
    (* get the recording region *)
    match recording_region tr with
    | None => Some pj
    | Some region =>
        let? r := deref (region_heap pj) region in
        (* set current region end pos to transport loop end *)
        let r_obj :=
          ArrangerObj.arranger_object_end_pos_setter (Region.base r)
            (loop_end_pos TRANSPORT) in
        let r_obj :=
          ArrangerObj.set_end_pos_frames (frames (loop_end_pos TRANSPORT)) r_obj in
        (* set loop end pos to same point *)
        let r_loop_end :=
          position_add_ticks (position_set_to_pos (loop_end_pos TRANSPORT))
            (- total_ticks (ArrangerObj.pos r_obj)) in
        let r_obj :=
          ArrangerObj.arranger_object_loop_end_pos_setter r_obj r_loop_end in
        let r := Region.set_base r_obj r in
        let pj := set_region_heap (store_at (region_heap pj) region r) pj in
        match in_signal_type tr with
        | Port.TYPE_EVENT =>
            (* start new region in new lane at TRANSPORT loop start *)
            let new_lane_pos := RegionId.lane_pos (Region.id r) + 1 in
            let new_region_obj :=
              midi_region_new (loop_start_pos TRANSPORT) end_pos (pos tr)
                new_lane_pos (lane_num_regions tr new_lane_pos) in
            let new_region := Z.of_nat (List.length (region_heap pj)) in
            let pj := set_region_heap (region_heap pj ++ [new_region_obj]) pj in
            let tr := track_add_region tr new_region new_lane_pos in
            let pj := add_recorded_id pj new_region_obj in
            let tr := set_recording_region (Some new_region) tr in
            let pj := set_tracks (store_at (tracks pj) tr_ptr tr) pj in
            (* add midi note offs at the end *)
            end_unended_notes fuel pj region r_loop_end
        | Port.TYPE_AUDIO =>
            let? clip := deref (clip_heap pj) (Region.pool_id r) in
            (* finalize clip *)
            let clip :=
              Clip.set_num_frames
                (frames (ArrangerObj.end_pos r_obj) - frames (ArrangerObj.pos r_obj))
                clip in
            let r := Region.set_num_frames (Clip.num_frames clip) r in
            let r :=
              Region.set_frames
                (memcpy (Region.frames r) (Clip.frames clip)
                   (Clip.num_frames clip * Clip.channels clip))
                r in
            (* start new region in new lane at TRANSPORT loop start *)
            let new_lane_pos := RegionId.lane_pos (Region.id r) + 1 in
            let new_pool_id := Z.of_nat (List.length (clip_heap pj)) in
            let new_region_obj :=
              audio_region_new new_pool_id 1 (loop_start_pos TRANSPORT) (pos tr)
                new_lane_pos (lane_num_regions tr new_lane_pos) in
            let new_region := Z.of_nat (List.length (region_heap pj)) in
            let tr := track_add_region tr new_region new_lane_pos in
            let tr := set_recording_region (Some new_region) tr in
            let r_obj := ArrangerObj.set_fade_out_pos (ArrangerObj.loop_end_pos r_obj) r_obj in
            let r := Region.set_base r_obj r in
            (* handle the samples until loop end *)
            let clip_offset_before_loop := g_start_frames - frames (ArrangerObj.pos r_obj) in
            let copied :=
              for_range local_offset ((local_offset + nframes) mod 2 ^ 32)
                (fun i (st : array F32.float * Z) =>
                   let '(fr, off) := st in
                   let fr := array_set fr (Clip.channels clip * off) (lbuf ev i) in
                   let fr := array_set fr (Clip.channels clip * off) (rbuf ev i) in
                   (fr, off + 1))
                (Clip.frames clip, clip_offset_before_loop) in
            let clip := Clip.set_frames (fst copied) clip in
            Some
              (add_recorded_id
                 {| tracks := store_at (tracks pj) tr_ptr tr;
                    region_heap :=
                      store_at (region_heap pj) region r ++ [new_region_obj];
                    note_heap := note_heap pj;
                    clip_heap :=
                      store_at (clip_heap pj) (Region.pool_id r) clip
                      ++ [audio_clip_new_recording 2 1];
                    recorded_ids := recorded_ids pj |}
                 new_region_obj)
        | _ => Some pj
        end
    end
  else if RecordingEventType_eqb (type ev)
            RECORDING_EVENT_TYPE_SPLIT_AUTOMATION_RECORDING
  then handle_split_automation ev pj
  else Some pj.

End HandleSplit.

(** *** Reading the outcome of a cycle *)

(** A computation [m] returns [a] and emits events of the kinds [tys], in
    this order, whenever the pool holds that many objects: it takes
    them from the front of the pool and appends the events to the queue. *)
Definition emits {A : Type} (m : M A) (a : A) (tys : list RecordingEventType) : Prop :=
  forall s,
    (List.length tys <= List.length (event_obj_pool s))%nat ->
    exists evs,
      m s = Some (a, {| event_obj_pool := skipn (List.length tys) (event_obj_pool s);
                        event_queue := event_queue s ++ evs |}) /\
      map type evs = tys.

(** The number of events of kind [ty] among [tys]. *)
Definition count_type (ty : RecordingEventType) (tys : list RecordingEventType) : nat :=
  List.length (filter (RecordingEventType_eqb ty) tys).

Definition is_automation_type (ty : RecordingEventType) : Prop :=
  ty = RECORDING_EVENT_TYPE_STOP_AUTOMATION_RECORDING \/
  ty = RECORDING_EVENT_TYPE_SPLIT_AUTOMATION_RECORDING \/
  ty = RECORDING_EVENT_TYPE_START_AUTOMATION_RECORDING \/
  ty = RECORDING_EVENT_TYPE_AUTOMATION.

Definition is_data_type (ty : RecordingEventType) : Prop :=
  ty = RECORDING_EVENT_TYPE_MIDI \/ ty = RECORDING_EVENT_TYPE_AUDIO.

(** The gating conditions of a cycle: global recording armed, track record
    enabled, transport rolling, and inside the punch range when punch mode
    is on. *)
Definition gating (t : Transport) (position_from_frames : Z -> Position)
    (tr : Track) (g_start_frames : Z) : bool :=
  transport_recording t && recording tr && rolling t
  && (if punch_mode t then
        transport_position_is_inside_punch_range t
          (position_from_frames g_start_frames)
      else true).

(** As many pool objects as one cycle of a track can take: one for the
    track, two for each automation track, one for each MIDI event and one
    more for a cycle without MIDI events or for the audio block. *)
Definition pool_demand (tp : TrackProcessor) : nat :=
  2 + 2 * List.length (automation_tracklist (track tp))
  + List.length (midi_in_events tp).

(** Values for the examples: a pooled event object as
    [recording_event_new] leaves it, a transport that is armed but not
    rolling, and an instrument track that is armed and has a region in
    progress, with one automation track and one note-on waiting. *)
Definition zero_position : Position := {| frames := 0; total_ticks := 0 |}.

Definition blank_event : RecordingEvent :=
  {| type := RECORDING_EVENT_TYPE_START_TRACK_RECORDING;
     g_start_frames := 0; local_offset := 0; nframes := 0;
     track_name := EmptyString;
     port_id := Graph.blank_identifier Port.TYPE_UNKNOWN Port.FLOW_UNKNOWN;
     has_midi_event := 0;
     midi_event := {| Midi.type := Midi.MIDI_EVENT_TYPE_NOTE_OFF;
                      Midi.note_pitch := 0; Midi.velocity := 0; Midi.time := 0 |};
     lbuf := fun _ => F32.zero; rbuf := fun _ => F32.zero |}.

Definition stopped_transport : Transport :=
  {| punch_mode := false; transport_recording := true; rolling := false;
     loop_start_pos := {| frames := 1000; total_ticks := 100 |};
     loop_end_pos := {| frames := 5000; total_ticks := 500 |};
     punch_in_pos := zero_position; punch_out_pos := zero_position |}.

Definition armed_track : Track :=
  {| name := "lead"; pos := 3; track_type := TRACK_TYPE_INSTRUMENT;
     in_signal_type := Port.TYPE_EVENT; recording := true;
     recording_region := Some 0;
     lanes := [ {| regions := [0] |} ];
     automation_tracklist :=
       [ {| at_port_id := Graph.blank_identifier Port.TYPE_CONTROL Port.FLOW_INPUT;
            recording_started := false;
            record_mode := AUTOMATION_RECORD_MODE_TOUCH |} ] |}.

Definition armed_processor : TrackProcessor :=
  {| track := armed_track;
     midi_in_events :=
       [ {| Midi.type := Midi.MIDI_EVENT_TYPE_NOTE_ON;
            Midi.note_pitch := 60; Midi.velocity := 90; Midi.time := 4 |} ];
     stereo_in_l_buf := fun _ => F32.zero;
     stereo_in_r_buf := fun _ => F32.zero |}.

Definition fresh_manager : rm_state :=
  {| event_obj_pool := repeat blank_event 8; event_queue := [] |}.

Definition records_midi (ty : TrackType) : bool :=
  TrackType_eqb ty TRACK_TYPE_INSTRUMENT.


(** A project in which the armed track records into region 0, which
    starts at frame 2000 and has two notes open, and the split event of
    that track. *)
Definition frames_to_position (f : Z) : Position :=
  {| frames := f; total_ticks := f / 10 |}.

Definition ticks_to_position (t : Z) : Position :=
  {| frames := t * 10; total_ticks := t |}.

Definition open_note (start_ticks pitch : Z) : Note.MidiNote :=
  {| Note.base :=
       {| ArrangerObj.pos := ticks_to_position start_ticks;
          ArrangerObj.end_pos := ticks_to_position (start_ticks + 1);
          ArrangerObj.loop_end_pos := zero_position;
          ArrangerObj.fade_out_pos := zero_position |};
     Note.val := pitch; Note.vel := 90 |}.

Definition recording_project : project :=
  {| tracks := [armed_track];
     region_heap :=
       [ Region.set_unended_notes [1; 0]
           (Region.set_base
              {| ArrangerObj.pos := frames_to_position 2000;
                 ArrangerObj.end_pos := frames_to_position 4900;
                 ArrangerObj.loop_end_pos := frames_to_position 2900;
                 ArrangerObj.fade_out_pos := frames_to_position 2900 |}
              (midi_region_new ticks_to_position (frames_to_position 2000)
                 (frames_to_position 4900) 3 0 0)) ];
     note_heap := [open_note 10 60; open_note 150 64];
     clip_heap := [];
     recorded_ids := [] |}.


End Recording.

(** ** Disconnecting a port from everything ([audio/port.c]) *)

Module Routing.

Import C Port.

(** [for (i = lo; i < bound; i++) body], for a body that may change the
    bound: the test reads the state of every turn.  The turns are counted
    by the fuel, and the result is [None] when the fuel runs out before the
    test fails. *)
Fixpoint for_bound {S : Type} (fuel : nat) (i : Z) (bound : S -> Z)
    (body : Z -> S -> S) (s : S) : option S :=
  match fuel with
  | O => None
  | Datatypes.S fuel' =>
      if i <? bound s then for_bound fuel' (i + 1) bound body (body i s)
      else Some s
  end.

(** Modelled from the spec: the macros [FOREACH_SRCS (port)] and
    [FOREACH_DESTS (port)] of [audio/port.h] (not among the sources at
    hand).  The spec has the operation visit the edges that touch the port;
    the bodies written under the macros use the index [i] that the macros
    declare, so that they stand for [for (int i = 0; i < port->num_srcs;
    i++)] and [for (int i = 0; i < port->num_dests; i++)]. *)
Definition FOREACH_SRCS (fuel : nat) (port : ptr) (body : Z -> heap -> heap)
    (h : heap) : option heap :=
  for_bound fuel 0 (fun h => num_srcs (h port)) body h.

Definition FOREACH_DESTS (fuel : nat) (port : ptr) (body : Z -> heap -> heap)
    (h : heap) : option heap :=
  for_bound fuel 0 (fun h => num_dests (h port)) body h.

(** Disconnects all srcs and dests from port ([port_disconnect_all]); the
    result is the returned status and the heap after the call. *)
Definition port_disconnect_all (fuel : nat) (h : heap) (port : ptr)
  : option (Z * heap) :=
  match
    FOREACH_SRCS fuel port
      (fun i h =>
         let src := srcs (h port) i in
         snd (port_disconnect h src port))
      h
  with
  | None => None
  | Some h =>
      match
        FOREACH_DESTS fuel port
          (fun i h =>
             let dest := dests (h port) i in
             snd (port_disconnect h port dest))
          h
      with
      | None => None
      | Some h => Some (0, h)
      end
  end.

(** An audio port 0 with the sources 1, 2, 3 and the destinations 4, 5,
    each of which lists port 0 on its other side. *)
Definition hub_heap : heap :=
  fun p =>
    if p =? 0 then
      set_num_dests 2
        (set_dests (fun i => i + 4)
           (set_num_srcs 3
              (set_srcs (fun i => i + 1) (Graph.blank_port TYPE_AUDIO FLOW_UNKNOWN))))
    else if (1 <=? p) && (p <=? 3) then
      set_num_dests 1
        (set_dests (fun _ => 0) (Graph.blank_port TYPE_AUDIO FLOW_UNKNOWN))
    else if (4 <=? p) && (p <=? 5) then
      set_num_srcs 1
        (set_srcs (fun _ => 0) (Graph.blank_port TYPE_AUDIO FLOW_UNKNOWN))
    else Graph.blank_port TYPE_AUDIO FLOW_UNKNOWN.

End Routing.

(** ** Reading the outcome of the port processing *)

Module Signal.

Import C Port.

(** The frames [start <= l < stop]. *)
Definition in_frames (start stop l : Z) : bool := (start <=? l) && (l <? stop).

(** The port passes the test of [port_sum_data_from_jack]: it is not owned
    by the backend, it is backed by a JACK port and it is an input. *)
Definition takes_jack_input (P : Port) : bool :=
  negb (PortOwnerType_eqb (owner_type (identifier P)) PORT_OWNER_TYPE_BACKEND)
  && PortInternalType_eqb (internal_type P) INTERNAL_JACK_PORT
  && PortFlow_eqb (flow (identifier P)) FLOW_INPUT.

(** The events whose time lies in the frames of the cycle. *)
Definition events_in_cycle (start_frame nframes : Z) (ev : Midi.MidiEvents)
  : Midi.MidiEvents :=
  filter
    (fun e => (start_frame <=? Midi.time e) && (Midi.time e <? start_frame + nframes))
    ev.

(** [P'] is [P] except for its events, respectively for its buffer, its
    events and the current value of its LV2 control. *)
Definition same_but_events (P P' : Port) : Prop :=
  P' = set_midi_events (midi_events P') P.

Definition same_but_signal (P P' : Port) : Prop :=
  P' = set_lv2_port_control (control (lv2_port P'))
         (set_midi_events (midi_events P') (set_buf (buf P') P)).

(** The sum of frame [l] of the sources [ss] on top of [v], taken in the
    order of the list. *)
Definition sum_frame (h : heap) (ss : list ptr) (l : Z) (v : F32.float) : F32.float :=
  fold_left (fun acc s => F32.add acc (buf (h s) l)) ss v.

(** An audio input port 0 backed by a JACK port and owned by a track, and
    the buffer JACK hands out for it, which holds frame number [l] in
    frame [l]. *)
Definition jack_heap : heap :=
  fun p =>
    {| identifier :=
         {| label := EmptyString; owner_type := PORT_OWNER_TYPE_TRACK;
            type := TYPE_AUDIO; flow := FLOW_INPUT; flags := 0;
            plugin_slot := -1; track_pos := 0; port_index := 0 |};
       internal_type := INTERNAL_JACK_PORT;
       buf := fun _ => F32.one;
       midi_events := [];
       srcs := fun _ => 0; dests := fun _ => 0;
       src_ids := fun _ => Graph.blank_identifier TYPE_UNKNOWN FLOW_UNKNOWN;
       dest_ids := fun _ => Graph.blank_identifier TYPE_UNKNOWN FLOW_UNKNOWN;
       multipliers := fun _ => F32.zero;
       dest_locked := fun _ => 0; dest_enabled := fun _ => 0;
       num_srcs := 0; num_dests := 0;
       base_value := F32.zero;
       lv2_port := {| control := F32.zero;
                      lv2_control := {| minf := F32.zero; maxf := F32.zero |} |} |}.

Definition ramp_buffer : ptr -> array F32.float := fun _ l => F32.of_Z l.

(** An event port 0 that holds one event and has the event ports 1 and 2
    as sources, with two events each, one of them at frame 300. *)
Definition note_at (t pitch : Z) : Midi.MidiEvent :=
  {| Midi.type := Midi.MIDI_EVENT_TYPE_NOTE_ON; Midi.note_pitch := pitch;
     Midi.velocity := 90; Midi.time := t |}.

Definition merge_heap : heap :=
  fun p =>
    if p =? 0 then
      set_midi_events [note_at 0 50]
        (set_num_srcs 2
           (set_srcs (fun i => i + 1) (Graph.blank_port TYPE_EVENT FLOW_INPUT)))
    else
      set_midi_events [note_at 300 (60 + p); note_at 5 (70 + p)]
        (set_num_dests 1
           (set_dests (fun _ => 0) (Graph.blank_port TYPE_EVENT FLOW_OUTPUT))).

End Signal.

(** ** The consumer of the recording events ([audio/recording_manager.c]) *)

Module Consumer.

Import C Recording.

(** [region->midi_notes] with one more note. *)
Definition set_midi_notes (v : list Z) (r : Region.ZRegion) : Region.ZRegion :=
  {| Region.base := Region.base r; Region.id := Region.id r;
     Region.frames := Region.frames r; Region.num_frames := Region.num_frames r;
     Region.pool_id := Region.pool_id r; Region.midi_notes := v;
     Region.unended_notes := Region.unended_notes r |}.

(** [obj->loop_end_pos.frames = v]. *)
Definition set_loop_end_pos_frames (v : Z) (o : ArrangerObj.ArrangerObject)
  : ArrangerObj.ArrangerObject :=
  ArrangerObj.set_loop_end_pos
    {| frames := v; total_ticks := total_ticks (ArrangerObj.loop_end_pos o) |} o.

(** Modelled from the spec: [audio_region_get_clip (region)] of
    [audio/audio_region.c] (not among the sources at hand) gives the clip
    of the pool that the region plays, which is the one at [pool_id];
    [None] stands for a pointer that cannot be dereferenced. *)
Definition audio_region_get_clip (pj : project) (r : Region.ZRegion)
  : option Clip.AudioClip :=
  deref (clip_heap pj) (Region.pool_id r).

(** Modelled from the spec: [midi_region_start_unended_note (region,
    start_pos, end_pos, pitch, vel, pub_events)] of [audio/midi_region.c]
    (not among the sources at hand) opens an unended note: a new note of the
    given pitch and velocity, from the start position to a provisional end
    position, which joins the notes of the region and comes first among its
    unended notes. *)
Definition midi_region_start_unended_note (pj : project) (region : Z)
    (start_pos end_pos : Position) (pitch vel : Z) : option project :=
  let? r := deref (region_heap pj) region in
  let mn := Z.of_nat (List.length (note_heap pj)) in
  let note :=
    {| Note.base :=
         {| ArrangerObj.pos := start_pos; ArrangerObj.end_pos := end_pos;
            ArrangerObj.loop_end_pos := zero_position;
            ArrangerObj.fade_out_pos := zero_position |};
       Note.val := pitch; Note.vel := vel |} in
  Some
    (set_region_heap
       (store_at (region_heap pj) region
          (Region.set_unended_notes (mn :: Region.unended_notes r)
             (set_midi_notes (Region.midi_notes r ++ [mn]) r)))
       (set_note_heap (note_heap pj ++ [note]) pj)).

(** Modelled from the spec: [object_pool_return] of [utils/object_pool.h]
    (not among the sources at hand) gives a consumed event object back to
    the pool, and [recording_event_queue_dequeue_event] of
    [audio/recording_manager.h] takes the event at the front of the queue,
    if there is one. *)
Definition object_pool_return (s : rm_state) (ev : RecordingEvent) : rm_state :=
  {| event_obj_pool := event_obj_pool s ++ [ev]; event_queue := event_queue s |}.

Definition recording_event_queue_dequeue_event (s : rm_state)
  : option (RecordingEvent * rm_state) :=
  match event_queue s with
  | [] => None
  | ev :: rest =>
      Some (ev, {| event_obj_pool := event_obj_pool s; event_queue := rest |})
  end.

(** The glib constant [G_SOURCE_CONTINUE], which is [TRUE]. *)
Definition G_SOURCE_CONTINUE : Z := 1.

(** Modelled from the spec: the timeline selection [TL_SELECTIONS] and
    [arranger_selections_clone] of [gui/backend/arranger_selections.h]
    (not among the sources at hand).  A selection is the arranger objects
    that are selected, and a clone of it is a snapshot, which later changes
    of the selection leave alone. *)
Definition ArrangerSelections : Type := list Z.

Definition arranger_selections_clone (sel : ArrangerSelections)
  : ArrangerSelections := sel.

(** What the handlers of the consumer work on: the fields [is_recording],
    [selections_before_start_track] and [selections_before_start_automation]
    of the recording manager ([None] for a null pointer), the timeline
    selection [TL_SELECTIONS] and the project (whose [recorded_ids] are the
    manager's). *)
Record recording_state : Type := {
  is_recording : Z;
  selections_before_start_track : option ArrangerSelections;
  selections_before_start_automation : option ArrangerSelections;
  TL_SELECTIONS : ArrangerSelections;
  proj : project
}.

Definition set_is_recording (v : Z) (self : recording_state) : recording_state :=
  {| is_recording := v;
     selections_before_start_track := selections_before_start_track self;
     selections_before_start_automation := selections_before_start_automation self;
     TL_SELECTIONS := TL_SELECTIONS self; proj := proj self |}.

Definition set_selections_before_start_track (v : option ArrangerSelections)
    (self : recording_state) : recording_state :=
  {| is_recording := is_recording self;
     selections_before_start_track := v;
     selections_before_start_automation := selections_before_start_automation self;
     TL_SELECTIONS := TL_SELECTIONS self; proj := proj self |}.

Definition set_selections_before_start_automation (v : option ArrangerSelections)
    (self : recording_state) : recording_state :=
  {| is_recording := is_recording self;
     selections_before_start_track := selections_before_start_track self;
     selections_before_start_automation := v;
     TL_SELECTIONS := TL_SELECTIONS self; proj := proj self |}.

Definition set_proj (v : project) (self : recording_state) : recording_state :=
  {| is_recording := is_recording self;
     selections_before_start_track := selections_before_start_track self;
     selections_before_start_automation := selections_before_start_automation self;
     TL_SELECTIONS := TL_SELECTIONS self; proj := v |}.

(** The recording manager on the side of the consumer: the pool and the
    queue, and the state its handlers work on. *)
Record consumer : Type := {
  manager : rm_state;
  state : recording_state
}.

(** The loop over the unended notes in [handle_split_event] takes one
    turn for each note that is open in the region, and one more to find that
    none is left.  No region of the project has more notes open than this
    bound. *)
Definition open_notes_bound (pj : project) : nat :=
  list_max (map (fun r => List.length (Region.unended_notes r)) (region_heap pj)).

Section Handlers.

Variable TRANSPORT : Transport.

(** [position_from_frames] and [position_from_ticks] of
    [audio/position.c], [transport_is_loop_point_met (TRANSPORT,
    g_start_frames, nframes)] of [audio/transport.h] and
    [track_has_piano_roll] of [audio/track.h]. *)
Variable position_from_frames : Z -> Position.
Variable position_from_ticks : Z -> Position.
Variable transport_is_loop_point_met : Z -> Z -> bool.
Variable track_has_piano_roll : Track -> bool.

(** The handlers of the events on automation, which the statements below
    do not look into: [handle_split_event] for a split of an automation
    recording, [handle_automation_event] and the part of
    [handle_start_recording] that an automation recording takes, which work
    on the project; and the cases of [events_process] for the start and the
    stop of an automation recording, which work on the automation tracks of
    the project and on the state of the recording manager. *)
Variable handle_split_automation : RecordingEvent -> project -> option project.
Variable handle_automation_event : RecordingEvent -> project -> option project.
Variable handle_start_automation : RecordingEvent -> project -> option project.
Variable process_start_automation :
  RecordingEvent -> recording_state -> option recording_state.
Variable process_stop_automation :
  RecordingEvent -> recording_state -> option recording_state.

(** [on_stop_recording (self, is_automation)]: the recorded regions are
    selected, turned into one undoable action and written out, the
    selection is restored and the snapshots are freed. *)
Variable on_stop_recording : bool -> recording_state -> option recording_state.

(** [handle_audio_event].  The result is [None] when a pointer that the
    code dereferences is invalid.  [realloc] keeps the samples a buffer
    holds, and the counter [cur_local_offset] is an unsigned 32-bit
    integer. *)
Definition handle_audio_event (ev : RecordingEvent) (pj : project) : option project :=
  let g_start_frames := g_start_frames ev in
  let nframes := nframes ev in
  let local_offset := local_offset ev in
  let? tr_ptr := track_get_from_name pj (track_name ev) in
  (* get end position *)
  let start_frames := g_start_frames + local_offset in
  let end_frames := start_frames + nframes in
  let end_pos := position_from_frames end_frames in
  (* get the recording region *)
  let? tr := deref (tracks pj) tr_ptr in
  match recording_region tr with
  | None => Some pj
  | Some region =>
      let? r := deref (region_heap pj) region in
      (* the clip *)
      let? clip := audio_region_get_clip pj r in
      (* set region end pos *)
      let r_obj := ArrangerObj.arranger_object_end_pos_setter (Region.base r) end_pos in
      let r_obj := ArrangerObj.set_end_pos_frames (frames end_pos) r_obj in
      let clip :=
        Clip.set_num_frames
          (frames (ArrangerObj.end_pos r_obj) - frames (ArrangerObj.pos r_obj))
          clip in
      let r := Region.set_num_frames (Clip.num_frames clip) r in
      let r :=
        Region.set_frames
          (memcpy (Region.frames r) (Clip.frames clip)
             (Clip.num_frames clip * Clip.channels clip))
          r in
      let r_obj :=
        ArrangerObj.set_loop_end_pos
          (position_from_frames
             (frames (ArrangerObj.end_pos r_obj) - frames (ArrangerObj.pos r_obj)))
          r_obj in
      let r_obj := ArrangerObj.set_fade_out_pos (ArrangerObj.loop_end_pos r_obj) r_obj in
      let r := Region.set_base r_obj r in
      let tr := set_recording_region (Some region) tr in
      (* handle the samples normally *)
      let cur_local_offset := local_offset in
      let copied :=
        for_range (start_frames - frames (ArrangerObj.pos r_obj))
          (end_frames - frames (ArrangerObj.pos r_obj))
          (fun i (st : array F32.float * Z) =>
             let '(fr, cur_local_offset) := st in
             let fr := array_set fr (i * Clip.channels clip) (lbuf ev cur_local_offset) in
             let fr :=
               array_set fr (i * Clip.channels clip + 1) (rbuf ev cur_local_offset) in
             (fr, (cur_local_offset + 1) mod 2 ^ 32))
          (Clip.frames clip, cur_local_offset) in
      let clip := Clip.set_frames (fst copied) clip in
      Some
        {| tracks := store_at (tracks pj) tr_ptr tr;
           region_heap := store_at (region_heap pj) region r;
           note_heap := note_heap pj;
           clip_heap := store_at (clip_heap pj) (Region.pool_id r) clip;
           recorded_ids := recorded_ids pj |}
  end.

(** [handle_midi_event]. *)
Definition handle_midi_event (ev : RecordingEvent) (pj : project) : option project :=
  let g_start_frames := g_start_frames ev in
  let nframes := nframes ev in
  let? tr_ptr := track_get_from_name pj (track_name ev) in
  (* get end position *)
  let start_frames := g_start_frames + local_offset ev in
  let end_frames := start_frames + nframes in
  let start_pos := position_from_frames start_frames in
  let end_pos := position_from_frames end_frames in
  (* get the recording region *)
  let? tr := deref (tracks pj) tr_ptr in
  match recording_region tr with
  | None => Some pj
  | Some region =>
      let? r := deref (region_heap pj) region in
      (* set region end pos *)
      let r_obj := ArrangerObj.arranger_object_end_pos_setter (Region.base r) end_pos in
      let r_obj := ArrangerObj.set_end_pos_frames (frames end_pos) r_obj in
      let r_obj := ArrangerObj.arranger_object_loop_end_pos_setter r_obj end_pos in
      let r_obj := set_loop_end_pos_frames (frames end_pos) r_obj in
      let r := Region.set_base r_obj r in
      let tr := set_recording_region (Some region) tr in
      let pj :=
        set_tracks (store_at (tracks pj) tr_ptr tr)
          (set_region_heap (store_at (region_heap pj) region r) pj) in
      if has_midi_event ev =? 0 then Some pj
      else
        (* get local positions *)
        let local_pos :=
          position_add_ticks position_from_ticks (position_set_to_pos start_pos)
            (- total_ticks (ArrangerObj.pos (Region.base r))) in
        let local_end_pos :=
          position_add_ticks position_from_ticks (position_set_to_pos end_pos)
            (- total_ticks (ArrangerObj.pos (Region.base r))) in
        (* convert MIDI data to midi notes *)
        let mev := midi_event ev in
        match Midi.type mev with
        | Midi.MIDI_EVENT_TYPE_NOTE_ON =>
            midi_region_start_unended_note pj region local_pos local_end_pos
              (Midi.note_pitch mev) (Midi.velocity mev)
        | Midi.MIDI_EVENT_TYPE_NOTE_OFF =>
            let? popped := midi_region_pop_unended_note pj region (Midi.note_pitch mev) in
            match fst popped with
            | Some mn =>
                let pj := snd popped in
                let? note := deref (note_heap pj) mn in
                Some
                  (set_note_heap
                     (store_at (note_heap pj) mn
                        (Note.set_base
                           (ArrangerObj.arranger_object_end_pos_setter
                              (Note.base note) local_end_pos)
                           note))
                     pj)
            | None => Some (snd popped)
            end
        | _ => Some pj
        end
  end.

(** [handle_start_recording].  The snapshot of the timeline selection is
    taken before the test on the region in progress.  The result is [None]
    when a pointer that the code dereferences is invalid. *)
Definition handle_start_recording (ev : RecordingEvent) (is_automation : bool)
    (self : recording_state) : option recording_state :=
  let tr := track_get_from_name (proj self) (track_name ev) in
  let self :=
    if is_automation then
      set_selections_before_start_automation
        (Some (arranger_selections_clone (TL_SELECTIONS self))) self
    else
      set_selections_before_start_track
        (Some (arranger_selections_clone (TL_SELECTIONS self))) self in
  let pj := proj self in
  let? tr_ptr := tr in
  let? tr := deref (tracks pj) tr_ptr in
  (* this could be called multiple times, ignore if already processed *)
  if is_set (recording_region tr) && negb is_automation then Some self
  else
    (* get end position *)
    let start_frames := g_start_frames ev + local_offset ev in
    let end_frames := start_frames + nframes ev in
    (* adjust for transport loop end *)
    let '(start_frames, end_frames) :=
      if transport_is_loop_point_met start_frames (nframes ev) then
        let start_frames' := frames (loop_start_pos TRANSPORT) in
        (start_frames',
         (end_frames - frames (loop_end_pos TRANSPORT)) + start_frames')
      else (start_frames, end_frames) in
    let start_pos := position_from_frames start_frames in
    let end_pos := position_from_frames end_frames in
    if is_automation then
      let? pj := handle_start_automation ev pj in
      Some (set_proj pj self)
    else if track_has_piano_roll tr then
      (* create region *)
      let new_lane_pos := num_lanes tr - 1 in
      let? lane := deref (lanes tr) new_lane_pos in
      let region_obj :=
        midi_region_new position_from_ticks start_pos end_pos (pos tr) new_lane_pos
          (Z.of_nat (List.length (regions lane))) in
      let region := Z.of_nat (List.length (region_heap pj)) in
      let pj := set_region_heap (region_heap pj ++ [region_obj]) pj in
      let tr := track_add_region tr region new_lane_pos in
      let tr := set_recording_region (Some region) tr in
      let pj := set_tracks (store_at (tracks pj) tr_ptr tr) pj in
      Some (set_proj (add_recorded_id pj region_obj) self)
    else if TrackType_eqb (track_type tr) TRACK_TYPE_AUDIO then
      (* create region *)
      let new_lane_pos := num_lanes tr - 1 in
      let? lane := deref (lanes tr) new_lane_pos in
      let pool_id := Z.of_nat (List.length (clip_heap pj)) in
      let region_obj :=
        audio_region_new position_from_frames pool_id (nframes ev) start_pos (pos tr)
          new_lane_pos (Z.of_nat (List.length (regions lane))) in
      let region := Z.of_nat (List.length (region_heap pj)) in
      let pj :=
        set_clip_heap (clip_heap pj ++ [audio_clip_new_recording 2 (nframes ev)])
          (set_region_heap (region_heap pj ++ [region_obj]) pj) in
      let tr := track_add_region tr region new_lane_pos in
      let tr := set_recording_region (Some region) tr in
      let pj := set_tracks (store_at (tracks pj) tr_ptr tr) pj in
      Some (set_proj (add_recorded_id pj region_obj) self)
    else Some self.

(** The switch of [events_process] on the type of the event.  The types of
    the events are those of the enumeration, so that the test
    [ev->type < 0] fails and no event takes the default case.  The result is
    [None] when a handler dereferences an invalid pointer: the loop over the
    unended notes in [handle_split_event] gets the turns of
    [open_notes_bound], which are more than it takes. *)
Definition process_event (ev : RecordingEvent) (self : recording_state)
  : option recording_state :=
  let on_project (r : option project) : option recording_state :=
    let? pj := r in Some (set_proj pj self) in
  match type ev with
  | RECORDING_EVENT_TYPE_MIDI => on_project (handle_midi_event ev (proj self))
  | RECORDING_EVENT_TYPE_AUDIO => on_project (handle_audio_event ev (proj self))
  | RECORDING_EVENT_TYPE_AUTOMATION =>
      on_project (handle_automation_event ev (proj self))
  | RECORDING_EVENT_TYPE_SPLIT_TRACK_RECORDING
  | RECORDING_EVENT_TYPE_SPLIT_AUTOMATION_RECORDING =>
      on_project
        (handle_split_event TRANSPORT position_from_frames position_from_ticks
           handle_split_automation (S (open_notes_bound (proj self))) ev
           (proj self))
  | RECORDING_EVENT_TYPE_STOP_TRACK_RECORDING =>
      let track := track_get_from_name (proj self) (track_name ev) in
      let? self :=
        if negb (is_recording self =? 0) then on_stop_recording false self
        else Some self in
      let self := set_is_recording 0 self in
      let? tr_ptr := track in
      let? tr := deref (tracks (proj self)) tr_ptr in
      Some
        (set_proj
           (set_tracks
              (store_at (tracks (proj self)) tr_ptr (set_recording_region None tr))
              (proj self))
           self)
  | RECORDING_EVENT_TYPE_STOP_AUTOMATION_RECORDING =>
      process_stop_automation ev self
  | RECORDING_EVENT_TYPE_START_TRACK_RECORDING =>
      let self :=
        if is_recording self =? 0
        then set_proj (set_recorded_ids [] (proj self)) self
        else self in
      let self := set_is_recording 1 self in
      handle_start_recording ev false self
  | RECORDING_EVENT_TYPE_START_AUTOMATION_RECORDING =>
      process_start_automation ev self
  end.

(** [events_process]: the queue is emptied, each event handled in turn and
    its object given back to the pool.  The result is [None] when a handler
    fails or the fuel of the loop runs out. *)
Fixpoint events_process (fuel : nat) (self : consumer) : option (Z * consumer) :=
  match fuel with
  | O => None
  | S fuel' =>
      match recording_event_queue_dequeue_event (manager self) with
      | None => Some (G_SOURCE_CONTINUE, self)
      | Some (ev, m) =>
          let? st := process_event ev (state self) in
          events_process fuel'
            {| manager := object_pool_return m ev; state := st |}
      end
  end.

End Handlers.

(** An audio track that records into region 0, which starts at frame
    1000 and plays clip 0 of two channels, and an audio event of 4 frames
    for the cycle that starts at frame 1100. *)
Definition audio_track : Track :=
  {| name := "vox"; pos := 0; track_type := TRACK_TYPE_AUDIO;
     in_signal_type := Port.TYPE_AUDIO; recording := true;
     recording_region := Some 0;
     lanes := [ {| regions := [0] |} ];
     automation_tracklist := [] |}.

Definition audio_project : project :=
  {| tracks := [audio_track];
     region_heap :=
       [ audio_region_new frames_to_position 0 100 (frames_to_position 1000) 0 0 0 ];
     note_heap := [];
     clip_heap := [ audio_clip_new_recording 2 100 ];
     recorded_ids := [] |}.

Definition audio_event : RecordingEvent :=
  set_bufs (fun i => F32.of_Z (10 + i)) (fun i => F32.of_Z (20 + i))
    (set_header RECORDING_EVENT_TYPE_AUDIO 1100 0 4 "vox" blank_event).

(** MIDI events for the armed track of [recording_project]. *)
Definition midi_data (g_start nframes : Z) (ty : Midi.MidiEventType) (pitch : Z)
  : RecordingEvent :=
  set_midi_event
    {| Midi.type := ty; Midi.note_pitch := pitch; Midi.velocity := 90; Midi.time := 0 |}
    (set_has_midi_event 1
       (set_header RECORDING_EVENT_TYPE_MIDI g_start 0 nframes "lead" blank_event)).

(** An instrument track that is armed and has nothing recorded yet. *)
Definition idle_track : Track :=
  {| name := "lead"; pos := 3; track_type := TRACK_TYPE_INSTRUMENT;
     in_signal_type := Port.TYPE_EVENT; recording := true;
     recording_region := None;
     lanes := [ {| regions := [] |} ];
     automation_tracklist := [] |}.

Definition idle_project : project :=
  {| tracks := [idle_track]; region_heap := []; note_heap := [];
     clip_heap := []; recorded_ids := [] |}.

Definition start_event : RecordingEvent :=
  set_header RECORDING_EVENT_TYPE_START_TRACK_RECORDING 4000 0 256 "lead" blank_event.

(** Handlers of automation events that leave things as they are, for the
    examples without automation; a recording manager at rest on the idle
    project, and one at work on the audio project. *)
Definition keep_project (_ : RecordingEvent) (pj : project) : option project :=
  Some pj.

Definition keep_state (_ : RecordingEvent) (self : recording_state)
  : option recording_state := Some self.

Definition idle_state : recording_state :=
  {| is_recording := 0;
     selections_before_start_track := None;
     selections_before_start_automation := None;
     TL_SELECTIONS := [];
     proj := idle_project |}.


End Consumer.

(** ** The events of a cycle, object by object *)

Module Cycle.

Import C Recording.

(** The events made of the first objects of the pool, the [i]-th one filled
    by the [i]-th of [fills]. *)
Fixpoint fill_all (fills : list (RecordingEvent -> RecordingEvent))
    (pool : list RecordingEvent) : list RecordingEvent :=
  match fills, pool with
  | f :: fs, re :: rest => f re :: fill_all fs rest
  | _, _ => []
  end.

(** A computation [m] returns [a] and sends the events that [fills]
    describe, whenever the pool holds that many objects. *)
Definition sends {A : Type} (m : M A) (a : A)
    (fills : list (RecordingEvent -> RecordingEvent)) : Prop :=
  forall s,
    (List.length fills <= List.length (event_obj_pool s))%nat ->
    m s = Some (a, {| event_obj_pool := skipn (List.length fills) (event_obj_pool s);
                      event_queue := event_queue s ++ fill_all fills (event_obj_pool s) |}).

(** An event that carries the header of a cycle. *)
Definition of_cycle (g lo n : Z) (nm : string) (ev : RecordingEvent) : Prop :=
  g_start_frames ev = g /\ local_offset ev = lo /\ nframes ev = n /\
  track_name ev = nm.

(** What the events on the state of the recording are made by: a fill that
    writes the header of the cycle and a type that is not MIDI or Audio. *)
Definition control_fill (g lo n : Z) (nm : string)
    (f : RecordingEvent -> RecordingEvent) : Prop :=
  forall re, of_cycle g lo n nm (f re) /\ ~ is_data_type (type (f re)).

(** The assignments that [recording_manager_handle_recording] makes to the
    objects it sends for the recorded material, in the order of the sends:
    for a track with a piano roll one fill for each event of [midi_in], and
    one more when there is none; for an audio track the fill that copies
    the block of [stereo_in]. *)
Definition material_fills (block_length : Z)
    (track_has_piano_roll : Track -> bool) (tp : TrackProcessor) (g lo n : Z)
  : list (RecordingEvent -> RecordingEvent) :=
  if track_has_piano_roll (track tp) then
    map (fun me re =>
           set_midi_event me
             (set_has_midi_event 1
                (set_header RECORDING_EVENT_TYPE_MIDI g lo n (name (track tp)) re)))
        (midi_in_events tp)
    ++ (if Midi.num_events (midi_in_events tp) =? 0 then
          [fun re =>
             set_has_midi_event 0
               (set_header RECORDING_EVENT_TYPE_MIDI g lo n (name (track tp)) re)]
        else [])
  else if TrackType_eqb (track_type (track tp)) TRACK_TYPE_AUDIO then
    [fun re =>
       set_bufs
         (memcpy (lbuf re) (stereo_in_l_buf tp) block_length)
         (memcpy (rbuf re) (stereo_in_r_buf tp) block_length)
         (set_header RECORDING_EVENT_TYPE_AUDIO g lo n (name (track tp)) re)]
  else [].

(** Values for the examples: a transport that rolls with recording armed,
    and the processor of the audio track ["vox"], whose [stereo_in] ports
    hold a ramp. *)
Definition rolling_transport : Transport :=
  {| punch_mode := false; transport_recording := true; rolling := true;
     loop_start_pos := {| frames := 1000; total_ticks := 100 |};
     loop_end_pos := {| frames := 5000; total_ticks := 500 |};
     punch_in_pos := zero_position; punch_out_pos := zero_position |}.

Definition audio_processor : TrackProcessor :=
  {| track := Consumer.audio_track;
     midi_in_events := [];
     stereo_in_l_buf := fun i => F32.of_Z i;
     stereo_in_r_buf := fun i => F32.of_Z (100 + i) |}.

End Cycle.

(** * Properties *)

(** Case analysis on the integer comparisons of a goal. *)
Ltac zcases :=
  repeat match goal with
    | |- context [?a =? ?b] => destruct (Z.eqb_spec a b)
    | |- context [?a <=? ?b] => destruct (Z.leb_spec a b)
    | |- context [?a <? ?b] => destruct (Z.ltb_spec a b)
    end;
  cbn [andb orb negb]; try subst; try reflexivity; try congruence; try lia.

Section LoopFacts.

Import C.

Lemma for_steps_shift {A : Type} (n : nat) (lo : Z) (a : array A) (j : Z) :
  for_steps n lo (fun jj arr => array_set arr jj (arr (jj + 1))) a j =
  if (lo <=? j) && (j <? lo + Z.of_nat n) then a (j + 1) else a j.
Proof.
  revert lo a; induction n as [|n IH]; intros lo a.
  - cbn [for_steps]. zcases.
  - cbn [for_steps]. rewrite IH. unfold array_set. zcases.
Qed.

Lemma for_range_shift {A : Type} (lo hi : Z) (a : array A) (j : Z) :
  for_range lo hi (fun jj arr => array_set arr jj (arr (jj + 1))) a j =
  if (lo <=? j) && (j <? hi) then a (j + 1) else a j.
Proof.
  unfold for_range. rewrite for_steps_shift. zcases.
Qed.

End LoopFacts.

Section ArrayFacts.

Import C Graph.

Context {A : Type} (eqb : A -> A -> bool) (x : A).

Lemma for_steps_break_delete (n : nat) (lo size pos : Z) (arr : array A) :
  size = lo + Z.of_nat n ->
  let '(a', n', p') :=
    for_steps_break n lo
      (fun ii '(arr, size, pos) =>
         if eqb (arr ii) x then
           let pos := ii in
           let size := size - 1 in
           let arr :=
             for_range ii size (fun jj arr => array_set arr jj (arr (jj + 1))) arr in
           Break (arr, size, pos)
         else Continue (arr, size, pos))
      (arr, size, pos) in
  ((forall i, lo <= i < size -> eqb (arr i) x = false) /\
   a' = arr /\ n' = size /\ p' = pos)
  \/
  (exists k, lo <= k < size /\ eqb (arr k) x = true /\
     (forall i, lo <= i < k -> eqb (arr i) x = false) /\
     n' = size - 1 /\ p' = k /\ forall j, a' j = shifted arr k size j).
Proof.
  match goal with
  | |- context [for_steps_break _ _ ?b _] => set (body := b)
  end.
  assert (Hbody : forall ii a s p,
             body ii (a, s, p) =
             if eqb (a ii) x then
               Break (for_range ii (s - 1)
                        (fun jj arr => array_set arr jj (arr (jj + 1))) a,
                      s - 1, ii)
             else Continue (a, s, p)) by reflexivity.
  clearbody body. unfold array in *.
  revert lo; induction n as [|n IH]; intros lo Hsize.
  - cbn [for_steps_break]. left. split; [intros; lia | auto].
  - cbn [for_steps_break]. rewrite Hbody.
    destruct (eqb (arr lo) x) eqn:E; cbn beta iota.
    + right. exists lo.
      split; [lia|]. split; [assumption|]. split; [intros; lia|].
      split; [reflexivity|]. split; [reflexivity|].
      intros j. exact (for_range_shift lo (size - 1) arr j).
    + specialize (IH (lo + 1) ltac:(lia)).
      destruct (for_steps_break n (lo + 1) body (arr, size, pos)) as [[a' n'] p'].
      cbn beta iota in IH |- *.
      destruct IH as [(Hno & -> & -> & ->) | (k & Hk & Hx & Hfirst & -> & -> & Hsh)].
      * left. split; auto. intros i Hi.
        destruct (Z.eq_dec i lo) as [->|]; [assumption | apply Hno; lia].
      * right. exists k.
        split; [lia|]. split; [assumption|]. split.
        { intros i Hi.
          destruct (Z.eq_dec i lo) as [->|]; [assumption | apply Hfirst; lia]. }
        auto.
Qed.

Lemma array_delete_return_pos_cases (arr : array A) (size pos : Z) :
  let '(a', n', p') := array_delete_return_pos eqb arr size x pos in
  ((forall i, 0 <= i < size -> eqb (arr i) x = false) /\
   a' = arr /\ n' = size /\ p' = pos)
  \/
  (exists k, 0 <= k < size /\ eqb (arr k) x = true /\
     (forall i, 0 <= i < k -> eqb (arr i) x = false) /\
     n' = size - 1 /\ p' = k /\ forall j, a' j = shifted arr k size j).
Proof.
  unfold array_delete_return_pos, for_range_break.
  destruct (Z.le_gt_cases 0 size) as [Hs|Hs].
  - apply for_steps_break_delete. lia.
  - replace (Z.to_nat (size - 0)) with O by lia. cbn [for_steps_break].
    left. split; [intros; lia | auto].
Qed.

Lemma for_steps_break_contains (n : nat) (lo : Z) (arr : array A) :
  let r := for_steps_break n lo
             (fun i r => if eqb (arr i) x then Break 1 else Continue r) 0 in
  ((forall i, lo <= i < lo + Z.of_nat n -> eqb (arr i) x = false) /\ r = 0)
  \/ ((exists i, lo <= i < lo + Z.of_nat n /\ eqb (arr i) x = true) /\ r = 1).
Proof.
  revert lo; induction n as [|n IH]; intros lo.
  - cbn [for_steps_break]. left. split; [intros; lia | reflexivity].
  - cbn [for_steps_break]. destruct (eqb (arr lo) x) eqn:E.
    + right. split; [exists lo; split; [lia | assumption] | reflexivity].
    + destruct (IH (lo + 1)) as [(Hno & Hr) | ((i & Hi & Hx) & Hr)].
      * left. split; [|exact Hr]. intros i Hi.
        destruct (Z.eq_dec i lo) as [->|]; [assumption | apply Hno; lia].
      * right. split; [exists i; split; [lia | assumption] | exact Hr].
Qed.

Lemma array_contains_cases (arr : array A) (size : Z) :
  ((forall i, 0 <= i < size -> eqb (arr i) x = false) /\
   array_contains eqb arr size x = 0)
  \/ ((exists i, 0 <= i < size /\ eqb (arr i) x = true) /\
      array_contains eqb arr size x = 1).
Proof.
  unfold array_contains, for_range_break.
  destruct (for_steps_break_contains (Z.to_nat (size - 0)) 0 arr)
    as [(Hno & Hr) | ((i & Hi & Hx) & Hr)].
  - left. split; [|exact Hr]. intros i Hi. apply Hno. lia.
  - right. split; [exists i; split; [lia | assumption] | exact Hr].
Qed.

End ArrayFacts.

Section HeapFacts.

Import C Port Graph.

Lemma port_identifier_copy_id (i : PortIdentifier) : port_identifier_copy i = i.
Proof. destruct i; reflexivity. Qed.

Lemma store_same (h : heap) (a : ptr) (P : Port) : store h a P a = P.
Proof. unfold store. rewrite Z.eqb_refl. reflexivity. Qed.

Lemma store_other (h : heap) (a p : ptr) (P : Port) : p <> a -> store h a P p = h p.
Proof. unfold store. intros H. destruct (Z.eqb_spec p a); congruence. Qed.

(** A loop that keeps writing one and the same port. *)
Lemma for_steps_store (n : nat) (lo : Z) (a : ptr) (F : Z -> Port -> Port)
    (h : heap) (p : ptr) :
  for_steps n lo (fun i h => store h a (F i (h a))) h p =
  if p =? a then for_steps n lo F (h a) else h p.
Proof.
  revert lo h; induction n as [|n IH]; intros lo h; cbn [for_steps].
  - destruct (Z.eqb_spec p a); subst; reflexivity.
  - rewrite IH. rewrite store_same.
    destruct (Z.eqb_spec p a); [reflexivity | apply store_other; assumption].
Qed.

Lemma for_steps_dest_ids (n : nat) (lo : Z) (P : Port) :
  for_steps n lo
    (fun i P =>
       set_dest_ids
         (array_set (dest_ids P) i (port_identifier_copy (dest_ids P (i + 1)))) P)
    P =
  set_dest_ids
    (for_steps n lo (fun jj arr => array_set arr jj (arr (jj + 1))) (dest_ids P)) P.
Proof.
  revert lo P; induction n as [|n IH]; intros lo P; cbn [for_steps].
  - destruct P; reflexivity.
  - rewrite IH, port_identifier_copy_id. reflexivity.
Qed.

Lemma for_steps_src_ids (n : nat) (lo : Z) (P : Port) :
  for_steps n lo
    (fun i P =>
       set_src_ids
         (array_set (src_ids P) i (port_identifier_copy (src_ids P (i + 1)))) P)
    P =
  set_src_ids
    (for_steps n lo (fun jj arr => array_set arr jj (arr (jj + 1))) (src_ids P)) P.
Proof.
  revert lo P; induction n as [|n IH]; intros lo P; cbn [for_steps].
  - destruct P; reflexivity.
  - rewrite IH, port_identifier_copy_id. reflexivity.
Qed.

Lemma port_disconnect_halves (h : heap) (src dest : ptr) :
  port_disconnect h src dest = (0, remove_src (remove_dest h src dest) src dest).
Proof.
  unfold port_disconnect, remove_src, remove_dest.
  destruct (array_delete_return_pos Z.eqb (dests (h src)) (num_dests (h src)) dest (-1))
    as [[d' n'] pos].
  match goal with
  | |- context [array_delete_return_pos ?e ?a ?n ?x ?p] =>
      destruct (array_delete_return_pos e a n x p) as [[s' m'] pos']
  end.
  reflexivity.
Qed.

Lemma remove_dest_spec (h : heap) (src dest : ptr) :
  exists P',
    (forall p, remove_dest h src dest p = if p =? src then P' else h p) /\
    same_but_dests (h src) P' /\
    dests_side_deleted (h src) P' dest.
Proof.
  unfold remove_dest.
  pose proof (array_delete_return_pos_cases Z.eqb dest
                (dests (h src)) (num_dests (h src)) (-1)) as D.
  destruct (array_delete_return_pos Z.eqb (dests (h src)) (num_dests (h src)) dest (-1))
    as [[d' n'] pos].
  destruct D as [(Hno & -> & -> & ->) | (k & Hk & Hx & Hfirst & -> & -> & Hsh)].
  - cbn [Z.leb Z.compare].
    exists (set_num_dests (num_dests (h src)) (set_dests (dests (h src)) (h src))).
    split; [intros p; reflexivity|]. split; [reflexivity|].
    left. cbn. repeat split; auto.
    intros i Hi E. specialize (Hno i Hi). apply Z.eqb_eq in E. congruence.
  - replace (0 <=? k) with true by (symmetry; apply Z.leb_le; lia).
    rewrite store_same. cbn [num_dests set_num_dests].
    unfold for_range.
    eexists. split.
    + intros p.
      pose proof (for_steps_store (Z.to_nat (num_dests (h src) - 1 - k)) k src
                    (fun i P =>
                       set_dest_ids
                         (array_set (dest_ids P) i
                            (port_identifier_copy (dest_ids P (i + 1)))) P)) as L.
      cbn beta in L. rewrite L. rewrite store_same, for_steps_dest_ids.
      destruct (Z.eqb_spec p src); [reflexivity | apply store_other; assumption].
    + split; [reflexivity|].
      right. exists k. cbn.
      split; [lia|]. split; [apply Z.eqb_eq; assumption|]. split.
      { intros i Hi E. specialize (Hfirst i Hi). apply Z.eqb_eq in E. congruence. }
      split; [reflexivity|]. split; [assumption|].
      intros j. rewrite for_steps_shift. unfold shifted. zcases.
Qed.

Lemma remove_src_spec (h : heap) (src dest : ptr) :
  exists Q',
    (forall p, remove_src h src dest p = if p =? dest then Q' else h p) /\
    same_but_srcs (h dest) Q' /\
    srcs_side_deleted (h dest) Q' src.
Proof.
  unfold remove_src.
  pose proof (array_delete_return_pos_cases Z.eqb src
                (srcs (h dest)) (num_srcs (h dest)) (-1)) as D.
  destruct (array_delete_return_pos Z.eqb (srcs (h dest)) (num_srcs (h dest)) src (-1))
    as [[d' n'] pos].
  destruct D as [(Hno & -> & -> & ->) | (k & Hk & Hx & Hfirst & -> & -> & Hsh)].
  - cbn [Z.leb Z.compare].
    exists (set_num_srcs (num_srcs (h dest)) (set_srcs (srcs (h dest)) (h dest))).
    split; [intros p; reflexivity|]. split; [reflexivity|].
    left. cbn. repeat split; auto.
    intros i Hi E. specialize (Hno i Hi). apply Z.eqb_eq in E. congruence.
  - replace (0 <=? k) with true by (symmetry; apply Z.leb_le; lia).
    rewrite store_same. cbn [num_srcs set_num_srcs].
    unfold for_range.
    eexists. split.
    + intros p.
      pose proof (for_steps_store (Z.to_nat (num_srcs (h dest) - 1 - k)) k dest
                    (fun i P =>
                       set_src_ids
                         (array_set (src_ids P) i
                            (port_identifier_copy (src_ids P (i + 1)))) P)) as L.
      cbn beta in L. rewrite L. rewrite store_same, for_steps_src_ids.
      destruct (Z.eqb_spec p dest); [reflexivity | apply store_other; assumption].
    + split; [reflexivity|].
      right. exists k. cbn.
      split; [lia|]. split; [apply Z.eqb_eq; assumption|]. split.
      { intros i Hi E. specialize (Hfirst i Hi). apply Z.eqb_eq in E. congruence. }
      split; [reflexivity|]. split; [assumption|].
      intros j. rewrite for_steps_shift. unfold shifted. zcases.
Qed.

Lemma same_but_dests_edges (P P' : Port) :
  same_but_dests P P' -> same_but_edges P P' /\
  num_srcs P' = num_srcs P /\ srcs P' = srcs P /\ src_ids P' = src_ids P.
Proof.
  unfold same_but_dests, same_but_edges. intros H.
  destruct P, P'; cbn in *. injection H as; subst. auto.
Qed.

Lemma same_but_srcs_edges (P P' : Port) :
  same_but_srcs P P' -> same_but_edges P P' /\
  num_dests P' = num_dests P /\ dests P' = dests P /\ dest_ids P' = dest_ids P.
Proof.
  unfold same_but_srcs, same_but_edges. intros H.
  destruct P, P'; cbn in *. injection H as; subst. auto.
Qed.

Lemma same_but_edges_refl (P : Port) : same_but_edges P P.
Proof. unfold same_but_edges. destruct P; reflexivity. Qed.

Lemma same_but_edges_trans (P Q R : Port) :
  same_but_edges P Q -> same_but_edges Q R -> same_but_edges P R.
Proof.
  unfold same_but_edges. intros H1 H2.
  destruct P, Q, R; cbn in *. injection H1 as; injection H2 as; subst. reflexivity.
Qed.

Lemma same_but_edges_fields (P P' : Port) :
  same_but_edges P P' ->
  identifier P' = identifier P /\ internal_type P' = internal_type P /\
  buf P' = buf P /\ midi_events P' = midi_events P /\
  multipliers P' = multipliers P /\ dest_locked P' = dest_locked P /\
  dest_enabled P' = dest_enabled P /\ base_value P' = base_value P /\
  lv2_port P' = lv2_port P.
Proof.
  unfold same_but_edges. intros H.
  destruct P, P'; cbn in *. injection H as; subst. repeat split.
Qed.

(** What [port_disconnect] does to the heap, field by field. *)
Lemma port_disconnect_fields (h : heap) (src dest : ptr) :
  let h' := snd (port_disconnect h src dest) in
  (forall p, same_but_edges (h p) (h' p)) /\
  (forall p, p <> src ->
     num_dests (h' p) = num_dests (h p) /\ dests (h' p) = dests (h p) /\
     dest_ids (h' p) = dest_ids (h p)) /\
  (forall p, p <> dest ->
     num_srcs (h' p) = num_srcs (h p) /\ srcs (h' p) = srcs (h p) /\
     src_ids (h' p) = src_ids (h p)) /\
  dests_side_deleted (h src) (h' src) dest /\
  srcs_side_deleted (h dest) (h' dest) src.
Proof.
  rewrite port_disconnect_halves. cbn [snd].
  destruct (remove_dest_spec h src dest) as (P' & HP & HPs & HPd).
  destruct (remove_src_spec (remove_dest h src dest) src dest) as (Q' & HQ & HQs & HQd).
  apply same_but_dests_edges in HPs. destruct HPs as (HPe & HPn & HPa & HPi).
  apply same_but_srcs_edges in HQs. destruct HQs as (HQe & HQn & HQa & HQi).
  rewrite HP in HQe, HQn, HQa, HQi, HQd.
  assert (Hsrc : forall p, p <> dest ->
            remove_src (remove_dest h src dest) src dest p =
            if p =? src then P' else h p).
  { intros p Hp. rewrite HQ. destruct (Z.eqb_spec p dest); [contradiction|]. apply HP. }
  assert (Hdest : remove_src (remove_dest h src dest) src dest dest = Q').
  { rewrite HQ, Z.eqb_refl. reflexivity. }
  repeat split.
  - intros p. destruct (Z.eq_dec p dest) as [->|Hd].
    + rewrite Hdest. destruct (Z.eqb_spec dest src) as [->|Hs].
      * eapply same_but_edges_trans; eassumption.
      * assumption.
    + rewrite (Hsrc p Hd). destruct (Z.eqb_spec p src) as [->|Hs].
      * assumption.
      * apply same_but_edges_refl.
  - destruct (Z.eq_dec p dest) as [->|Hd].
    + rewrite Hdest, HQn. destruct (Z.eqb_spec dest src); [contradiction | reflexivity].
    + rewrite (Hsrc p Hd). destruct (Z.eqb_spec p src); [contradiction | reflexivity].
  - destruct (Z.eq_dec p dest) as [->|Hd].
    + rewrite Hdest, HQa. destruct (Z.eqb_spec dest src); [contradiction | reflexivity].
    + rewrite (Hsrc p Hd). destruct (Z.eqb_spec p src); [contradiction | reflexivity].
  - destruct (Z.eq_dec p dest) as [->|Hd].
    + rewrite Hdest, HQi. destruct (Z.eqb_spec dest src); [contradiction | reflexivity].
    + rewrite (Hsrc p Hd). destruct (Z.eqb_spec p src); [contradiction | reflexivity].
  - rewrite (Hsrc p H). destruct (Z.eqb_spec p src) as [->|Hs]; [assumption | reflexivity].
  - rewrite (Hsrc p H). destruct (Z.eqb_spec p src) as [->|Hs]; [assumption | reflexivity].
  - rewrite (Hsrc p H). destruct (Z.eqb_spec p src) as [->|Hs]; [assumption | reflexivity].
  - destruct (Z.eq_dec src dest) as [->|Hd].
    + rewrite Hdest. rewrite Z.eqb_refl in *.
      unfold dests_side_deleted in *. rewrite HQn, HQa, HQi. exact HPd.
    + rewrite (Hsrc src Hd), Z.eqb_refl. exact HPd.
  - rewrite Hdest. destruct (Z.eqb_spec dest src) as [->|Hs].
    + unfold srcs_side_deleted in *. rewrite HPn, HPa, HPi in HQd. exact HQd.
    + exact HQd.
Qed.

Lemma port_connect_unfold (h : heap) (src dest : ptr) (locked : Z) :
  port_connect h src dest locked =
  let h1 := snd (port_disconnect h src dest) in
  if kinds_compatible h1 src dest then (0, port_connect_append src dest locked h1)
  else (-1, h1).
Proof.
  unfold port_connect. cbv zeta.
  generalize (snd (port_disconnect h src dest)). intros h1.
  unfold kinds_compatible.
  destruct (PortType_eqb (type (identifier (h1 src))) (type (identifier (h1 dest))));
    destruct (PortType_eqb (type (identifier (h1 src))) TYPE_CV);
    destruct (PortType_eqb (type (identifier (h1 dest))) TYPE_CONTROL);
    cbn [negb andb orb]; reflexivity.
Qed.

Lemma kinds_compatible_disconnect (h : heap) (a b src dest : ptr) :
  kinds_compatible (snd (port_disconnect h a b)) src dest = kinds_compatible h src dest.
Proof.
  destruct (port_disconnect_fields h a b) as (He & _).
  unfold kinds_compatible.
  destruct (same_but_edges_fields _ _ (He src)) as (-> & _).
  destruct (same_but_edges_fields _ _ (He dest)) as (-> & _).
  reflexivity.
Qed.

(** Running one assignment: the heap after it is known at the assigned
    address and unchanged elsewhere. *)
Lemma exec_assign (a : ptr) (F : heap -> Port) (rest : stmt) (hc : heap)
    (Phi : heap -> Prop) :
  (forall hn, hn a = F hc -> (forall x, x <> a -> hn x = hc x) -> Phi (rest hn)) ->
  Phi ((assign a F ;; rest) hc).
Proof.
  intros H. unfold seq, assign. apply H.
  - apply store_same.
  - intros x Hx. apply store_other. assumption.
Qed.

(** Symbolic execution of one assignment.  The hypotheses [hc x = V] on
    the heap before the assignment are turned into hypotheses on the heap
    after it, for the assigned address and for the addresses known to
    differ from it. *)
Ltac port_fields :=
  cbn [identifier internal_type buf midi_events srcs dests src_ids dest_ids
       multipliers dest_locked dest_enabled num_srcs num_dests base_value lv2_port
       set_buf set_midi_events set_srcs set_dests set_src_ids set_dest_ids
       set_multipliers set_dest_locked set_dest_enabled set_num_srcs set_num_dests
       set_base_value set_lv2_port_control control lv2_control] in *.

Ltac use_registers :=
  repeat match goal with
    | R : ?hh _ = _ |- _ =>
        let t := type of hh in unify t heap; rewrite R
    end.

Ltac exec_assign_step :=
  match goal with
  | |- context [(assign ?a ?F ;; ?rest) ?hc] =>
      pattern ((assign a F ;; rest) hc);
      apply exec_assign;
      let hn := fresh "hn" in
      let Ha := fresh "Ha" in
      let Ho := fresh "Ho" in
      intros hn Ha Ho; cbv beta in Ha;
      repeat match goal with
        | R : hc _ = _ |- _ => rewrite R in Ha
        end;
      rewrite ?port_identifier_copy_id in Ha;
      repeat match goal with
        | R : hc ?x = _, N : ?x <> a |- _ => rewrite <- (Ho x N) in R
        end;
      repeat match goal with
        | R : hc _ = _ |- _ => clear R
        end;
      clear Ho; try clear hc; port_fields
  end.

Lemma port_connect_append_fields (h : heap) (src dest : ptr) (locked : Z) (p : ptr) :
  let h' := port_connect_append src dest locked h in
  identifier (h' p) = identifier (h p) /\
  internal_type (h' p) = internal_type (h p) /\
  buf (h' p) = buf (h p) /\
  midi_events (h' p) = midi_events (h p) /\
  lv2_port (h' p) = lv2_port (h p) /\
  num_dests (h' p) = (if p =? src then num_dests (h p) + 1 else num_dests (h p)) /\
  (forall j, dests (h' p) j =
             if (p =? src) && (j =? num_dests (h src)) then dest else dests (h p) j) /\
  (forall j, dest_ids (h' p) j =
             if (p =? src) && (j =? num_dests (h src)) then identifier (h dest)
             else dest_ids (h p) j) /\
  num_srcs (h' p) = (if p =? dest then num_srcs (h p) + 1 else num_srcs (h p)) /\
  (forall j, srcs (h' p) j =
             if (p =? dest) && (j =? num_srcs (h dest)) then src else srcs (h p) j) /\
  (forall j, src_ids (h' p) j =
             if (p =? dest) && (j =? num_srcs (h dest)) then identifier (h src)
             else src_ids (h p) j) /\
  base_value (h' p) =
    (if (p =? dest)
        && (PortType_eqb (type (identifier (h src))) TYPE_CV
            && PortType_eqb (type (identifier (h dest))) TYPE_CONTROL)
        && PortInternalType_eqb (internal_type (h dest)) INTERNAL_LV2_PORT
     then control (lv2_port (h dest)) else base_value (h p)).
Proof.
  cbv zeta. unfold port_connect_append.
  destruct (Z.eq_dec src dest) as [Hsd|Hsd];
    [subst dest|assert (Hds : dest <> src) by congruence];
    (destruct (Z.eq_dec p src) as [Hps|Hps]; [subst p|]);
    try (destruct (Z.eq_dec p dest) as [Hpd|Hpd]; [subst p|]);
    try congruence.
  all: remember (h src) as Ps eqn:Rs; symmetry in Rs.
  all: try (remember (h dest) as Pd eqn:Rd; symmetry in Rd).
  all: try (remember (h p) as Pp eqn:Rp; symmetry in Rp).
  all: do 9 exec_assign_step.
  all: unfold when, assign; use_registers; port_fields.
  all: match goal with
       | |- context [PortType_eqb ?a TYPE_CV && PortType_eqb ?b TYPE_CONTROL] =>
           destruct (PortType_eqb a TYPE_CV && PortType_eqb b TYPE_CONTROL)
       end.
  all: match goal with
       | |- context [PortInternalType_eqb ?a INTERNAL_LV2_PORT] =>
           destruct (PortInternalType_eqb a INTERNAL_LV2_PORT)
       | _ => idtac
       end.
  all: rewrite ?store_same; rewrite ?store_other by assumption;
       use_registers; port_fields; rewrite ?andb_false_r; cbn [andb].
  all: repeat split; try reflexivity; try (intros j; unfold array_set); zcases.
Qed.

End HeapFacts.

Section SideFacts.

Import C Port Graph.

Variables (arr : array ptr) (ids : array PortIdentifier) (n : Z).
Variables (arr' : array ptr) (ids' : array PortIdentifier) (n' : Z) (x : ptr).
Hypothesis Hdel : side_deleted arr ids n arr' ids' n' x.

Lemma side_deleted_nonneg : 0 <= n -> 0 <= n'.
Proof.
  destruct Hdel as [(_ & -> & _) | (k & Hk & _ & _ & -> & _)]; lia.
Qed.

Lemma side_deleted_in_sub (b : ptr) : array_in arr' n' b -> array_in arr n b.
Proof.
  unfold array_in.
  destruct Hdel as [(_ & -> & Ha & _) | (k & Hk & _ & _ & -> & Ha & _)];
    intros (i & Hi & E); rewrite Ha in E.
  - exists i. auto.
  - unfold shifted in E.
    destruct ((k <=? i) && (i <? n - 1)) eqn:C.
    + exists (i + 1). split; [lia | exact E].
    + exists i. split; [lia | exact E].
Qed.

Lemma side_deleted_in_other (b : ptr) :
  b <> x -> array_in arr n b -> array_in arr' n' b.
Proof.
  unfold array_in.
  destruct Hdel as [(_ & -> & Ha & _) | (k & Hk & Hx & _ & -> & Ha & _)];
    intros Hb (i & Hi & E).
  - exists i. rewrite Ha. auto.
  - assert (i <> k) by congruence.
    destruct (Z.lt_ge_cases i k).
    + exists i. split; [lia|]. rewrite Ha. unfold shifted.
      destruct (Z.leb_spec k i); [lia | exact E].
    + exists (i - 1). split; [lia|]. rewrite Ha. unfold shifted.
      destruct (Z.leb_spec k (i - 1)); [|lia].
      destruct (Z.ltb_spec (i - 1) (n - 1)); [|lia].
      cbn [andb]. replace (i - 1 + 1) with i by lia. exact E.
Qed.

Lemma side_deleted_nodup : array_nodup arr n -> array_nodup arr' n'.
Proof.
  unfold array_nodup.
  destruct Hdel as [(_ & -> & Ha & _) | (k & Hk & _ & _ & -> & Ha & _)];
    intros Hnd i j Hi Hj E; rewrite !Ha in E.
  - auto.
  - unfold shifted in E.
    destruct (Z.leb_spec k i), (Z.ltb_spec i (n - 1)),
             (Z.leb_spec k j), (Z.ltb_spec j (n - 1)); cbn [andb] in E;
      try lia; apply Hnd in E; lia.
Qed.

Lemma side_deleted_gone : array_nodup arr n -> ~ array_in arr' n' x.
Proof.
  unfold array_nodup, array_in.
  destruct Hdel as [(Hno & -> & Ha & _) | (k & Hk & Hx & _ & -> & Ha & _)];
    intros Hnd (i & Hi & E); rewrite Ha in E.
  - exact (Hno i Hi E).
  - unfold shifted in E. rewrite <- Hx in E.
    destruct (Z.leb_spec k i), (Z.ltb_spec i (n - 1)); cbn [andb] in E;
      try lia; apply Hnd in E; lia.
Qed.

Lemma side_deleted_absent :
  ~ array_in arr n x ->
  n' = n /\ (forall j, arr' j = arr j) /\ (forall j, ids' j = ids j).
Proof.
  unfold array_in.
  destruct Hdel as [(_ & -> & Ha & Hi) | (k & Hk & Hx & _)]; intros Hno.
  - auto.
  - exfalso. apply Hno. exists k. auto.
Qed.

Lemma side_deleted_aligned (ident : ptr -> PortIdentifier) :
  (forall i, 0 <= i < n -> ids i = ident (arr i)) ->
  forall i, 0 <= i < n' -> ids' i = ident (arr' i).
Proof.
  destruct Hdel as [(_ & -> & Ha & Hi) | (k & Hk & _ & _ & -> & Ha & Hi)];
    intros Hal i Hr; rewrite Ha, Hi.
  - auto.
  - unfold shifted.
    destruct ((k <=? i) && (i <? n - 1)); apply Hal; lia.
Qed.

End SideFacts.

Section DisconnectFacts.

Import C Port Graph.

Variables (h : heap) (src dest : ptr).

Let h' := snd (port_disconnect h src dest).

Lemma disconnect_identifier (p : ptr) : identifier (h' p) = identifier (h p).
Proof.
  destruct (port_disconnect_fields h src dest) as (He & _).
  destruct (same_but_edges_fields _ _ (He p)) as (E & _). exact E.
Qed.

Lemma disconnect_in_dests_sub (a b : ptr) : in_dests h' a b -> in_dests h a b.
Proof.
  destruct (port_disconnect_fields h src dest) as (_ & Hd & _ & Dd & _).
  unfold in_dests. destruct (Z.eq_dec a src) as [->|Ha].
  - apply (side_deleted_in_sub _ _ _ _ _ _ _ Dd).
  - destruct (Hd a Ha) as (E1 & E2 & _). fold h' in E1, E2. rewrite E1, E2. auto.
Qed.

Lemma disconnect_in_dests_other (a b : ptr) :
  a <> src \/ b <> dest -> in_dests h a b -> in_dests h' a b.
Proof.
  destruct (port_disconnect_fields h src dest) as (_ & Hd & _ & Dd & _).
  unfold in_dests. destruct (Z.eq_dec a src) as [->|Ha]; intros Hne.
  - apply (side_deleted_in_other _ _ _ _ _ _ _ Dd). tauto.
  - destruct (Hd a Ha) as (E1 & E2 & _). fold h' in E1, E2. rewrite E1, E2. auto.
Qed.

Lemma disconnect_in_dests_gone :
  array_nodup (dests (h src)) (num_dests (h src)) -> ~ in_dests h' src dest.
Proof.
  destruct (port_disconnect_fields h src dest) as (_ & _ & _ & Dd & _).
  apply (side_deleted_gone _ _ _ _ _ _ _ Dd).
Qed.

Lemma disconnect_in_srcs_sub (b a : ptr) : in_srcs h' b a -> in_srcs h b a.
Proof.
  destruct (port_disconnect_fields h src dest) as (_ & _ & Hs & _ & Ds).
  unfold in_srcs. destruct (Z.eq_dec b dest) as [->|Hb].
  - apply (side_deleted_in_sub _ _ _ _ _ _ _ Ds).
  - destruct (Hs b Hb) as (E1 & E2 & _). fold h' in E1, E2. rewrite E1, E2. auto.
Qed.

Lemma disconnect_in_srcs_other (b a : ptr) :
  b <> dest \/ a <> src -> in_srcs h b a -> in_srcs h' b a.
Proof.
  destruct (port_disconnect_fields h src dest) as (_ & _ & Hs & _ & Ds).
  unfold in_srcs. destruct (Z.eq_dec b dest) as [->|Hb]; intros Hne.
  - apply (side_deleted_in_other _ _ _ _ _ _ _ Ds). tauto.
  - destruct (Hs b Hb) as (E1 & E2 & _). fold h' in E1, E2. rewrite E1, E2. auto.
Qed.

Lemma disconnect_in_srcs_gone :
  array_nodup (srcs (h dest)) (num_srcs (h dest)) -> ~ in_srcs h' dest src.
Proof.
  destruct (port_disconnect_fields h src dest) as (_ & _ & _ & _ & Ds).
  apply (side_deleted_gone _ _ _ _ _ _ _ Ds).
Qed.

Lemma disconnect_counters : counters_nonneg h -> counters_nonneg h'.
Proof.
  destruct (port_disconnect_fields h src dest) as (_ & Hd & Hs & Dd & Ds).
  intros Hc p. destruct (Hc p) as (C1 & C2). split.
  - destruct (Z.eq_dec p src) as [->|Hp].
    + apply (side_deleted_nonneg _ _ _ _ _ _ _ Dd). apply Hc.
    + destruct (Hd p Hp) as (E & _). fold h' in E. rewrite E. exact C1.
  - destruct (Z.eq_dec p dest) as [->|Hp].
    + apply (side_deleted_nonneg _ _ _ _ _ _ _ Ds). apply Hc.
    + destruct (Hs p Hp) as (E & _). fold h' in E. rewrite E. exact C2.
Qed.

Lemma disconnect_nodup : no_duplicate_edges h -> no_duplicate_edges h'.
Proof.
  destruct (port_disconnect_fields h src dest) as (_ & Hd & Hs & Dd & Ds).
  intros Hn p. destruct (Hn p) as (N1 & N2). split.
  - destruct (Z.eq_dec p src) as [->|Hp].
    + apply (side_deleted_nodup _ _ _ _ _ _ _ Dd). apply Hn.
    + destruct (Hd p Hp) as (E1 & E2 & _). fold h' in E1, E2. rewrite E1, E2. exact N1.
  - destruct (Z.eq_dec p dest) as [->|Hp].
    + apply (side_deleted_nodup _ _ _ _ _ _ _ Ds). apply Hn.
    + destruct (Hs p Hp) as (E1 & E2 & _). fold h' in E1, E2. rewrite E1, E2. exact N2.
Qed.

Lemma disconnect_consistent :
  no_duplicate_edges h -> lists_consistent h -> lists_consistent h'.
Proof.
  intros Hn Hc a b. split; intros H.
  - destruct (Z.eq_dec a src) as [->|Ha]; [destruct (Z.eq_dec b dest) as [->|Hb]|].
    + exfalso. revert H. apply disconnect_in_dests_gone. apply Hn.
    + apply disconnect_in_srcs_other; [tauto|]. apply Hc.
      apply disconnect_in_dests_sub. exact H.
    + apply disconnect_in_srcs_other; [tauto|]. apply Hc.
      apply disconnect_in_dests_sub. exact H.
  - destruct (Z.eq_dec a src) as [->|Ha]; [destruct (Z.eq_dec b dest) as [->|Hb]|].
    + exfalso. revert H. apply disconnect_in_srcs_gone. apply Hn.
    + apply disconnect_in_dests_other; [tauto|]. apply Hc.
      apply disconnect_in_srcs_sub. exact H.
    + apply disconnect_in_dests_other; [tauto|]. apply Hc.
      apply disconnect_in_srcs_sub. exact H.
Qed.

Lemma disconnect_wf : graph_wf h -> graph_wf h'.
Proof.
  intros (Hc & Hn & Hl). split; [|split].
  - apply disconnect_counters; assumption.
  - apply disconnect_nodup; assumption.
  - apply disconnect_consistent; assumption.
Qed.

Lemma disconnect_aligned : ids_aligned h -> ids_aligned h'.
Proof.
  destruct (port_disconnect_fields h src dest) as (_ & Hd & Hs & Dd & Ds).
  intros Hal p i. split; intros Hi.
  - rewrite disconnect_identifier. revert i Hi.
    destruct (Z.eq_dec p src) as [->|Hp].
    + apply (side_deleted_aligned _ _ _ _ _ _ _ Dd (fun q => identifier (h q))).
      intros i Hi. apply Hal. exact Hi.
    + destruct (Hd p Hp) as (E1 & E2 & E3). fold h' in E1, E2, E3.
      rewrite E1, E2, E3. intros i Hi. apply Hal. exact Hi.
  - rewrite disconnect_identifier. revert i Hi.
    destruct (Z.eq_dec p dest) as [->|Hp].
    + apply (side_deleted_aligned _ _ _ _ _ _ _ Ds (fun q => identifier (h q))).
      intros i Hi. apply Hal. exact Hi.
    + destruct (Hs p Hp) as (E1 & E2 & E3). fold h' in E1, E2, E3.
      rewrite E1, E2, E3. intros i Hi. apply Hal. exact Hi.
Qed.

Lemma disconnect_absent_same :
  ~ in_dests h src dest -> ~ in_srcs h dest src -> same_edge_lists h h'.
Proof.
  destruct (port_disconnect_fields h src dest) as (_ & Hd & Hs & Dd & Ds).
  intros Nd Ns p.
  destruct (side_deleted_absent _ _ _ _ _ _ _ Dd Nd) as (D1 & D2 & D3).
  destruct (side_deleted_absent _ _ _ _ _ _ _ Ds Ns) as (S1 & S2 & S3).
  fold h' in D1, D2, D3, S1, S2, S3.
  assert (Ed : num_dests (h' p) = num_dests (h p) /\
               (forall j, dests (h' p) j = dests (h p) j) /\
               (forall j, dest_ids (h' p) j = dest_ids (h p) j)).
  { destruct (Z.eq_dec p src) as [->|Hp]; [auto|].
    destruct (Hd p Hp) as (E1 & E2 & E3). fold h' in E1, E2, E3.
    rewrite E1, E2, E3. auto. }
  assert (Es : num_srcs (h' p) = num_srcs (h p) /\
               (forall j, srcs (h' p) j = srcs (h p) j) /\
               (forall j, src_ids (h' p) j = src_ids (h p) j)).
  { destruct (Z.eq_dec p dest) as [->|Hp]; [auto|].
    destruct (Hs p Hp) as (E1 & E2 & E3). fold h' in E1, E2, E3.
    rewrite E1, E2, E3. auto. }
  destruct Ed as (Ed1 & Ed2 & Ed3). destruct Es as (Es1 & Es2 & Es3).
  repeat split; auto.
Qed.

End DisconnectFacts.

Section AppendFacts.

Import C Port Graph.

Variables (h : heap) (src dest : ptr) (locked : Z).

Let h' := port_connect_append src dest locked h.

Lemma append_identifier (p : ptr) : identifier (h' p) = identifier (h p).
Proof. apply (port_connect_append_fields h src dest locked p). Qed.

Lemma append_in_dests (a b : ptr) :
  0 <= num_dests (h src) ->
  (in_dests h' a b <-> in_dests h a b \/ (a = src /\ b = dest)).
Proof.
  intros Hn.
  destruct (port_connect_append_fields h src dest locked a)
    as (_ & _ & _ & _ & _ & En & Ed & _).
  fold h' in En, Ed. unfold in_dests, array_in. rewrite En.
  destruct (Z.eqb_spec a src) as [->|Ha]; split.
  - intros (i & Hi & E). rewrite Ed in E. cbn [andb] in E.
    destruct (Z.eqb_spec i (num_dests (h src))).
    + right. auto.
    + left. exists i. split; [lia | exact E].
  - intros [(i & Hi & E) | (_ & ->)].
    + exists i. split; [lia|]. rewrite Ed. cbn [andb].
      destruct (Z.eqb_spec i (num_dests (h src))); [lia | exact E].
    + exists (num_dests (h src)). split; [lia|]. rewrite Ed. cbn [andb].
      rewrite Z.eqb_refl. reflexivity.
  - intros (i & Hi & E). rewrite Ed in E. left. exists i. auto.
  - intros [(i & Hi & E) | (-> & _)]; [|contradiction].
    exists i. rewrite Ed. auto.
Qed.

Lemma append_in_srcs (b a : ptr) :
  0 <= num_srcs (h dest) ->
  (in_srcs h' b a <-> in_srcs h b a \/ (b = dest /\ a = src)).
Proof.
  intros Hn.
  destruct (port_connect_append_fields h src dest locked b)
    as (_ & _ & _ & _ & _ & _ & _ & _ & En & Ed & _).
  fold h' in En, Ed. unfold in_srcs, array_in. rewrite En.
  destruct (Z.eqb_spec b dest) as [->|Hb]; split.
  - intros (i & Hi & E). rewrite Ed in E. cbn [andb] in E.
    destruct (Z.eqb_spec i (num_srcs (h dest))).
    + right. auto.
    + left. exists i. split; [lia | exact E].
  - intros [(i & Hi & E) | (_ & ->)].
    + exists i. split; [lia|]. rewrite Ed. cbn [andb].
      destruct (Z.eqb_spec i (num_srcs (h dest))); [lia | exact E].
    + exists (num_srcs (h dest)). split; [lia|]. rewrite Ed. cbn [andb].
      rewrite Z.eqb_refl. reflexivity.
  - intros (i & Hi & E). rewrite Ed in E. left. exists i. auto.
  - intros [(i & Hi & E) | (-> & _)]; [|contradiction].
    exists i. rewrite Ed. auto.
Qed.

Lemma append_counters : counters_nonneg h -> counters_nonneg h'.
Proof.
  intros Hc p. destruct (Hc p) as (C1 & C2).
  destruct (port_connect_append_fields h src dest locked p)
    as (_ & _ & _ & _ & _ & En & _ & _ & Em & _).
  fold h' in En, Em. rewrite En, Em.
  destruct (p =? src), (p =? dest); lia.
Qed.

Lemma append_nodup :
  counters_nonneg h -> ~ in_dests h src dest -> ~ in_srcs h dest src ->
  no_duplicate_edges h -> no_duplicate_edges h'.
Proof.
  intros Hc Nd Ns Hn p. destruct (Hn p) as (N1 & N2).
  destruct (port_connect_append_fields h src dest locked p)
    as (_ & _ & _ & _ & _ & En & Ed & _ & Em & Es & _).
  fold h' in En, Ed, Em, Es. unfold array_nodup. rewrite En, Em. split.
  - intros i j Hi Hj. rewrite !Ed.
    destruct (Z.eqb_spec p src) as [->|Hp]; cbn [andb]; [|apply N1; assumption].
    destruct (Z.eqb_spec i (num_dests (h src))), (Z.eqb_spec j (num_dests (h src)));
      intros E; try lia.
    + exfalso. apply Nd. exists j. split; [lia | congruence].
    + exfalso. apply Nd. exists i. split; [lia | congruence].
    + apply N1; [lia | lia | exact E].
  - intros i j Hi Hj. rewrite !Es.
    destruct (Z.eqb_spec p dest) as [->|Hp]; cbn [andb]; [|apply N2; assumption].
    destruct (Z.eqb_spec i (num_srcs (h dest))), (Z.eqb_spec j (num_srcs (h dest)));
      intros E; try lia.
    + exfalso. apply Ns. exists j. split; [lia | congruence].
    + exfalso. apply Ns. exists i. split; [lia | congruence].
    + apply N2; [lia | lia | exact E].
Qed.

Lemma append_consistent :
  counters_nonneg h -> lists_consistent h -> lists_consistent h'.
Proof.
  intros Hc Hl a b.
  rewrite append_in_dests by apply Hc. rewrite append_in_srcs by apply Hc.
  rewrite (Hl a b). tauto.
Qed.

Lemma append_aligned : ids_aligned h -> ids_aligned h'.
Proof.
  intros Hal p i.
  destruct (port_connect_append_fields h src dest locked p)
    as (_ & _ & _ & _ & _ & En & Ed & Ei & Em & Es & Ej & _).
  fold h' in En, Ed, Ei, Em, Es, Ej.
  rewrite En, Em, Ed, Ei, Es, Ej, !append_identifier. split; intros Hi.
  - destruct (Z.eqb_spec p src) as [->|Hp]; cbn [andb]; [|apply Hal; assumption].
    destruct (Z.eqb_spec i (num_dests (h src))); [reflexivity | apply Hal; lia].
  - destruct (Z.eqb_spec p dest) as [->|Hp]; cbn [andb]; [|apply Hal; assumption].
    destruct (Z.eqb_spec i (num_srcs (h dest))); [reflexivity | apply Hal; lia].
Qed.

End AppendFacts.

Section ConnectFacts.

Import C Port Graph.

Lemma ports_connected_in_dests (h : heap) (src dest : ptr) :
  (in_dests h src dest /\ ports_connected h src dest = 1) \/
  (~ in_dests h src dest /\ ports_connected h src dest = 0).
Proof.
  unfold ports_connected, in_dests, array_in.
  destruct (array_contains_cases Z.eqb dest (dests (h src)) (num_dests (h src)))
    as [(Hno & ->) | ((i & Hi & E) & ->)]; cbn.
  - right. split; [|reflexivity]. intros (i & Hi & E).
    specialize (Hno i Hi). apply Z.eqb_neq in Hno. contradiction.
  - left. split; [|reflexivity]. exists i. split; [exact Hi | apply Z.eqb_eq; exact E].
Qed.

Lemma port_connect_status (h : heap) (src dest : ptr) (locked : Z) :
  fst (port_connect h src dest locked) =
  if kinds_compatible h src dest then 0 else -1.
Proof.
  rewrite port_connect_unfold. cbv zeta. rewrite kinds_compatible_disconnect.
  destruct (kinds_compatible h src dest); reflexivity.
Qed.

Lemma port_connect_heap (h : heap) (src dest : ptr) (locked : Z) :
  snd (port_connect h src dest locked) =
  if kinds_compatible h src dest
  then port_connect_append src dest locked (snd (port_disconnect h src dest))
  else snd (port_disconnect h src dest).
Proof.
  rewrite port_connect_unfold. cbv zeta. rewrite kinds_compatible_disconnect.
  destruct (kinds_compatible h src dest); reflexivity.
Qed.

Lemma connect_wf (h : heap) (src dest : ptr) (locked : Z) :
  graph_wf h -> graph_wf (snd (port_connect h src dest locked)).
Proof.
  intros Hwf. rewrite port_connect_heap.
  pose proof (disconnect_wf h src dest Hwf) as (Hc & Hn & Hl).
  destruct (kinds_compatible h src dest); [|split; [|split]; assumption].
  destruct Hwf as (_ & Hn0 & _).
  split; [|split].
  - apply append_counters. exact Hc.
  - apply append_nodup; try assumption.
    + apply disconnect_in_dests_gone. apply Hn0.
    + apply disconnect_in_srcs_gone. apply Hn0.
  - apply append_consistent; assumption.
Qed.

Lemma connect_aligned (h : heap) (src dest : ptr) (locked : Z) :
  ids_aligned h -> ids_aligned (snd (port_connect h src dest locked)).
Proof.
  intros Hal. rewrite port_connect_heap.
  pose proof (disconnect_aligned h src dest Hal) as Hal1.
  destruct (kinds_compatible h src dest); [|exact Hal1].
  apply append_aligned. exact Hal1.
Qed.

Lemma run_ops_wf (ops : list op) (h : heap) : graph_wf h -> graph_wf (run_ops ops h).
Proof.
  revert h; induction ops as [|o ops IH]; intros h Hwf; [exact Hwf|].
  cbn [run_ops fold_left]. apply IH. destruct o; cbn [run_op].
  - apply connect_wf. exact Hwf.
  - apply disconnect_wf. exact Hwf.
Qed.

Lemma blank_heap_wf (P : ptr -> Port) :
  (forall p, num_dests (P p) = 0 /\ num_srcs (P p) = 0) -> graph_wf P.
Proof.
  intros H0. split; [|split].
  - intros p. destruct (H0 p). lia.
  - intros p. destruct (H0 p) as (E1 & E2). unfold array_nodup. rewrite E1, E2.
    split; intros; lia.
  - intros a b. unfold in_dests, in_srcs, array_in.
    destruct (H0 a) as (E1 & _). destruct (H0 b) as (_ & E2). rewrite E1, E2.
    split; intros (i & Hi & _); lia.
Qed.

(** Every edge present before a successful connect is present after it,
    and so is the new one. *)
Lemma connect_edges_grow (h : heap) (src dest : ptr) (locked : Z) (a b : ptr) :
  0 <= num_dests (h src) ->
  kinds_compatible h src dest = true ->
  in_dests h a b \/ (a = src /\ b = dest) ->
  in_dests (snd (port_connect h src dest locked)) a b.
Proof.
  intros Hn Hk H. rewrite port_connect_heap, Hk.
  apply append_in_dests.
  - destruct (port_disconnect_fields h src dest) as (_ & _ & _ & Dd & _).
    apply (side_deleted_nonneg _ _ _ _ _ _ _ Dd). exact Hn.
  - destruct (Z.eq_dec a src) as [->|Ha]; [destruct (Z.eq_dec b dest) as [->|Hb]|].
    + right. auto.
    + left. destruct H as [H|(_ & H)]; [|contradiction].
      apply disconnect_in_dests_other; [tauto | exact H].
    + left. destruct H as [H|(H & _)]; [|contradiction].
      apply disconnect_in_dests_other; [tauto | exact H].
Qed.

Lemma reaches_mono (h h' : heap) :
  (forall a b, in_dests h a b -> in_dests h' a b) ->
  forall a b, reaches h a b -> reaches h' a b.
Proof.
  intros Hsub a b R. induction R as [a b E | a b c E R IH].
  - apply reaches_edge. auto.
  - eapply reaches_step; [apply Hsub; exact E | exact IH].
Qed.

(** The kinds of the ports stay what they are, and with them the test on
    the kinds. *)
Lemma kinds_compatible_connect (h : heap) (src dest : ptr) (locked : Z)
    (a b : ptr) :
  kinds_compatible (snd (port_connect h src dest locked)) a b =
  kinds_compatible h a b.
Proof.
  rewrite port_connect_heap.
  destruct (kinds_compatible h src dest); [|apply kinds_compatible_disconnect].
  rewrite <- (kinds_compatible_disconnect h src dest a b).
  unfold kinds_compatible. rewrite !append_identifier. reflexivity.
Qed.

Lemma run_op_edges_compatible (h : heap) (o : op) :
  graph_wf h -> edges_compatible h -> edges_compatible (run_op h o).
Proof.
  intros (Hc & _ & _) Hk a b. destruct o as [src dest locked | src dest];
    cbn [run_op].
  - rewrite kinds_compatible_connect, port_connect_heap.
    destruct (kinds_compatible h src dest) eqn:E.
    + rewrite append_in_dests by (apply (disconnect_counters h src dest Hc)).
      intros [H | (-> & ->)]; [|exact E].
      apply Hk. apply (disconnect_in_dests_sub h src dest). exact H.
    + intros H. apply Hk. apply (disconnect_in_dests_sub h src dest). exact H.
  - rewrite kinds_compatible_disconnect. intros H.
    apply Hk. apply (disconnect_in_dests_sub h src dest). exact H.
Qed.

Lemma run_ops_edges_compatible (ops : list op) (h : heap) :
  graph_wf h -> edges_compatible h ->
  graph_wf (run_ops ops h) /\ edges_compatible (run_ops ops h).
Proof.
  revert h; induction ops as [|o ops IH]; intros h Hwf Hk; [split; assumption|].
  cbn [run_ops fold_left]. apply IH.
  - destruct o; cbn [run_op]; [apply connect_wf | apply disconnect_wf]; exact Hwf.
  - apply run_op_edges_compatible; assumption.
Qed.

Lemma unconnected_edges_compatible (h : heap) :
  unconnected h -> edges_compatible h.
Proof.
  intros H0 a b (i & Hi & _). destruct (H0 a) as (E & _). lia.
Qed.

Lemma same_edge_lists_edges (h h' : heap) :
  same_edge_lists h h' ->
  (forall a b, in_dests h' a b <-> in_dests h a b) /\
  (forall a b, in_srcs h' a b <-> in_srcs h a b).
Proof.
  intros H. split; intros a b; destruct (H a) as (Nd & Ns & Ed & Es);
    unfold in_dests, in_srcs, array_in; split; intros (i & Hi & E); exists i.
  - rewrite Nd in Hi. split; [exact Hi|]. rewrite <- (proj1 (Ed i Hi)). exact E.
  - rewrite Nd. split; [exact Hi|]. rewrite (proj1 (Ed i Hi)). exact E.
  - rewrite Ns in Hi. split; [exact Hi|]. rewrite <- (proj1 (Es i Hi)). exact E.
  - rewrite Ns. split; [exact Hi|]. rewrite (proj1 (Es i Hi)). exact E.
Qed.

End ConnectFacts.

(** ** The claims on connecting and disconnecting *)

Section ConnectClaims.

Import C Port Graph.

Lemma audio_heap_wf : graph_wf audio_heap.
Proof. apply blank_heap_wf. intros p. split; reflexivity. Qed.

Lemma audio_heap_acyclic : acyclic audio_heap.
Proof.
  intros a R. destruct R as [a b (i & Hi & _) | a b c (i & Hi & _) _];
    cbn in Hi; lia.
Qed.

(** C1, refuted as stated: starting from ports without connections,
    connecting 1 to 2 and then 2 to 1 succeeds twice, and the
    routing graph then has the directed cycle 1 -> 2 -> 1. *)
Lemma port_connect_accepts_cycle :
  let r1 := port_connect audio_heap 1 2 0 in
  let r2 := port_connect (snd r1) 2 1 0 in
  acyclic audio_heap /\ fst r1 = 0 /\ fst r2 = 0 /\
  ports_connected (snd r2) 1 2 = 1 /\ ports_connected (snd r2) 2 1 = 1 /\
  has_cycle (snd r2).
Proof.
  cbv zeta. split; [exact audio_heap_acyclic|].
  split; [vm_compute; reflexivity|]. split; [vm_compute; reflexivity|].
  split; [vm_compute; reflexivity|]. split; [vm_compute; reflexivity|].
  exists 1. apply reaches_step with (b := 2).
  - exists 0. vm_compute. repeat split; discriminate.
  - apply reaches_edge. exists 0. vm_compute. repeat split; discriminate.
Qed.

(** C1, as the code has it: [port_connect] has no acyclicity check.
    Between ports of compatible kinds it always succeeds, adds the edge
    from [src] to [dest] and keeps every other edge; so when [dest] already
    reaches [src], or [src] is [dest], the call succeeds and the routing
    graph has a directed cycle afterwards. *)
Theorem port_connect_closes_cycle (h : heap) (src dest : ptr) (locked : Z) :
  0 <= num_dests (h src) ->
  kinds_compatible h src dest = true ->
  src = dest \/ reaches h dest src ->
  let r := port_connect h src dest locked in
  fst r = 0 /\
  (forall a b, in_dests h a b -> in_dests (snd r) a b) /\
  in_dests (snd r) src dest /\
  has_cycle (snd r).
Proof.
  intros Hn Hk Hback. cbv zeta.
  assert (Hgrow : forall a b, in_dests h a b \/ (a = src /\ b = dest) ->
                    in_dests (snd (port_connect h src dest locked)) a b).
  { intros a b. apply connect_edges_grow; assumption. }
  split; [rewrite port_connect_status, Hk; reflexivity|].
  split; [intros a b E; apply Hgrow; left; exact E|].
  split; [apply Hgrow; right; auto|].
  exists src. destruct Hback as [<-|R].
  - apply reaches_edge. apply Hgrow. right. auto.
  - apply reaches_step with (b := dest); [apply Hgrow; right; auto|].
    apply (reaches_mono h); [|exact R].
    intros a b E. apply Hgrow. left. exact E.
Qed.

Lemma port_connect_closes_cycle_witness :
  let h := snd (port_connect audio_heap 1 2 0) in
  let r := port_connect h 2 1 0 in
  fst r = 0 /\
  (forall a b, in_dests h a b -> in_dests (snd r) a b) /\
  in_dests (snd r) 2 1 /\
  has_cycle (snd r).
Proof.
  apply (port_connect_closes_cycle (snd (port_connect audio_heap 1 2 0)) 2 1 0).
  - vm_compute. discriminate.
  - vm_compute. reflexivity.
  - right. apply reaches_edge. exists 0. vm_compute. repeat split; discriminate.
Defined.

(** C2: on the ports that connect and disconnect calls make of ports
    without connections, [port_connect] succeeds if and only if the kinds
    are equal or [src] is CV and [dest] is a control.  In every other case
    it returns the error status -1 and leaves the source and destination
    lists of every port exactly as they were, so that every edge that
    existed before the call is still present after it. *)
Theorem port_connect_kind_check (h0 : heap) (ops : list op)
    (src dest : ptr) (locked : Z) :
  unconnected h0 ->
  let h := run_ops ops h0 in
  let r := port_connect h src dest locked in
  (fst r = 0 <-> kinds_compatible h src dest = true) /\
  (kinds_compatible h src dest = false ->
     fst r = -1 /\
     same_edge_lists h (snd r) /\
     (forall a b, in_dests (snd r) a b <-> in_dests h a b) /\
     (forall a b, in_srcs (snd r) a b <-> in_srcs h a b)).
Proof.
  intros H0. cbv zeta.
  destruct (run_ops_edges_compatible ops h0 (blank_heap_wf h0 H0)
              (unconnected_edges_compatible h0 H0)) as (Hwf & Hk).
  set (h := run_ops ops h0) in *.
  rewrite port_connect_status, port_connect_heap. split.
  - destruct (kinds_compatible h src dest); split; intros; congruence.
  - intros E. rewrite E. split; [reflexivity|].
    assert (Nd : ~ in_dests h src dest).
    { intros H. apply Hk in H. congruence. }
    assert (Ns : ~ in_srcs h dest src).
    { intros H. apply Nd. apply Hwf. exact H. }
    pose proof (disconnect_absent_same h src dest Nd Ns) as Hsame.
    split; [exact Hsame|].
    apply same_edge_lists_edges. exact Hsame.
Qed.

Lemma port_connect_kind_check_witness :
  let h := run_ops [Connect 1 3 0] mixed_heap in
  let r := port_connect h 1 2 0 in
  fst r = -1 /\ same_edge_lists h (snd r) /\ in_dests (snd r) 1 3.
Proof.
  assert (H0 : unconnected mixed_heap).
  { intros p. unfold mixed_heap. destruct (p =? 2); split; reflexivity. }
  destruct (port_connect_kind_check mixed_heap [Connect 1 3 0] 1 2 0 H0)
    as (_ & H).
  destruct H as (H1 & H2 & H3 & _); [vm_compute; reflexivity|].
  split; [exact H1|]. split; [exact H2|].
  apply H3. exists 0. split; [vm_compute; split; [discriminate | reflexivity]|].
  vm_compute. reflexivity.
Defined.

(** C6: on a well-formed graph, a successful [port_connect (A, B)] makes
    [ports_connected (A, B)] true, with [B] among the destinations of [A]
    and [A] among the sources of [B]; [port_disconnect (A, B)] returns 0
    and makes all three false; and when there is no edge from [A] to [B],
    [port_disconnect (A, B)] returns 0 and changes no edge list, so that a
    second disconnect after a first changes nothing. *)
Theorem connect_disconnect_symmetry (h : heap) (A B : ptr) (locked : Z) :
  graph_wf h ->
  (fst (port_connect h A B locked) = 0 ->
     let h' := snd (port_connect h A B locked) in
     ports_connected h' A B = 1 /\ in_dests h' A B /\ in_srcs h' B A) /\
  (let r := port_disconnect h A B in
   fst r = 0 /\ ports_connected (snd r) A B = 0 /\
   ~ in_dests (snd r) A B /\ ~ in_srcs (snd r) B A /\
   same_edge_lists (snd r) (snd (port_disconnect (snd r) A B))) /\
  (ports_connected h A B = 0 ->
     fst (port_disconnect h A B) = 0 /\
     same_edge_lists h (snd (port_disconnect h A B))).
Proof.
  intros Hwf. pose proof Hwf as (Hc & Hn & Hl).
  assert (Hgone : ~ in_dests (snd (port_disconnect h A B)) A B).
  { apply disconnect_in_dests_gone. apply Hn. }
  assert (Hgone' : ~ in_srcs (snd (port_disconnect h A B)) B A).
  { apply disconnect_in_srcs_gone. apply Hn. }
  split; [|split].
  - rewrite port_connect_status.
    destruct (kinds_compatible h A B) eqn:Hk; [intros _ | discriminate].
    cbv zeta.
    assert (E : in_dests (snd (port_connect h A B locked)) A B).
    { apply connect_edges_grow; [apply Hc | exact Hk | right; auto]. }
    split; [|split].
    + destruct (ports_connected_in_dests (snd (port_connect h A B locked)) A B)
        as [(_ & R) | (N & _)]; [exact R | contradiction].
    + exact E.
    + apply (connect_wf h A B locked Hwf). exact E.
  - cbv zeta. split; [rewrite port_disconnect_halves; reflexivity|].
    split; [|split; [exact Hgone | split; [exact Hgone'|]]].
    + destruct (ports_connected_in_dests (snd (port_disconnect h A B)) A B)
        as [(E & _) | (_ & R)]; [contradiction | exact R].
    + apply disconnect_absent_same; assumption.
  - intros H0.
    split; [rewrite port_disconnect_halves; reflexivity|].
    assert (N : ~ in_dests h A B).
    { destruct (ports_connected_in_dests h A B) as [(_ & R) | (N & _)];
        [congruence | exact N]. }
    apply disconnect_absent_same; [exact N|].
    intros E. apply N. apply Hl. exact E.
Qed.

Lemma connect_disconnect_symmetry_witness :
  ports_connected (snd (port_connect audio_heap 1 2 0)) 1 2 = 1 /\
  ports_connected (snd (port_disconnect (snd (port_connect audio_heap 1 2 0)) 1 2)) 1 2 = 0 /\
  same_edge_lists audio_heap (snd (port_disconnect audio_heap 1 2)).
Proof.
  destruct (connect_disconnect_symmetry audio_heap 1 2 0 audio_heap_wf)
    as (H1 & _ & H3).
  destruct (connect_disconnect_symmetry (snd (port_connect audio_heap 1 2 0)) 1 2 0
              (connect_wf audio_heap 1 2 0 audio_heap_wf))
    as (_ & (_ & H2 & _) & _).
  split; [apply H1; vm_compute; reflexivity|].
  split; [exact H2|].
  apply H3. vm_compute. reflexivity.
Defined.

(** C7, refuted as stated: connecting a CV port to an LV2 control port
    whose base value is 1 and whose current value is 5 leaves the current
    value at 5, which is not the base value it had, and overwrites the base
    value with 5. *)
Lemma port_connect_cv_keeps_current_value :
  let r := port_connect cv_heap 1 2 0 in
  fst r = 0 /\
  base_value (cv_heap 2) = F32.of_Z 1 /\
  control (lv2_port (snd r 2)) = F32.of_Z 5 /\
  control (lv2_port (snd r 2)) <> base_value (cv_heap 2) /\
  base_value (snd r 2) = F32.of_Z 5.
Proof. vm_compute. repeat split; try reflexivity. discriminate. Qed.

(** C7, as the code has it: when [port_connect] succeeds with [src] of
    kind CV and [dest] of kind control, the current value of [dest] is left
    as it is, and the base value of [dest] is set from that current value
    if [dest] is an LV2 port and left as it is otherwise. *)
Theorem port_connect_cv_sets_base_value (h : heap) (src dest : ptr) (locked : Z) :
  type (identifier (h src)) = TYPE_CV ->
  type (identifier (h dest)) = TYPE_CONTROL ->
  let r := port_connect h src dest locked in
  fst r = 0 /\
  lv2_port (snd r dest) = lv2_port (h dest) /\
  base_value (snd r dest) =
    if PortInternalType_eqb (internal_type (h dest)) INTERNAL_LV2_PORT
    then control (lv2_port (h dest))
    else base_value (h dest).
Proof.
  intros Hs Hd. cbv zeta.
  assert (Hk : kinds_compatible h src dest = true).
  { unfold kinds_compatible. rewrite Hs, Hd. reflexivity. }
  rewrite port_connect_status, port_connect_heap, Hk.
  split; [reflexivity|].
  destruct (port_disconnect_fields h src dest) as (He & _).
  destruct (same_but_edges_fields _ _ (He src)) as (Is & _).
  destruct (same_but_edges_fields _ _ (He dest))
    as (Id & It & _ & _ & _ & _ & _ & Eb & El).
  destruct (port_connect_append_fields (snd (port_disconnect h src dest))
              src dest locked dest)
    as (_ & _ & _ & _ & L & _ & _ & _ & _ & _ & _ & Bv).
  rewrite L, Bv, Is, Id, It, Eb, El, Hs, Hd, Z.eqb_refl. split; reflexivity.
Qed.

Lemma port_connect_cv_sets_base_value_witness :
  let r := port_connect cv_heap 1 2 0 in
  fst r = 0 /\
  lv2_port (snd r 2) = lv2_port (cv_heap 2) /\
  base_value (snd r 2) = control (lv2_port (cv_heap 2)).
Proof.
  apply (port_connect_cv_sets_base_value cv_heap 1 2 0); reflexivity.
Defined.

(** C10: every sequence of [port_connect] and [port_disconnect] calls
    keeps the identifier arrays parallel to the pointer arrays: below the
    counters, [dest_ids[i]] is the identifier of the port [dests[i]] and
    [src_ids[i]] is the identifier of the port [srcs[i]]. *)
Theorem ids_stay_aligned (ops : list op) (h : heap) :
  ids_aligned h -> ids_aligned (run_ops ops h).
Proof.
  revert h; induction ops as [|o ops IH]; intros h Hal; [exact Hal|].
  cbn [run_ops fold_left]. apply IH. destruct o; cbn [run_op].
  - apply connect_aligned. exact Hal.
  - apply disconnect_aligned. exact Hal.
Qed.

Lemma ids_stay_aligned_witness :
  ids_aligned
    (run_ops [Connect 1 2 0; Connect 1 3 1; Connect 4 1 0; Disconnect 1 2]
       audio_heap).
Proof.
  apply (ids_stay_aligned
           [Connect 1 2 0; Connect 1 3 1; Connect 4 1 0; Disconnect 1 2] audio_heap).
  intros p i. split; intros Hi; cbn in Hi; lia.
Defined.

End ConnectClaims.

(** ** The claims on port processing *)

Section ProcessingFacts.

Import C Port Graph Processing.

Lemma same_but_buf_refl (P : Port) : same_but_buf P P.
Proof. unfold same_but_buf. destruct P; reflexivity. Qed.

Lemma same_but_buf_trans (P Q R : Port) :
  same_but_buf P Q -> same_but_buf Q R -> same_but_buf P R.
Proof.
  unfold same_but_buf. intros H1 H2.
  destruct P, Q, R; cbn in *. injection H1 as; injection H2 as; subst. reflexivity.
Qed.

Lemma same_but_buf_set (P : Port) (b : array F32.float) : same_but_buf P (set_buf b P).
Proof. reflexivity. Qed.

Lemma for_steps_id {S : Type} (body : Z -> S -> S) :
  (forall i s, body i s = s) -> forall n lo s, for_steps n lo body s = s.
Proof.
  intros Hb n; induction n as [|n IH]; intros lo s; cbn [for_steps];
    [reflexivity | rewrite Hb; apply IH].
Qed.

(** A loop whose step [i] rewrites frame [i] of one port from its old
    value, and nothing else. *)
Lemma for_steps_buf_update (port : ptr) (G : Z -> F32.float -> F32.float)
    (body : Z -> heap -> heap) :
  (forall i h,
     same_but_buf (h port) (body i h port) /\
     (forall j, buf (body i h port) j =
                if j =? i then G i (buf (h port) i) else buf (h port) j) /\
     (forall q, q <> port -> body i h q = h q)) ->
  forall n lo h,
    same_but_buf (h port) (for_steps n lo body h port) /\
    (forall j, buf (for_steps n lo body h port) j =
               if (lo <=? j) && (j <? lo + Z.of_nat n)
               then G j (buf (h port) j) else buf (h port) j) /\
    (forall q, q <> port -> for_steps n lo body h q = h q).
Proof.
  intros Hbody n; induction n as [|n IH]; intros lo h; cbn [for_steps].
  - split; [apply same_but_buf_refl|]. split; [|reflexivity].
    intros j. zcases.
  - destruct (Hbody lo h) as (B1 & B2 & B3).
    destruct (IH (lo + 1) (body lo h)) as (I1 & I2 & I3).
    split; [eapply same_but_buf_trans; eassumption|]. split.
    + intros j. rewrite I2, !B2. zcases.
    + intros q Hq. rewrite I3, B3 by assumption. reflexivity.
Qed.

Lemma port_apply_pan_frames (sinf : F32.float -> F32.float) (h : heap)
    (port : ptr) (pan : F32.float) (pan_law : PanLaw) (pan_algo : PanAlgorithm)
    (start_frame nframes : Z) :
  let h' := port_apply_pan sinf h port pan pan_law pan_algo start_frame nframes in
  let calc :=
    if Z.land (flags (identifier (h port))) PORT_FLAG_STEREO_R =? 0
    then fst (pan_scalars sinf pan pan_algo)
    else snd (pan_scalars sinf pan pan_algo) in
  same_but_buf (h port) (h' port) /\
  (forall j, buf (h' port) j =
             if (start_frame <=? j) && (j <? start_frame + nframes)
             then (if F32.eqb (buf (h port) j) F32.zero then buf (h port) j
                   else F32.mul (buf (h port) j) calc)
             else buf (h port) j) /\
  (forall q, q <> port -> h' q = h q).
Proof.
  cbv zeta. unfold port_apply_pan.
  destruct (pan_scalars sinf pan pan_algo) as [calc_l calc_r]. cbn [fst snd].
  unfold for_range.
  match goal with
  | |- context [for_steps ?n ?lo ?b h] =>
      pose proof (for_steps_buf_update port
        (fun _ v =>
           if F32.eqb v F32.zero then v
           else F32.mul v
                  (if Z.land (flags (identifier (h port))) PORT_FLAG_STEREO_R =? 0
                   then calc_l else calc_r)) b) as L
  end.
  cbv beta in L.
  match type of L with
  | ?A -> _ => assert (Hb : A)
  end.
  { intros i h0.
    destruct (F32.eqb (buf (h0 port) i) F32.zero) eqn:E0.
    - split; [apply same_but_buf_refl|]. split; [|reflexivity].
      intros j. destruct (Z.eqb_spec j i); subst; reflexivity.
    - destruct (Z.land (flags (identifier (h port))) PORT_FLAG_STEREO_R =? 0);
        cbn [negb]; rewrite store_same;
        (split; [apply same_but_buf_set|]);
        (split; [intros j; reflexivity|]);
        intros q Hq; apply store_other; assumption. }
  specialize (L Hb (Z.to_nat (start_frame + nframes - start_frame)) start_frame h).
  destruct L as (L1 & L2 & L3).
  split; [exact L1|]. split; [|exact L3].
  intros j. rewrite L2. zcases.
Qed.

End ProcessingFacts.

Section ControlFacts.

Import C Port Graph Processing.

Lemma same_but_control_refl (P : Port) : same_but_control P P.
Proof. unfold same_but_control. destruct P as [? ? ? ? ? ? ? ? ? ? ? ? ? ? []]; reflexivity. Qed.

Lemma same_but_control_fields (P P' : Port) :
  same_but_control P P' ->
  identifier P' = identifier P /\ srcs P' = srcs P /\ num_srcs P' = num_srcs P /\
  base_value P' = base_value P /\ lv2_control (lv2_port P') = lv2_control (lv2_port P).
Proof.
  unfold same_but_control. intros H. rewrite H. repeat split.
Qed.

Lemma same_but_control_set (P P' : Port) (v : F32.float) :
  same_but_control P P' -> same_but_control P (set_lv2_port_control v P').
Proof.
  unfold same_but_control. intros H. rewrite H. reflexivity.
Qed.

Lemma zrange_succ (lo : Z) (n : nat) : zrange lo (S n) = lo :: zrange (lo + 1) n.
Proof.
  unfold zrange. cbn [List.seq map]. f_equal; [lia|].
  rewrite <- seq_shift, map_map. apply map_ext. intros k. lia.
Qed.

Lemma port_get_dest_index_ext (h h' : heap) (s p : ptr) :
  h' s = h s -> port_get_dest_index h' s p = port_get_dest_index h s p.
Proof. intros E. unfold port_get_dest_index. rewrite E. reflexivity. Qed.

Variables (h : heap) (port : ptr).
Hypothesis Hcontrol : type (identifier (h port)) = TYPE_CONTROL.

(** The heaps the loop of the control branch goes through: [h] with
    another current value in [port]. *)
Let inv (hc : heap) : Prop :=
  (forall q, q <> port -> hc q = h q) /\ same_but_control (h port) (hc port).

Let inputs (ks : list Z) : list (F32.float * F32.float) :=
  map (fun s => (buf (h s) 0, multipliers (h s) (port_get_dest_index h s port)))
    (filter (is_cv h) (map (srcs (h port)) ks)).

Lemma control_loop (body : Z -> heap * bool -> heap * bool) :
  (forall k hc fc,
     body k (hc, fc) =
     if is_cv hc (srcs (hc port) k) then
       (store hc port
          (set_lv2_port_control
             (modulate (minf (lv2_control (lv2_port (hc port))))
                (maxf (lv2_control (lv2_port (hc port))))
                (if fc then base_value (hc port) else control (lv2_port (hc port)))
                (buf (hc (srcs (hc port) k)) 0)
                (multipliers (hc (srcs (hc port) k))
                   (port_get_dest_index hc (srcs (hc port) k) port)))
             (hc port)),
        false)
     else (hc, fc)) ->
  forall n lo hc fc,
    inv hc ->
    inv (fst (for_steps n lo body (hc, fc))) /\
    (control (lv2_port (fst (for_steps n lo body (hc, fc)) port)),
     snd (for_steps n lo body (hc, fc))) =
    fold_left
      (spec_step (minf (lv2_control (lv2_port (h port))))
         (maxf (lv2_control (lv2_port (h port)))) (base_value (h port)))
      (inputs (zrange lo n))
      (control (lv2_port (hc port)), fc).
Proof.
  intros Hbody n; induction n as [|n IH]; intros lo hc fc Hinv.
  - cbn. split; [exact Hinv | reflexivity].
  - cbn [for_steps]. rewrite zrange_succ. rewrite Hbody.
    destruct Hinv as (Hother & Hport).
    destruct (same_but_control_fields _ _ Hport) as (Eid & Esrcs & _ & Ebase & Elc).
    assert (Ecv : forall s, is_cv hc s = is_cv h s).
    { intros s. unfold is_cv. destruct (Z.eq_dec s port) as [->|Hs].
      - rewrite Eid. reflexivity.
      - rewrite Hother by assumption. reflexivity. }
    rewrite Ecv, Esrcs. unfold inputs. cbn [map filter].
    fold (inputs (zrange (lo + 1) n)).
    destruct (is_cv h (srcs (h port) lo)) eqn:Ecvk.
    + assert (Hne : srcs (h port) lo <> port).
      { intros E. unfold is_cv in Ecvk. rewrite E, Hcontrol in Ecvk. discriminate. }
      match goal with
      | |- context [for_steps n (lo + 1) body (?hn, false)] =>
          destruct (IH (lo + 1) hn false) as (I1 & I2)
      end.
      { split.
        - intros q Hq. rewrite store_other by assumption. apply Hother. exact Hq.
        - rewrite store_same. apply same_but_control_set. exact Hport. }
      split; [exact I1|]. rewrite I2. rewrite store_same. cbn [map fold_left].
      unfold spec_step at 2. cbn [fst snd].
      rewrite (port_get_dest_index_ext h hc) by (apply Hother; exact Hne).
      rewrite (Hother _ Hne), Elc, Ebase. reflexivity.
    + apply IH. split; assumption.
Qed.

End ControlFacts.

Section ProcessingClaims.

Import C Port Graph Processing.

(** When the loop bound of the summation is not above its start, nothing
    is summed: an audio port that is not a JACK port comes out of
    [port_sum_signal_from_inputs] as it went in. *)
Lemma audio_sum_empty_range (jb : ptr -> array F32.float)
    (jm : ptr -> Midi.MidiEvents) (h : heap) (port : ptr) (start_frame nframes : Z) :
  type (identifier (h port)) = TYPE_AUDIO ->
  internal_type (h port) <> INTERNAL_JACK_PORT ->
  nframes <= start_frame ->
  port_sum_signal_from_inputs jb jm h port start_frame nframes false = h.
Proof.
  intros Ht Hi Hle. unfold port_sum_signal_from_inputs. rewrite Ht.
  unfold port_send_data_to_jack, port_sum_data_from_jack.
  replace (PortInternalType_eqb (internal_type (h port)) INTERNAL_JACK_PORT)
    with false by (destruct (internal_type (h port)); try reflexivity; congruence).
  cbn [negb orb]. rewrite orb_true_r. cbn [orb].
  unfold for_range. apply for_steps_id. intros k h0.
  replace (Z.to_nat (nframes - start_frame)) with O by lia. reflexivity.
Qed.

(** C3: the audio branch of [port_sum_signal_from_inputs] runs its frame
    index from [start_frame] up to [nframes], not up to
    [start_frame + nframes].  With three sources holding 1, 2 and 3 in every
    frame and a zero destination, the call for frames 1, 2 and 3
    ([start_frame = 1], [nframes = 3]) sums frames 1 and 2 to 6 and leaves
    frame 3 at 0, although the sources add up to 6 there too; the call for
    the whole block ([start_frame = 0]) sums every frame of it. *)
Theorem audio_sum_misses_offset_frames :
  let sum := port_sum_signal_from_inputs no_jack_buffer no_jack_events sum_heap 0 in
  let src_sum l :=
    F32.add (F32.add (F32.add F32.zero (buf (sum_heap 1) l)) (buf (sum_heap 2) l))
      (buf (sum_heap 3) l) in
  src_sum 3 = F32.of_Z 6 /\
  buf (sum 1 3 false 0) 1 = src_sum 1 /\
  buf (sum 1 3 false 0) 2 = src_sum 2 /\
  buf (sum 1 3 false 0) 3 = F32.zero /\
  buf (sum 2 2 false 0) 2 = F32.zero /\
  buf (sum 2 2 false 0) 3 = F32.zero /\
  (forall l, In l [0; 1; 2; 3] -> buf (sum 0 4 false 0) l = src_sum l).
Proof.
  cbv zeta. repeat split; try (vm_compute; reflexivity).
  intros l [<-|[<-|[<-|[<-|[]]]]]; vm_compute; reflexivity.
Qed.

(** C8: [port_apply_pan] multiplies every non-zero in-range sample of a
    port flagged as right channel by the right scalar and leaves the other
    frames alone; with the linear algorithm and pan 0.3 the left scalar is
    0.7 and the right scalar is 0.3 (as binary32 numbers), and a sample of
    1.0 becomes 0.3. *)
Theorem port_apply_pan_linear_right_channel (sinf : F32.float -> F32.float)
    (h : heap) (port : ptr) (pan_law : PanLaw) (start_frame nframes : Z) :
  Z.land (flags (identifier (h port))) PORT_FLAG_STEREO_R <> 0 ->
  (forall pan pan_algo i,
     start_frame <= i < start_frame + nframes ->
     F32.eqb (buf (h port) i) F32.zero = false ->
     buf (port_apply_pan sinf h port pan pan_law pan_algo start_frame nframes port) i =
     F32.mul (buf (h port) i) (snd (pan_scalars sinf pan pan_algo))) /\
  (forall pan pan_algo i,
     ~ start_frame <= i < start_frame + nframes ->
     buf (port_apply_pan sinf h port pan pan_law pan_algo start_frame nframes port) i =
     buf (h port) i) /\
  pan_scalars sinf (F32.of_frac 3 10) PAN_ALGORITHM_LINEAR =
    (F32.of_frac 7 10, F32.of_frac 3 10) /\
  (forall i,
     start_frame <= i < start_frame + nframes ->
     buf (h port) i = F32.one ->
     buf (port_apply_pan sinf h port (F32.of_frac 3 10) pan_law PAN_ALGORITHM_LINEAR
            start_frame nframes port) i = F32.of_frac 3 10).
Proof.
  intros Hr.
  assert (Hflag : (Z.land (flags (identifier (h port))) PORT_FLAG_STEREO_R =? 0) = false)
    by (apply Z.eqb_neq; exact Hr).
  assert (Hin : forall pan pan_algo i,
            start_frame <= i < start_frame + nframes ->
            F32.eqb (buf (h port) i) F32.zero = false ->
            buf (port_apply_pan sinf h port pan pan_law pan_algo start_frame nframes port) i =
            F32.mul (buf (h port) i) (snd (pan_scalars sinf pan pan_algo))).
  { intros pan pan_algo i Hi Hnz.
    destruct (port_apply_pan_frames sinf h port pan pan_law pan_algo start_frame nframes)
      as (_ & Hb & _).
    rewrite Hb, Hflag, Hnz.
    destruct (Z.leb_spec start_frame i); [|lia].
    destruct (Z.ltb_spec i (start_frame + nframes)); [|lia]. reflexivity. }
  split; [exact Hin|]. split; [|split].
  - intros pan pan_algo i Hi.
    destruct (port_apply_pan_frames sinf h port pan pan_law pan_algo start_frame nframes)
      as (_ & Hb & _).
    rewrite Hb.
    destruct (Z.leb_spec start_frame i); [|reflexivity].
    destruct (Z.ltb_spec i (start_frame + nframes)); [lia | reflexivity].
  - vm_compute. reflexivity.
  - intros i Hi H1. rewrite Hin by (try assumption; rewrite H1; reflexivity).
    rewrite H1. vm_compute. reflexivity.
Qed.

Lemma port_apply_pan_linear_right_channel_witness :
  buf (port_apply_pan (fun x => x) right_heap 0 (F32.of_frac 3 10) PAN_LAW_0DB
         PAN_ALGORITHM_LINEAR 0 4 0) 2 = F32.of_frac 3 10.
Proof.
  destruct (port_apply_pan_linear_right_channel (fun x => x) right_heap 0
              PAN_LAW_0DB 0 4) as (_ & _ & _ & H).
  - vm_compute. discriminate.
  - apply H; [lia | reflexivity].
Defined.

(** C9: for a control port, [port_sum_signal_from_inputs] leaves the base
    value of every port as it was and changes nothing but the current value
    of the port; that value is the one the spec describes, computed from
    the CV sources alone: the first CV source is applied to the base value,
    the following ones to the running value, and the other sources do not
    take part. *)
Theorem control_sum_keeps_base_value (jb : ptr -> array F32.float)
    (jm : ptr -> Midi.MidiEvents) (h : heap) (port : ptr)
    (start_frame nframes : Z) (noroll : bool) :
  type (identifier (h port)) = TYPE_CONTROL ->
  let h' := port_sum_signal_from_inputs jb jm h port start_frame nframes noroll in
  (forall p, base_value (h' p) = base_value (h p)) /\
  (forall q, q <> port -> h' q = h q) /\
  same_but_control (h port) (h' port) /\
  control (lv2_port (h' port)) =
    control_value_spec (minf (lv2_control (lv2_port (h port))))
      (maxf (lv2_control (lv2_port (h port)))) (base_value (h port))
      (control (lv2_port (h port))) (cv_inputs h port).
Proof.
  intros Hc. cbv zeta. unfold port_sum_signal_from_inputs. rewrite Hc.
  unfold for_range. rewrite Z.sub_0_r.
  match goal with
  | |- context [for_steps _ 0 ?b (h, true)] => set (body := b)
  end.
  assert (Hbody : forall k hc fc,
             body k (hc, fc) =
             if is_cv hc (srcs (hc port) k) then
               (store hc port
                  (set_lv2_port_control
                     (modulate (minf (lv2_control (lv2_port (hc port))))
                        (maxf (lv2_control (lv2_port (hc port))))
                        (if fc then base_value (hc port)
                         else control (lv2_port (hc port)))
                        (buf (hc (srcs (hc port) k)) 0)
                        (multipliers (hc (srcs (hc port) k))
                           (port_get_dest_index hc (srcs (hc port) k) port)))
                     (hc port)),
                false)
             else (hc, fc)).
  { intros k hc fc. subst body. cbv beta iota. unfold is_cv.
    destruct (PortType_eqb (type (identifier (hc (srcs (hc port) k)))) TYPE_CV);
      [destruct fc|]; reflexivity. }
  clearbody body.
  destruct (control_loop h port Hc body Hbody (Z.to_nat (num_srcs (h port))) 0 h true)
    as ((Hother & Hport) & Hval).
  { split; [reflexivity | apply same_but_control_refl]. }
  split; [|split; [exact Hother | split; [exact Hport|]]].
  - intros p. destruct (Z.eq_dec p port) as [->|Hp].
    + apply (same_but_control_fields _ _ Hport).
    + rewrite Hother by assumption. reflexivity.
  - unfold control_value_spec, cv_inputs, live_srcs.
    rewrite <- Hval. reflexivity.
Qed.

Lemma control_sum_keeps_base_value_witness :
  let h' := port_sum_signal_from_inputs no_jack_buffer no_jack_events
              modulated_heap 2 0 4 false in
  base_value (h' 2) = F32.of_Z 1 /\
  control (lv2_port (h' 2)) = F32.of_frac 9 4.
Proof.
  destruct (control_sum_keeps_base_value no_jack_buffer no_jack_events
              modulated_heap 2 0 4 false eq_refl) as (Hb & _ & _ & Hv).
  split.
  - rewrite Hb. reflexivity.
  - rewrite Hv. vm_compute. reflexivity.
Defined.

End ProcessingClaims.

(** ** The claims on recording *)

Section EmitFacts.

Import Recording.

Lemma emits_ret {A : Type} (a : A) : emits (ret a) a [].
Proof.
  intros s _. exists []. split; [|reflexivity].
  unfold ret. cbn [List.length skipn]. rewrite app_nil_r. destruct s; reflexivity.
Qed.

Lemma emits_send (fill : RecordingEvent -> RecordingEvent) (ty : RecordingEventType) :
  (forall re, type (fill re) = ty) -> emits (send fill) tt [ty].
Proof.
  intros Hty s Hlen. unfold send, bind, object_pool_get.
  destruct (event_obj_pool s) as [|re rest] eqn:E; [cbn in Hlen; lia|].
  exists [fill re]. split; [reflexivity|]. cbn. rewrite Hty. reflexivity.
Qed.

Lemma emits_bind {A B : Type} (m : M A) (k : A -> M B) (a : A) (b : B)
    (t1 t2 : list RecordingEventType) :
  emits m a t1 -> emits (k a) b t2 -> emits (bind m k) b (t1 ++ t2).
Proof.
  intros H1 H2 s Hlen. rewrite length_app in Hlen.
  destruct (H1 s ltac:(lia)) as (e1 & E1 & T1).
  unfold bind. rewrite E1.
  match goal with
  | |- context [k a ?s1] => destruct (H2 s1) as (e2 & E2 & T2)
  end.
  { cbn [event_obj_pool]. rewrite length_skipn. lia. }
  exists (e1 ++ e2). split.
  - rewrite E2. cbn [event_obj_pool event_queue].
    rewrite skipn_skipn, length_app, app_assoc.
    replace (List.length t2 + List.length t1)%nat
      with (List.length t1 + List.length t2)%nat by lia.
    reflexivity.
  - rewrite map_app, T1, T2. reflexivity.
Qed.

Lemma emits_then_ret {B : Type} (m : M unit) (b : B)
    (tys : list RecordingEventType) :
  emits m tt tys -> emits (bind m (fun _ => ret b)) b tys.
Proof.
  intros H. rewrite <- (app_nil_r tys).
  apply emits_bind with (a := tt); [exact H | apply emits_ret].
Qed.

Lemma emits_when (c : bool) (m : M unit) (tys : list RecordingEventType) :
  emits m tt tys -> emits (when_ c m) tt (if c then tys else []).
Proof. intros H. destruct c; [exact H | apply emits_ret]. Qed.

Lemma emits_for_each {A : Type} (Q : RecordingEventType -> Prop) (c : nat)
    (l : list A) (body : A -> M unit) :
  (forall a, exists tys,
      emits (body a) tt tys /\ Forall Q tys /\ (List.length tys <= c)%nat) ->
  exists tys,
    emits (for_each l body) tt tys /\ Forall Q tys /\
    (List.length tys <= c * List.length l)%nat.
Proof.
  intros Hbody. induction l as [|a l (tl & El & Ql & Ll)].
  - exists []. split; [apply emits_ret|]. split; [constructor | cbn; lia].
  - destruct (Hbody a) as (ta & Ea & Qa & La).
    exists (ta ++ tl). split; [|split].
    + cbn [for_each]. apply emits_bind with (a := tt); assumption.
    + apply Forall_app. split; assumption.
    + rewrite length_app. cbn [List.length]. lia.
Qed.

Lemma count_type_app (ty : RecordingEventType) (t1 t2 : list RecordingEventType) :
  count_type ty (t1 ++ t2) = (count_type ty t1 + count_type ty t2)%nat.
Proof. unfold count_type. rewrite filter_app, length_app. reflexivity. Qed.

Lemma count_type_none (ty : RecordingEventType) (Q : RecordingEventType -> Prop)
    (tys : list RecordingEventType) :
  ~ Q ty -> Forall Q tys -> count_type ty tys = O.
Proof.
  intros Hn H. induction H as [|t tys Ht _ IH]; [reflexivity|].
  unfold count_type in *. cbn [filter].
  destruct (RecordingEventType_eqb ty t) eqn:E; [|exact IH].
  exfalso. apply Hn. destruct ty, t; try discriminate; exact Ht.
Qed.

End EmitFacts.

Section HandleRecordingFacts.

Import Recording.

Variable TRANSPORT : Transport.
Variable block_length : Z.
Variable position_from_frames : Z -> Position.
Variable track_type_can_record : TrackType -> bool.
Variable track_has_piano_roll : Track -> bool.
Variable automation_track_should_be_recording : AutomationTrack -> Z -> bool -> bool.

Ltac emit_solve :=
  repeat (cbv beta iota; cbn [when_ negb andb orb];
          first [ apply emits_ret
                | (apply emits_send; intros re; cbn; reflexivity)
                | apply emits_then_ret
                | eapply emits_bind ]).

(** The events the track itself gets in a cycle. *)
Let track_part (tr : Track) (g_start_frames : Z) (reached_loop_end : bool)
  : list RecordingEventType :=
  if gating TRANSPORT position_from_frames tr g_start_frames then
    if track_type_can_record (track_type tr) then
      if reached_loop_end && is_set (recording_region tr)
      then [RECORDING_EVENT_TYPE_SPLIT_TRACK_RECORDING]
      else if negb (is_set (recording_region tr))
           then [RECORDING_EVENT_TYPE_START_TRACK_RECORDING]
           else []
    else []
  else
    if track_type_can_record (track_type tr) && is_set (recording_region tr)
    then [RECORDING_EVENT_TYPE_STOP_TRACK_RECORDING]
    else [].

Lemma handle_recording_emits (tp : TrackProcessor) (cur_time g_start_frames : Z)
    (local_offset nframes : Z) (reached_loop_end : bool) :
  (local_offset + nframes) mod 2 ^ 32 <= block_length ->
  exists T2 T3,
    emits
      (recording_manager_handle_recording TRANSPORT block_length
         position_from_frames track_type_can_record track_has_piano_roll
         automation_track_should_be_recording
         tp cur_time g_start_frames local_offset nframes reached_loop_end)
      tt
      (track_part (track tp) g_start_frames reached_loop_end ++ T2 ++ T3) /\
    Forall is_automation_type T2 /\
    (List.length T2 <= 2 * List.length (automation_tracklist (track tp)))%nat /\
    Forall is_data_type T3 /\
    (List.length T3 <= 1 + List.length (midi_in_events tp))%nat /\
    (gating TRANSPORT position_from_frames (track tp) g_start_frames = false ->
     T3 = []).
Proof.
  intros Hguard. unfold recording_manager_handle_recording.
  replace ((local_offset + nframes) mod 2 ^ 32 <=? block_length) with true
    by (symmetry; apply Z.leb_le; exact Hguard).
  cbn [negb]. cbv zeta.
  set (inside := if punch_mode TRANSPORT then _ else true).
  (* the automation tracks *)
  match goal with
  | |- context [for_each (automation_tracklist (track tp)) ?b] =>
      destruct (emits_for_each is_automation_type 2
                  (automation_tracklist (track tp)) b) as (T2 & E2 & Q2 & L2)
  end.
  { intros at_.
    destruct (rolling TRANSPORT), inside,
             (automation_track_should_be_recording at_ cur_time false),
             (recording_started at_), reached_loop_end;
      eexists; (split; [emit_solve|]);
      (split; [repeat constructor; unfold is_automation_type; tauto | cbn; lia]). }
  (* the material of the track *)
  assert (Hdata : exists T3,
            emits
              (if track_has_piano_roll (track tp) then
                 bind
                   (for_each (midi_in_events tp)
                      (fun me =>
                         send (fun re =>
                           set_midi_event me
                             (set_has_midi_event 1
                                (set_header RECORDING_EVENT_TYPE_MIDI
                                   g_start_frames local_offset nframes
                                   (name (track tp)) re)))))
                   (fun _ =>
                      when_ (Midi.num_events (midi_in_events tp) =? 0)
                        (send (fun re =>
                           set_has_midi_event 0
                             (set_header RECORDING_EVENT_TYPE_MIDI
                                g_start_frames local_offset nframes
                                (name (track tp)) re))))
               else if TrackType_eqb (track_type (track tp)) TRACK_TYPE_AUDIO then
                 send (fun re =>
                   set_bufs
                     (memcpy (lbuf re) (stereo_in_l_buf tp) block_length)
                     (memcpy (rbuf re) (stereo_in_r_buf tp) block_length)
                     (set_header RECORDING_EVENT_TYPE_AUDIO
                        g_start_frames local_offset nframes (name (track tp)) re))
               else ret tt)
              tt T3 /\
            Forall is_data_type T3 /\
            (List.length T3 <= 1 + List.length (midi_in_events tp))%nat).
  { destruct (track_has_piano_roll (track tp)).
    - match goal with
      | |- context [for_each (midi_in_events tp) ?b] =>
          destruct (emits_for_each is_data_type 1 (midi_in_events tp) b)
            as (Tm & Em & Qm & Lm)
      end.
      { intros me. eexists. split; [emit_solve|].
        split; [repeat constructor; unfold is_data_type; tauto | cbn; lia]. }
      destruct (Midi.num_events (midi_in_events tp) =? 0);
        eexists; (split; [eapply emits_bind; [exact Em | emit_solve]|]);
        (split; [apply Forall_app; split;
                   [exact Qm | repeat constructor; unfold is_data_type; tauto]
                | rewrite length_app; cbn; lia]).
    - destruct (TrackType_eqb (track_type (track tp)) TRACK_TYPE_AUDIO);
        eexists; (split; [emit_solve|]);
        (split; [repeat constructor; unfold is_data_type; tauto | cbn; lia]). }
  destruct Hdata as (T3 & E3 & Q3 & L3).
  unfold track_part, gating. fold inside.
  destruct (transport_recording TRANSPORT), (recording (track tp)),
           (rolling TRANSPORT), inside;
    cbn [negb andb orb];
    [> (* every gating condition holds *)
       exists T2, T3;
       (split; [|split; [exact Q2 | split; [exact L2 |
                  split; [exact Q3 | split; [exact L3 | cbn; discriminate]]]]]);
       (eapply emits_bind;
          [destruct (track_type_can_record (track_type (track tp))),
                    (reached_loop_end && is_set (recording_region (track tp))),
                    (negb (is_set (recording_region (track tp))));
             emit_solve
          | cbv beta; eapply emits_bind; [exact E2 | exact E3] ])
     | (* a gating condition is false: the cycle is a pending stop *)
       exists T2, [];
       (split; [|split; [exact Q2 | split; [exact L2 |
                  split; [apply Forall_nil | split; [cbn; lia | intros _; reflexivity]]]]]);
       (eapply emits_bind;
          [destruct (track_type_can_record (track_type (track tp))
                     && is_set (recording_region (track tp)));
             emit_solve
          | cbv beta; eapply emits_bind; [exact E2 | apply emits_ret] ]) .. ].
Qed.

End HandleRecordingFacts.

Section RecordingClaims.

Import Recording.

(** C4: in a cycle of a recordable track, within the block and with enough
    objects in the pool, [recording_manager_handle_recording] returns and
    appends to the queue: exactly one StopTrackRecording event and no MIDI
    or Audio event, if a gating condition is false and a region is in
    progress; exactly one SplitTrackRecording event, if all gating
    conditions hold, the call is a loop-end tail and a region is in
    progress; exactly one StartTrackRecording event, if all gating
    conditions hold and no region is in progress. *)
Theorem handle_recording_decision (TRANSPORT : Transport) (block_length : Z)
    (position_from_frames : Z -> Position)
    (track_type_can_record : TrackType -> bool)
    (track_has_piano_roll : Track -> bool)
    (automation_track_should_be_recording : AutomationTrack -> Z -> bool -> bool)
    (tp : TrackProcessor) (cur_time g_start_frames local_offset nframes : Z)
    (reached_loop_end : bool) (s : rm_state) :
  track_type_can_record (track_type (track tp)) = true ->
  (local_offset + nframes) mod 2 ^ 32 <= block_length ->
  (pool_demand tp <= List.length (event_obj_pool s))%nat ->
  exists evs s',
    recording_manager_handle_recording TRANSPORT block_length
      position_from_frames track_type_can_record track_has_piano_roll
      automation_track_should_be_recording
      tp cur_time g_start_frames local_offset nframes reached_loop_end s
    = Some (tt, s') /\
    event_queue s' = event_queue s ++ evs /\
    let tys := map type evs in
    let gate := gating TRANSPORT position_from_frames (track tp) g_start_frames in
    (gate = false -> is_set (recording_region (track tp)) = true ->
     count_type RECORDING_EVENT_TYPE_STOP_TRACK_RECORDING tys = 1%nat /\
     count_type RECORDING_EVENT_TYPE_MIDI tys = 0%nat /\
     count_type RECORDING_EVENT_TYPE_AUDIO tys = 0%nat) /\
    (gate = true -> reached_loop_end = true ->
     is_set (recording_region (track tp)) = true ->
     count_type RECORDING_EVENT_TYPE_SPLIT_TRACK_RECORDING tys = 1%nat) /\
    (gate = true -> is_set (recording_region (track tp)) = false ->
     count_type RECORDING_EVENT_TYPE_START_TRACK_RECORDING tys = 1%nat).
Proof.
  intros Hcan Hguard Hpool.
  destruct (handle_recording_emits TRANSPORT block_length position_from_frames
              track_type_can_record track_has_piano_roll
              automation_track_should_be_recording
              tp cur_time g_start_frames local_offset nframes reached_loop_end Hguard)
    as (T2 & T3 & Hem & Q2 & L2 & Q3 & L3 & Hstop).
  cbv zeta in Hem. rewrite Hcan in Hem. cbn [andb] in Hem.
  match type of Hem with
  | emits _ _ (?T1 ++ _) => set (T1' := T1) in *
  end.
  assert (L1 : (List.length T1' <= 1)%nat).
  { subst T1'.
    destruct (gating TRANSPORT position_from_frames (track tp) g_start_frames),
             (reached_loop_end && is_set (recording_region (track tp))),
             (is_set (recording_region (track tp))); cbn; lia. }
  destruct (Hem s) as (evs & Erun & Etys).
  { rewrite !length_app. unfold pool_demand in Hpool. lia. }
  exists evs. eexists. split; [exact Erun|]. split; [reflexivity|].
  cbv zeta. rewrite Etys, !count_type_app.
  assert (N2 : forall ty, ~ is_automation_type ty -> count_type ty T2 = O).
  { intros ty Hn. apply (count_type_none ty is_automation_type); assumption. }
  assert (N3 : forall ty, ~ is_data_type ty -> count_type ty T3 = O).
  { intros ty Hn. apply (count_type_none ty is_data_type); assumption. }
  split; [|split].
  - intros Hg Hr. rewrite (Hstop Hg). subst T1'. rewrite Hg, Hr.
    rewrite !N2 by (unfold is_automation_type; intuition discriminate).
    split; [|split]; reflexivity.
  - intros Hg Hl Hr. subst T1'. rewrite Hg, Hl, Hr.
    rewrite N2 by (unfold is_automation_type; intuition discriminate).
    rewrite N3 by (unfold is_data_type; intuition discriminate).
    reflexivity.
  - intros Hg Hr. subst T1'. rewrite Hg, Hr, andb_false_r.
    rewrite N2 by (unfold is_automation_type; intuition discriminate).
    rewrite N3 by (unfold is_data_type; intuition discriminate).
    reflexivity.
Qed.

Lemma handle_recording_decision_witness :
  exists evs s',
    recording_manager_handle_recording stopped_transport 256
      (fun f => {| frames := f; total_ticks := f / 10 |})
      records_midi (fun tr => records_midi (track_type tr)) (fun _ _ _ => true)
      armed_processor 0 4096 0 256 false fresh_manager
    = Some (tt, s') /\
    event_queue s' = event_queue fresh_manager ++ evs /\
    count_type RECORDING_EVENT_TYPE_STOP_TRACK_RECORDING (map type evs) = 1%nat /\
    count_type RECORDING_EVENT_TYPE_MIDI (map type evs) = 0%nat /\
    count_type RECORDING_EVENT_TYPE_AUDIO (map type evs) = 0%nat.
Proof.
  destruct (handle_recording_decision stopped_transport 256
              (fun f => {| frames := f; total_ticks := f / 10 |})
              records_midi (fun tr => records_midi (track_type tr))
              (fun _ _ _ => true)
              armed_processor 0 4096 0 256 false fresh_manager)
    as (evs & s' & Hrun & Hq & Hstop & _).
  - reflexivity.
  - vm_compute. discriminate.
  - vm_compute. repeat constructor.
  - exists evs, s'. split; [exact Hrun|]. split; [exact Hq|].
    apply Hstop; reflexivity.
Defined.

End RecordingClaims.

Section HeapOfObjects.

Import Recording.

Context {A : Type}.

Lemma nth_error_list_set_same (l : list A) (n : nat) (v : A) :
  (n < List.length l)%nat -> nth_error (list_set l n v) n = Some v.
Proof.
  revert n; induction l as [|a l IH]; intros [|n] H; cbn in *; try lia.
  - reflexivity.
  - apply IH. lia.
Qed.

Lemma nth_error_list_set_other (l : list A) (n m : nat) (v : A) :
  n <> m -> nth_error (list_set l n v) m = nth_error l m.
Proof.
  revert n m; induction l as [|a l IH]; intros [|n] [|m] H; cbn; try reflexivity.
  - contradiction.
  - apply IH. congruence.
Qed.


Lemma list_set_twice (l : list A) (n : nat) (a b : A) :
  list_set (list_set l n a) n b = list_set l n b.
Proof.
  revert n; induction l as [|x l IH]; intros [|n]; cbn; try reflexivity.
  rewrite IH. reflexivity.
Qed.

Lemma deref_range (h : list A) (p : Z) (a : A) :
  deref h p = Some a -> 0 <= p < Z.of_nat (List.length h).
Proof.
  unfold deref. destruct (Z.ltb_spec p 0); [discriminate|]. intros E.
  assert (nth_error h (Z.to_nat p) <> None) as N by congruence.
  apply nth_error_Some in N. lia.
Qed.

Lemma deref_valid (h : list A) (p : Z) :
  0 <= p < Z.of_nat (List.length h) -> exists a, deref h p = Some a.
Proof.
  intros Hp. unfold deref. destruct (Z.ltb_spec p 0); [lia|].
  destruct (nth_error h (Z.to_nat p)) eqn:E; [eauto|].
  apply nth_error_None in E. lia.
Qed.

Lemma deref_store_at_same (h : list A) (p : Z) (v : A) :
  deref h p <> None -> deref (store_at h p v) p = Some v.
Proof.
  unfold deref, store_at. destruct (Z.ltb_spec p 0); [congruence|]. intros N.
  apply nth_error_list_set_same. apply nth_error_Some. exact N.
Qed.

Lemma deref_store_at_other (h : list A) (p q : Z) (v : A) :
  p <> q -> deref (store_at h p v) q = deref h q.
Proof.
  unfold deref, store_at. intros N.
  destruct (Z.ltb_spec q 0); [reflexivity|].
  destruct (Z.ltb_spec p 0); [reflexivity|].
  apply nth_error_list_set_other. lia.
Qed.


Lemma store_at_twice (h : list A) (p : Z) (a b : A) :
  store_at (store_at h p a) p b = store_at h p b.
Proof.
  unfold store_at. destruct (p <? 0); [reflexivity | apply list_set_twice].
Qed.

Lemma deref_app_new (h : list A) (v : A) :
  deref (h ++ [v]) (Z.of_nat (List.length h)) = Some v.
Proof.
  unfold deref. destruct (Z.ltb_spec (Z.of_nat (List.length h)) 0); [lia|].
  rewrite Nat2Z.id, nth_error_app2, Nat.sub_diag by lia. reflexivity.
Qed.

Lemma deref_app_old (h : list A) (p : Z) (a v : A) :
  deref h p = Some a -> deref (h ++ [v]) p = Some a.
Proof.
  intros E. pose proof (deref_range h p a E) as R. revert E.
  unfold deref. destruct (Z.ltb_spec p 0); [lia|].
  intros E. rewrite nth_error_app1 by lia. exact E.
Qed.

End HeapOfObjects.

Section SplitFacts.

Import Recording.



Lemma track_add_region_lane (tr : Track) (region lane_pos : Z) :
  0 <= lane_pos ->
  exists lane,
    deref (lanes (track_add_region tr region lane_pos)) lane_pos = Some lane /\
    In region (regions lane).
Proof.
  intros Hl. unfold track_add_region.
  destruct (deref_valid (create_missing_lanes (lanes tr) lane_pos) lane_pos)
    as (lane & E).
  { unfold create_missing_lanes. rewrite length_app, repeat_length. lia. }
  rewrite E. eexists. cbn [lanes set_lanes]. split.
  - apply deref_store_at_same. congruence.
  - unfold lane_add_region. cbn [regions]. apply in_or_app. right. left. reflexivity.
Qed.

End SplitFacts.

Section SplitClaims.

Import Recording.

Lemma position_eta (p : Position) :
  {| frames := frames p; total_ticks := total_ticks p |} = p.
Proof. destruct p; reflexivity. Qed.


End SplitClaims.

Section SplitExample.

Import Recording.



End SplitExample.

(** ** Further properties of connecting and disconnecting *)

Section RoutingFacts.

Import C Port Graph Routing.

(** One turn of the first loop of [port_disconnect_all]: the source in
    slot [i] is taken off the list of [port]. *)
Lemma disconnect_listed_src (h : heap) (port : ptr) (i : Z) :
  0 <= i < num_srcs (h port) ->
  num_srcs (snd (port_disconnect h (srcs (h port) i) port) port) =
  num_srcs (h port) - 1.
Proof.
  intros Hi.
  destruct (port_disconnect_fields h (srcs (h port) i) port) as (_ & _ & _ & _ & Ds).
  destruct Ds as [(Hno & _) | (k & _ & _ & _ & E & _)].
  - exfalso. apply (Hno i Hi). reflexivity.
  - exact E.
Qed.

Lemma disconnect_listed_dest (h : heap) (port : ptr) (i : Z) :
  0 <= i < num_dests (h port) ->
  num_dests (snd (port_disconnect h port (dests (h port) i)) port) =
  num_dests (h port) - 1.
Proof.
  intros Hi.
  destruct (port_disconnect_fields h port (dests (h port) i)) as (_ & _ & _ & Dd & _).
  destruct Dd as [(Hno & _) | (k & _ & _ & _ & E & _)].
  - exfalso. apply (Hno i Hi). reflexivity.
  - exact E.
Qed.

Lemma half_step (d : Z) : (d + 2) / 2 = d / 2 + 1.
Proof.
  replace (d + 2) with (d + 1 * 2) by lia. apply Z.div_add. lia.
Qed.

Lemma half_small (d : Z) : 0 <= d <= 1 -> d / 2 = 0.
Proof. intros H. apply Z.div_small. lia. Qed.

(** The first loop of [port_disconnect_all]: its index goes up while the
    list shrinks under it. *)
Lemma disconnect_all_srcs_loop (port : ptr) :
  forall (fuel : nat) (i : Z) (h : heap),
    -1 <= num_srcs (h port) - i ->
    num_srcs (h port) - i + 1 < Z.of_nat fuel ->
    (forall j, 0 <= j < num_srcs (h port) -> srcs (h port) j <> port) ->
    0 <= i ->
    exists h',
      for_bound fuel i (fun h => num_srcs (h port))
        (fun i h => snd (port_disconnect h (srcs (h port) i) port)) h = Some h' /\
      num_srcs (h' port) =
        num_srcs (h port) - (num_srcs (h port) - i + 1) / 2 /\
      num_dests (h' port) = num_dests (h port) /\
      dests (h' port) = dests (h port) /\
      (forall s, in_srcs h' port s -> in_srcs h port s).
Proof.
  induction fuel as [|fuel IH]; intros i h Hge Hfuel Hself Hi; [lia|].
  cbn [for_bound]. destruct (Z.ltb_spec i (num_srcs (h port))) as [Hlt|Hnlt].
  - set (s := srcs (h port) i).
    assert (Hs : s <> port) by (apply Hself; lia).
    pose proof (disconnect_listed_src h port i ltac:(lia)) as Hn. fold s in Hn.
    destruct (port_disconnect_fields h s port) as (_ & Hd & _ & _ & Ds).
    destruct (Hd port ltac:(congruence)) as (Ed1 & Ed2 & _).
    destruct (IH (i + 1) (snd (port_disconnect h s port)))
      as (h' & Erun & En & Em & Ea & Esub).
    + rewrite Hn. lia.
    + rewrite Hn. lia.
    + intros j Hj E.
      assert (Hin : in_srcs h port port).
      { apply (disconnect_in_srcs_sub h s port). exists j. split; [exact Hj | exact E]. }
      destruct Hin as (j0 & Hj0 & E0). exact (Hself j0 Hj0 E0).
    + lia.
    + exists h'. split; [exact Erun|]. split; [|split; [|split]].
      * rewrite En, Hn.
        replace (num_srcs (h port) - i + 1)
          with (num_srcs (h port) - 1 - (i + 1) + 1 + 2) by lia.
        rewrite half_step. lia.
      * rewrite Em. exact Ed1.
      * rewrite Ea. exact Ed2.
      * intros x Hx. apply (disconnect_in_srcs_sub h s port). apply Esub. exact Hx.
  - exists h. split; [reflexivity|]. split; [|split; [|split]]; try reflexivity.
    + rewrite half_small by lia. lia.
    + auto.
Qed.

Lemma disconnect_all_dests_loop (port : ptr) :
  forall (fuel : nat) (i : Z) (h : heap),
    -1 <= num_dests (h port) - i ->
    num_dests (h port) - i + 1 < Z.of_nat fuel ->
    (forall j, 0 <= j < num_dests (h port) -> dests (h port) j <> port) ->
    0 <= i ->
    exists h',
      for_bound fuel i (fun h => num_dests (h port))
        (fun i h => snd (port_disconnect h port (dests (h port) i))) h = Some h' /\
      num_dests (h' port) =
        num_dests (h port) - (num_dests (h port) - i + 1) / 2 /\
      num_srcs (h' port) = num_srcs (h port) /\
      srcs (h' port) = srcs (h port) /\
      (forall d, in_dests h' port d -> in_dests h port d).
Proof.
  induction fuel as [|fuel IH]; intros i h Hge Hfuel Hself Hi; [lia|].
  cbn [for_bound]. destruct (Z.ltb_spec i (num_dests (h port))) as [Hlt|Hnlt].
  - set (d := dests (h port) i).
    assert (Hs : d <> port) by (apply Hself; lia).
    pose proof (disconnect_listed_dest h port i ltac:(lia)) as Hn. fold d in Hn.
    destruct (port_disconnect_fields h port d) as (_ & _ & Hsr & _ & _).
    destruct (Hsr port ltac:(congruence)) as (Es1 & Es2 & _).
    destruct (IH (i + 1) (snd (port_disconnect h port d)))
      as (h' & Erun & En & Em & Ea & Esub).
    + rewrite Hn. lia.
    + rewrite Hn. lia.
    + intros j Hj E.
      assert (Hin : in_dests h port port).
      { apply (disconnect_in_dests_sub h port d). exists j. split; [exact Hj | exact E]. }
      destruct Hin as (j0 & Hj0 & E0). exact (Hself j0 Hj0 E0).
    + lia.
    + exists h'. split; [exact Erun|]. split; [|split; [|split]].
      * rewrite En, Hn.
        replace (num_dests (h port) - i + 1)
          with (num_dests (h port) - 1 - (i + 1) + 1 + 2) by lia.
        rewrite half_step. lia.
      * rewrite Em. exact Es1.
      * rewrite Ea. exact Es2.
      * intros x Hx. apply (disconnect_in_dests_sub h port d). apply Esub. exact Hx.
  - exists h. split; [reflexivity|]. split; [|split; [|split]]; try reflexivity.
    + rewrite half_small by lia. lia.
    + auto.
Qed.

(** Symbolic execution of the assignments of [port_connect_append], with
    what is known of the heap kept in hypotheses [hc x = V]. *)
Ltac port_fields :=
  cbn [identifier internal_type buf midi_events srcs dests src_ids dest_ids
       multipliers dest_locked dest_enabled num_srcs num_dests base_value lv2_port
       set_buf set_midi_events set_srcs set_dests set_src_ids set_dest_ids
       set_multipliers set_dest_locked set_dest_enabled set_num_srcs set_num_dests
       set_base_value set_lv2_port_control control lv2_control] in *.

Ltac use_registers :=
  repeat match goal with
    | R : ?hh _ = _ |- _ =>
        let t := type of hh in unify t heap; rewrite R
    end.

Ltac exec_assign_step :=
  match goal with
  | |- context [(assign ?a ?F ;; ?rest) ?hc] =>
      pattern ((assign a F ;; rest) hc);
      apply exec_assign;
      let hn := fresh "hn" in
      let Ha := fresh "Ha" in
      let Ho := fresh "Ho" in
      intros hn Ha Ho; cbv beta in Ha;
      repeat match goal with
        | R : hc _ = _ |- _ => rewrite R in Ha
        end;
      rewrite ?port_identifier_copy_id in Ha;
      repeat match goal with
        | R : hc ?x = _, N : ?x <> a |- _ => rewrite <- (Ho x N) in R
        end;
      repeat match goal with
        | R : hc _ = _ |- _ => clear R
        end;
      clear Ho; try clear hc; port_fields
  end.

(** The per-connection settings that [port_connect_append] writes next
    to the new edge. *)
Lemma port_connect_append_settings (h : heap) (src dest : ptr) (locked : Z) (p : ptr) :
  let h' := port_connect_append src dest locked h in
  (forall j, multipliers (h' p) j =
             if (p =? src) && (j =? num_dests (h src)) then F32.one
             else multipliers (h p) j) /\
  (forall j, dest_locked (h' p) j =
             if (p =? src) && (j =? num_dests (h src)) then locked
             else dest_locked (h p) j) /\
  (forall j, dest_enabled (h' p) j =
             if (p =? src) && (j =? num_dests (h src)) then 1
             else dest_enabled (h p) j).
Proof.
  cbv zeta. unfold port_connect_append.
  destruct (Z.eq_dec src dest) as [Hsd|Hsd];
    [subst dest|assert (Hds : dest <> src) by congruence];
    (destruct (Z.eq_dec p src) as [Hps|Hps]; [subst p|]);
    try (destruct (Z.eq_dec p dest) as [Hpd|Hpd]; [subst p|]);
    try congruence.
  all: remember (h src) as Ps eqn:Rs; symmetry in Rs.
  all: try (remember (h dest) as Pd eqn:Rd; symmetry in Rd).
  all: try (remember (h p) as Pp eqn:Rp; symmetry in Rp).
  all: do 9 exec_assign_step.
  all: unfold when, assign; use_registers; port_fields.
  all: match goal with
       | |- context [PortType_eqb ?a TYPE_CV && PortType_eqb ?b TYPE_CONTROL] =>
           destruct (PortType_eqb a TYPE_CV && PortType_eqb b TYPE_CONTROL)
       end.
  all: match goal with
       | |- context [PortInternalType_eqb ?a INTERNAL_LV2_PORT] =>
           destruct (PortInternalType_eqb a INTERNAL_LV2_PORT)
       | _ => idtac
       end.
  all: rewrite ?store_same; rewrite ?store_other by assumption;
       use_registers; port_fields; rewrite ?andb_false_r; cbn [andb].
  all: repeat split; try reflexivity; try (intros j; unfold array_set); zcases.
Qed.

(** A port that is neither end of the new edge is not written. *)
Lemma port_connect_append_other (h : heap) (src dest : ptr) (locked : Z) (p : ptr) :
  p <> src -> p <> dest -> port_connect_append src dest locked h p = h p.
Proof.
  intros Hps Hpd. unfold port_connect_append.
  remember (h p) as Pp eqn:Rp; symmetry in Rp.
  do 9 exec_assign_step.
  unfold when, assign.
  repeat match goal with
    | |- context [if ?c then _ else _] => destruct c
    end;
    rewrite ?store_other by assumption; assumption.
Qed.

Lemma port_disconnect_other (h : heap) (src dest : ptr) (p : ptr) :
  p <> src -> p <> dest -> snd (port_disconnect h src dest) p = h p.
Proof.
  intros Hps Hpd.
  destruct (port_disconnect_fields h src dest) as (He & Hd & Hs & _).
  destruct (Hd p Hps) as (D1 & D2 & D3). destruct (Hs p Hpd) as (S1 & S2 & S3).
  specialize (He p). unfold same_but_edges in He.
  rewrite He, D1, D2, D3, S1, S2, S3. destruct (h p); reflexivity.
Qed.

End RoutingFacts.

Section RoutingProperties.

Import C Port Graph Routing.

(** X1: [port_disconnect_all] returns 0 but takes only every other
    connection off the port.  Its loops, [FOREACH_SRCS] and [FOREACH_DESTS]
    read as loops that count the index up from 0 against the counter of the
    port, remove in each turn the connection in the slot of the index and
    move the later ones down; so of [n] sources [n / 2] stay connected, and
    of [m] destinations [m / 2], each of them a connection the port had
    before. *)
Theorem port_disconnect_all_leaves_half (fuel : nat) (h : heap) (port : ptr) :
  0 <= num_srcs (h port) ->
  0 <= num_dests (h port) ->
  (forall j, 0 <= j < num_srcs (h port) -> srcs (h port) j <> port) ->
  (forall j, 0 <= j < num_dests (h port) -> dests (h port) j <> port) ->
  num_srcs (h port) + 1 < Z.of_nat fuel ->
  num_dests (h port) + 1 < Z.of_nat fuel ->
  exists h',
    port_disconnect_all fuel h port = Some (0, h') /\
    num_srcs (h' port) = num_srcs (h port) / 2 /\
    num_dests (h' port) = num_dests (h port) / 2 /\
    (forall s, in_srcs h' port s -> in_srcs h port s) /\
    (forall d, in_dests h' port d -> in_dests h port d).
Proof.
  intros Hn Hm Hss Hsd Hfs Hfd. unfold port_disconnect_all, FOREACH_SRCS, FOREACH_DESTS.
  destruct (disconnect_all_srcs_loop port fuel 0 h) as (h1 & E1 & N1 & M1 & A1 & S1);
    try lia; try assumption.
  cbv zeta. unfold heap in *. rewrite E1.
  destruct (disconnect_all_dests_loop port fuel 0 h1) as (h2 & E2 & N2 & M2 & A2 & S2);
    try (rewrite M1; lia).
  { rewrite M1, A1. exact Hsd. }
  { lia. }
  unfold heap in *. rewrite E2. exists h2. split; [reflexivity|].
  assert (Hhalf : forall n, 0 <= n -> n - (n - 0 + 1) / 2 = n / 2).
  { intros n Hn0. rewrite Z.sub_0_r.
    pose proof (Z.div_mod n 2 ltac:(lia)) as D1.
    pose proof (Z.mod_pos_bound n 2 ltac:(lia)) as B1.
    pose proof (Z.div_mod (n + 1) 2 ltac:(lia)) as D2.
    pose proof (Z.mod_pos_bound (n + 1) 2 ltac:(lia)) as B2.
    lia. }
  split; [|split; [|split]].
  - rewrite M2, N1. apply Hhalf. exact Hn.
  - rewrite N2, M1. apply Hhalf. exact Hm.
  - intros s (j & Hj & E). apply S1. exists j. rewrite <- M2, <- A2. auto.
  - intros d Hd. apply S2 in Hd. destruct Hd as (j & Hj & E).
    exists j. rewrite <- M1, <- A1. auto.
Qed.

Lemma port_disconnect_all_leaves_half_witness :
  exists h',
    port_disconnect_all 5 hub_heap 0 = Some (0, h') /\
    num_srcs (h' 0) = 1 /\ num_dests (h' 0) = 1.
Proof.
  destruct (port_disconnect_all_leaves_half 5 hub_heap 0)
    as (h' & E & Hs & Hd & _);
    [cbn; lia | cbn; lia | cbn; intros j Hj; lia | cbn; intros j Hj; lia
    | cbn; lia | cbn; lia |].
  exists h'. split; [exact E|]. split; [exact Hs | exact Hd].
Defined.

(** X2: on a well-formed graph the edges behave as a set of pairs under
    the two operations.  [port_disconnect (src, dest)] removes the pair
    and nothing else; [port_connect (src, dest)] adds the pair and nothing
    else when the kinds are compatible, and acts as the disconnect when
    they are not; the graph is well-formed afterwards, so that connecting a
    pair twice never lists it twice. *)
Theorem edges_form_a_set (h : heap) (o : op) :
  graph_wf h ->
  graph_wf (run_op h o) /\
  forall a b,
    in_dests (run_op h o) a b <->
    match o with
    | Connect src dest _ =>
        if kinds_compatible h src dest
        then in_dests h a b \/ (a = src /\ b = dest)
        else in_dests h a b /\ ~ (a = src /\ b = dest)
    | Disconnect src dest => in_dests h a b /\ ~ (a = src /\ b = dest)
    end.
Proof.
  intros Hwf. pose proof Hwf as (Hc & Hn & Hl).
  assert (Hdis : forall src dest a b,
            in_dests (snd (port_disconnect h src dest)) a b <->
            in_dests h a b /\ ~ (a = src /\ b = dest)).
  { intros src dest a b. split.
    - intros H. split; [apply (disconnect_in_dests_sub h src dest); exact H|].
      intros (-> & ->). revert H. apply disconnect_in_dests_gone. apply Hn.
    - intros (H & Hne). apply disconnect_in_dests_other; [|exact H].
      destruct (Z.eq_dec a src); [|tauto]. destruct (Z.eq_dec b dest); tauto. }
  destruct o as [src dest locked | src dest]; cbn [run_op].
  - split; [apply connect_wf; exact Hwf|]. intros a b.
    rewrite port_connect_heap.
    destruct (kinds_compatible h src dest); [|apply Hdis].
    rewrite append_in_dests by (apply (disconnect_counters h src dest Hc)).
    rewrite Hdis.
    destruct (Z.eq_dec a src); destruct (Z.eq_dec b dest); tauto.
  - split; [apply disconnect_wf; exact Hwf | apply Hdis].
Qed.

Lemma edges_form_a_set_witness :
  in_dests (run_op (run_op audio_heap (Connect 1 2 0)) (Connect 1 2 1)) 1 2 /\
  num_dests (run_op (run_op audio_heap (Connect 1 2 0)) (Connect 1 2 1) 1) = 1.
Proof.
  assert (Hwf : graph_wf audio_heap).
  { apply blank_heap_wf. intros p. split; reflexivity. }
  destruct (edges_form_a_set audio_heap (Connect 1 2 0) Hwf) as (Hwf1 & _).
  destruct (edges_form_a_set (run_op audio_heap (Connect 1 2 0)) (Connect 1 2 1) Hwf1)
    as (_ & H).
  assert (K : kinds_compatible (run_op audio_heap (Connect 1 2 0)) 1 2 = true)
    by (vm_compute; reflexivity).
  specialize (H 1 2). cbv beta iota in H. rewrite K in H.
  split; [|vm_compute; reflexivity].
  apply H. right. split; reflexivity.
Defined.

(** X3: after a successful [port_connect] from a port whose destinations
    are listed once each, the new connection is the last of the list and
    the only one to [dest]; its multiplier is 1.0, it is enabled, its lock
    flag is the one given, and its identifier slot holds the identifier of
    [dest]. *)
Theorem port_connect_new_edge_is_last (h : heap) (src dest : ptr) (locked : Z) :
  0 <= num_dests (h src) ->
  array_nodup (dests (h src)) (num_dests (h src)) ->
  kinds_compatible h src dest = true ->
  let h' := snd (port_connect h src dest locked) in
  let last := num_dests (h' src) - 1 in
  0 <= last /\
  dests (h' src) last = dest /\
  (forall j, 0 <= j < last -> dests (h' src) j <> dest) /\
  multipliers (h' src) last = F32.one /\
  dest_locked (h' src) last = locked /\
  dest_enabled (h' src) last = 1 /\
  dest_ids (h' src) last = identifier (h dest).
Proof.
  intros Hn Hnd Hk. cbv zeta. rewrite port_connect_heap, Hk.
  set (h1 := snd (port_disconnect h src dest)).
  destruct (port_disconnect_fields h src dest) as (_ & _ & _ & Dd & _).
  fold h1 in Dd.
  pose proof (side_deleted_nonneg _ _ _ _ _ _ _ Dd Hn) as Hn1.
  pose proof (side_deleted_gone _ _ _ _ _ _ _ Dd Hnd) as Hgone.
  destruct (port_connect_append_fields h1 src dest locked src)
    as (_ & _ & _ & _ & _ & En & Ed & Ei & _).
  destruct (port_connect_append_settings h1 src dest locked src) as (Em & El & Ee).
  rewrite En, Z.eqb_refl.
  replace (num_dests (h1 src) + 1 - 1) with (num_dests (h1 src)) by lia.
  rewrite Ed, Ei, Em, El, Ee, !Z.eqb_refl. cbn [andb].
  split; [exact Hn1|]. split; [reflexivity|]. split.
  { intros j Hj. rewrite Ed, Z.eqb_refl. cbn [andb].
    destruct (Z.eqb_spec j (num_dests (h1 src))); [lia|].
    intros E. apply Hgone. exists j. split; [exact Hj | exact E]. }
  repeat (split; [reflexivity|]).
  apply (disconnect_identifier h src dest dest).
Qed.

Lemma port_connect_new_edge_is_last_witness :
  let h' := snd (port_connect (snd (port_connect audio_heap 1 2 0)) 1 3 1) in
  dests (h' 1) 1 = 3 /\ multipliers (h' 1) 1 = F32.one /\
  dest_locked (h' 1) 1 = 1 /\ dest_enabled (h' 1) 1 = 1.
Proof.
  destruct (port_connect_new_edge_is_last (snd (port_connect audio_heap 1 2 0)) 1 3 1)
    as (_ & H1 & _ & H2 & H3 & H4 & _).
  - vm_compute. discriminate.
  - intros i j Hi Hj _. cbn in Hi, Hj. lia.
  - reflexivity.
  - cbv zeta. repeat split; assumption.
Defined.

(** X4: [port_disconnect] moves the pointers and the identifiers of the
    later destinations one slot down, but leaves the arrays of multipliers,
    lock flags and enable flags as they are.  When the connection to [dest]
    is removed from slot [k], each connection that was in a slot [j + 1]
    above [k] is in slot [j] afterwards, next to the multiplier and the
    flags that slot [j] held before. *)
Theorem port_disconnect_keeps_settings_in_place (h : heap) (src dest : ptr) (k : Z) :
  0 <= k < num_dests (h src) ->
  dests (h src) k = dest ->
  (forall i, 0 <= i < k -> dests (h src) i <> dest) ->
  let h' := snd (port_disconnect h src dest) in
  num_dests (h' src) = num_dests (h src) - 1 /\
  forall j, k <= j < num_dests (h' src) ->
    dests (h' src) j = dests (h src) (j + 1) /\
    dest_ids (h' src) j = dest_ids (h src) (j + 1) /\
    multipliers (h' src) j = multipliers (h src) j /\
    dest_locked (h' src) j = dest_locked (h src) j /\
    dest_enabled (h' src) j = dest_enabled (h src) j.
Proof.
  intros Hk Ek Hfirst. cbv zeta.
  destruct (port_disconnect_fields h src dest) as (He & _ & _ & Dd & _).
  destruct (same_but_edges_fields _ _ (He src))
    as (_ & _ & _ & _ & Em & El & Ee & _).
  destruct Dd as [(Hno & _) | (k' & Hk' & Ek' & Hfirst' & En & Ea & Ei)].
  { exfalso. exact (Hno k Hk Ek). }
  assert (k' = k).
  { destruct (Z.lt_trichotomy k' k) as [Hlt|[Heq|Hgt]]; [|exact Heq|].
    - exfalso. apply (Hfirst k'); [lia | exact Ek'].
    - exfalso. apply (Hfirst' k); [lia | exact Ek]. }
  subst k'. split; [exact En|].
  intros j Hj. rewrite En in Hj. rewrite Ea, Ei, Em, El, Ee. unfold shifted.
  destruct (Z.leb_spec k j); [|lia].
  destruct (Z.ltb_spec j (num_dests (h src) - 1)); [|lia].
  cbn [andb]. repeat split.
Qed.

Lemma port_disconnect_keeps_settings_in_place_witness :
  let h := snd (port_connect (snd (port_connect audio_heap 1 2 0)) 1 3 1) in
  let h' := snd (port_disconnect h 1 2) in
  dests (h' 1) 0 = 3 /\ dest_locked (h 1) 1 = 1 /\ dest_locked (h' 1) 0 = 0.
Proof.
  destruct (port_disconnect_keeps_settings_in_place
              (snd (port_connect (snd (port_connect audio_heap 1 2 0)) 1 3 1)) 1 2 0)
    as (_ & H).
  - vm_compute. split; [discriminate | reflexivity].
  - reflexivity.
  - intros i Hi. lia.
  - destruct (H 0) as (H1 & _ & _ & H2 & _).
    + vm_compute. split; [discriminate | reflexivity].
    + cbv zeta. split; [exact H1|]. split; [reflexivity | exact H2].
Defined.

(** X5: [port_connect] and [port_disconnect] write no port but their two
    arguments, and of no port the identifier, the kind of backing, the
    sample buffer, the events or the LV2 data. *)
Theorem connect_disconnect_touch_two_ports (h : heap) (src dest : ptr) (locked : Z) :
  (forall p, p <> src -> p <> dest ->
     snd (port_connect h src dest locked) p = h p /\
     snd (port_disconnect h src dest) p = h p) /\
  (forall p, same_payload (h p) (snd (port_connect h src dest locked) p) /\
             same_payload (h p) (snd (port_disconnect h src dest) p)).
Proof.
  assert (Hpay : forall p, same_payload (h p) (snd (port_disconnect h src dest) p)).
  { intros p. destruct (port_disconnect_fields h src dest) as (He & _).
    destruct (same_but_edges_fields _ _ (He p))
      as (E1 & E2 & E3 & E4 & _ & _ & _ & _ & E5).
    unfold same_payload. auto. }
  split.
  - intros p Hs Hd. split; [|apply port_disconnect_other; assumption].
    rewrite port_connect_heap. destruct (kinds_compatible h src dest).
    + rewrite port_connect_append_other by assumption.
      apply port_disconnect_other; assumption.
    + apply port_disconnect_other; assumption.
  - intros p. split; [|apply Hpay].
    rewrite port_connect_heap. destruct (kinds_compatible h src dest); [|apply Hpay].
    destruct (port_connect_append_fields (snd (port_disconnect h src dest))
                src dest locked p) as (E1 & E2 & E3 & E4 & E5 & _).
    destruct (Hpay p) as (F1 & F2 & F3 & F4 & F5).
    unfold same_payload. rewrite E1, E2, E3, E4, E5. auto.
Qed.

End RoutingProperties.

(** ** Further properties of the port processing *)

(** Case analysis on the test of the first conditional of the goal. *)
Ltac case_if :=
  match goal with
  | |- context [if ?c then _ else _] => destruct c
  end.

Section SignalFacts.

Import C Port Graph Processing Signal.

Lemma for_steps_rel {S : Type} (R : S -> S -> Prop) (body : Z -> S -> S) :
  (forall s, R s s) ->
  (forall a b c, R a b -> R b c -> R a c) ->
  (forall i s, R s (body i s)) ->
  forall n lo s, R s (for_steps n lo body s).
Proof.
  intros Hrefl Htrans Hbody n; induction n as [|n IH]; intros lo s; cbn [for_steps].
  - apply Hrefl.
  - eapply Htrans; [apply Hbody | apply IH].
Qed.

Lemma in_zrange (lo : Z) (n : nat) (x : Z) :
  In x (zrange lo n) <-> lo <= x < lo + Z.of_nat n.
Proof.
  unfold zrange. rewrite in_map_iff. split.
  - intros (k & <- & Hk). apply in_seq in Hk. lia.
  - intros Hx. exists (Z.to_nat (x - lo)). split; [lia|]. apply in_seq. lia.
Qed.

Lemma same_but_signal_refl (P : Port) : same_but_signal P P.
Proof.
  unfold same_but_signal. destruct P as [? ? ? ? ? ? ? ? ? ? ? ? ? ? []]; reflexivity.
Qed.

Lemma same_but_signal_trans (P Q R : Port) :
  same_but_signal P Q -> same_but_signal Q R -> same_but_signal P R.
Proof.
  unfold same_but_signal. intros H1 H2. rewrite H2, H1. reflexivity.
Qed.

Lemma same_but_signal_buf (P : Port) (b : array F32.float) :
  same_but_signal P (set_buf b P).
Proof.
  unfold same_but_signal. destruct P as [? ? ? ? ? ? ? ? ? ? ? ? ? ? []]; reflexivity.
Qed.

Lemma same_but_signal_events (P : Port) (e : Midi.MidiEvents) :
  same_but_signal P (set_midi_events e P).
Proof.
  unfold same_but_signal. destruct P as [? ? ? ? ? ? ? ? ? ? ? ? ? ? []]; reflexivity.
Qed.

Lemma same_but_signal_control (P : Port) (v : F32.float) :
  same_but_signal P (set_lv2_port_control v P).
Proof.
  unfold same_but_signal. destruct P as [? ? ? ? ? ? ? ? ? ? ? ? ? ? []]; reflexivity.
Qed.

Lemma same_but_events_refl (P : Port) : same_but_events P P.
Proof. unfold same_but_events. destruct P; reflexivity. Qed.

Lemma same_but_events_set (P P' : Port) (e : Midi.MidiEvents) :
  same_but_events P P' -> same_but_events P (set_midi_events e P').
Proof. unfold same_but_events. intros H. rewrite H. reflexivity. Qed.

Lemma same_but_events_fields (P P' : Port) :
  same_but_events P P' ->
  identifier P' = identifier P /\ internal_type P' = internal_type P /\
  srcs P' = srcs P /\ num_srcs P' = num_srcs P.
Proof. unfold same_but_events. intros H. rewrite H. repeat split. Qed.

Lemma same_but_buf_fields (P P' : Port) :
  same_but_buf P P' ->
  identifier P' = identifier P /\ internal_type P' = internal_type P /\
  srcs P' = srcs P /\ num_srcs P' = num_srcs P /\ midi_events P' = midi_events P.
Proof. unfold same_but_buf. intros H. rewrite H. repeat split. Qed.

(** A loop whose step [i] rewrites frame [i] of one port from its old
    value and from the other ports. *)
Lemma for_steps_buf_update_from (port : ptr)
    (G : heap -> Z -> F32.float -> F32.float) (body : Z -> heap -> heap) :
  (forall i h,
     same_but_buf (h port) (body i h port) /\
     (forall j, buf (body i h port) j =
                if j =? i then G h i (buf (h port) i) else buf (h port) j) /\
     (forall q, q <> port -> body i h q = h q)) ->
  (forall h h' i v, (forall q, q <> port -> h' q = h q) -> G h' i v = G h i v) ->
  forall n lo h,
    same_but_buf (h port) (for_steps n lo body h port) /\
    (forall j, buf (for_steps n lo body h port) j =
               if in_frames lo (lo + Z.of_nat n) j
               then G h j (buf (h port) j) else buf (h port) j) /\
    (forall q, q <> port -> for_steps n lo body h q = h q).
Proof.
  intros Hbody HG n; induction n as [|n IH]; intros lo h; cbn [for_steps].
  - split; [apply same_but_buf_refl|]. split; [|reflexivity].
    intros j. unfold in_frames. zcases.
  - destruct (Hbody lo h) as (B1 & B2 & B3).
    destruct (IH (lo + 1) (body lo h)) as (I1 & I2 & I3).
    split; [eapply same_but_buf_trans; eassumption|]. split.
    + intros j. rewrite I2, !B2. rewrite (HG h (body lo h) j) by exact B3.
      unfold in_frames. zcases.
    + intros q Hq. rewrite I3, B3 by assumption. reflexivity.
Qed.

Lemma takes_jack_input_guard (P : Port) :
  PortOwnerType_eqb (owner_type (identifier P)) PORT_OWNER_TYPE_BACKEND
  || negb (PortInternalType_eqb (internal_type P) INTERNAL_JACK_PORT)
  || negb (PortFlow_eqb (flow (identifier P)) FLOW_INPUT)
  = negb (takes_jack_input P).
Proof.
  unfold takes_jack_input.
  destruct (PortOwnerType_eqb _ _), (PortInternalType_eqb _ _), (PortFlow_eqb _ _);
    reflexivity.
Qed.

Lemma sum_data_from_jack_skips (jb : ptr -> array F32.float)
    (jm : ptr -> Midi.MidiEvents) (h : heap) (self : ptr) (start_frame nframes : Z) :
  takes_jack_input (h self) = false ->
  port_sum_data_from_jack jb jm h self start_frame nframes = h.
Proof.
  intros H. unfold port_sum_data_from_jack.
  rewrite takes_jack_input_guard, H. reflexivity.
Qed.

(** What [port_receive_audio_data_from_jack] does to a JACK audio port. *)
Lemma receive_audio_frames (jb : ptr -> array F32.float) (h : heap) (port : ptr)
    (start_frames nframes : Z) :
  internal_type (h port) = INTERNAL_JACK_PORT ->
  type (identifier (h port)) = TYPE_AUDIO ->
  let h' := port_receive_audio_data_from_jack jb h port start_frames nframes in
  same_but_buf (h port) (h' port) /\
  (forall l, buf (h' port) l =
             if in_frames start_frames (start_frames + nframes) l
             then F32.add (buf (h port) l) (jb port l) else buf (h port) l) /\
  (forall q, q <> port -> h' q = h q).
Proof.
  intros Hi Ht. cbv zeta. unfold port_receive_audio_data_from_jack.
  rewrite Hi, Ht. cbn [PortInternalType_eqb PortType_eqb negb orb]. unfold for_range.
  match goal with
  | |- context [for_steps ?n ?lo ?b h] =>
      pose proof (for_steps_buf_update port (fun l v => F32.add v (jb port l)) b) as L
  end.
  cbv beta in L.
  match type of L with
  | ?A -> _ => assert (Hb : A)
  end.
  { intros i h0. rewrite store_same.
    split; [apply same_but_buf_set|]. split; [intros j; reflexivity|].
    intros q Hq. apply store_other. assumption. }
  specialize (L Hb (Z.to_nat (start_frames + nframes - start_frames)) start_frames h).
  destruct L as (L1 & L2 & L3).
  split; [exact L1|]. split; [|exact L3].
  intros l. rewrite L2. unfold in_frames. zcases.
Qed.

(** The relation between the heap before and the heap after a piece of
    port processing that writes the signal of one port only. *)
Let writes_signal_of (port : ptr) (h h' : heap) : Prop :=
  (forall q, q <> port -> h' q = h q) /\ same_but_signal (h port) (h' port).

Lemma writes_signal_refl (port : ptr) (h : heap) : writes_signal_of port h h.
Proof. split; [reflexivity | apply same_but_signal_refl]. Qed.

Lemma writes_signal_trans (port : ptr) (a b c : heap) :
  writes_signal_of port a b -> writes_signal_of port b c -> writes_signal_of port a c.
Proof.
  intros (A1 & A2) (B1 & B2). split.
  - intros q Hq. rewrite B1, A1 by assumption. reflexivity.
  - eapply same_but_signal_trans; eassumption.
Qed.

Lemma writes_signal_store (port : ptr) (h : heap) (P' : Port) :
  same_but_signal (h port) P' -> writes_signal_of port h (store h port P').
Proof.
  intros H. split.
  - intros q Hq. apply store_other. assumption.
  - rewrite store_same. exact H.
Qed.

Lemma sum_data_from_jack_writes (jb : ptr -> array F32.float)
    (jm : ptr -> Midi.MidiEvents) (h : heap) (self : ptr) (start_frame nframes : Z) :
  writes_signal_of self h (port_sum_data_from_jack jb jm h self start_frame nframes).
Proof.
  unfold port_sum_data_from_jack.
  case_if; [apply writes_signal_refl|].
  apply writes_signal_trans
    with (b := port_receive_midi_events_from_jack jm h self start_frame nframes).
  - unfold port_receive_midi_events_from_jack.
    case_if; [apply writes_signal_refl|].
    apply writes_signal_store. apply same_but_signal_events.
  - unfold port_receive_audio_data_from_jack.
    case_if; [apply writes_signal_refl|].
    unfold for_range. apply for_steps_rel.
    + apply writes_signal_refl.
    + apply writes_signal_trans.
    + intros i s. apply writes_signal_store. apply same_but_signal_buf.
Qed.

Lemma port_sum_signal_writes (jb : ptr -> array F32.float)
    (jm : ptr -> Midi.MidiEvents) (h : heap) (port : ptr)
    (start_frame nframes : Z) (noroll : bool) :
  writes_signal_of port h
    (port_sum_signal_from_inputs jb jm h port start_frame nframes noroll).
Proof.
  unfold port_sum_signal_from_inputs, port_send_data_to_jack.
  destruct (type (identifier (h port))); try apply writes_signal_refl.
  - (* control *)
    unfold for_range.
    apply (for_steps_rel
             (fun s s' : heap * bool => writes_signal_of port (fst s) (fst s'))).
    + intros s. apply writes_signal_refl.
    + intros a b c. apply writes_signal_trans.
    + intros i [hc fc]. cbn [fst].
      case_if; [|apply writes_signal_refl].
      destruct fc; cbn [fst]; apply writes_signal_store; apply same_but_signal_control.
  - (* audio *)
    destruct noroll.
    + unfold for_range. apply for_steps_rel.
      * apply writes_signal_refl.
      * apply writes_signal_trans.
      * intros i s. apply writes_signal_store. apply same_but_signal_buf.
    + cbv zeta. eapply writes_signal_trans; [apply sum_data_from_jack_writes|].
      unfold for_range. apply for_steps_rel.
      * apply writes_signal_refl.
      * apply writes_signal_trans.
      * intros k s. apply for_steps_rel.
        -- apply writes_signal_refl.
        -- apply writes_signal_trans.
        -- intros l s'. apply writes_signal_store. apply same_but_signal_buf.
  - (* event *)
    destruct noroll; [apply writes_signal_refl|].
    cbv zeta. eapply writes_signal_trans; [apply sum_data_from_jack_writes|].
    unfold for_range. apply for_steps_rel.
    + apply writes_signal_refl.
    + apply writes_signal_trans.
    + intros k s. apply writes_signal_store. apply same_but_signal_events.
Qed.

End SignalFacts.

Section SumLoops.

Import C Port Graph Processing Signal.

Variables (h : heap) (port : ptr).

(** The loop over the sources of an audio port. *)
Lemma audio_sum_loop (start stop : Z) :
  forall (n : nat) (lo : Z) (hc : heap),
    (forall k, lo <= k < lo + Z.of_nat n -> srcs (h port) k <> port) ->
    (forall q, q <> port -> hc q = h q) ->
    same_but_buf (h port) (hc port) ->
    let res :=
      for_steps n lo
        (fun k h0 =>
           for_range start stop
             (fun l h1 =>
                store h1 port
                  (set_buf
                     (array_set (buf (h1 port)) l
                        (F32.add (buf (h1 port) l) (buf (h1 (srcs (h0 port) k)) l)))
                     (h1 port)))
             h0)
        hc in
    (forall q, q <> port -> res q = h q) /\
    same_but_buf (h port) (res port) /\
    (forall l, buf (res port) l =
               if in_frames start stop l
               then sum_frame h (map (srcs (h port)) (zrange lo n)) l (buf (hc port) l)
               else buf (hc port) l).
Proof.
  induction n as [|n IH]; intros lo hc Hself Hother Hport; cbv zeta.
  - cbn [for_steps]. split; [exact Hother|]. split; [exact Hport|].
    intros l. cbn. destruct (in_frames start stop l); reflexivity.
  - cbn [for_steps]. rewrite zrange_succ. cbn [map].
    destruct (same_but_buf_fields _ _ Hport) as (_ & _ & Esrcs & _).
    set (s := srcs (hc port) lo).
    assert (Es : s = srcs (h port) lo) by (subst s; rewrite Esrcs; reflexivity).
    assert (Hs : s <> port) by (rewrite Es; apply Hself; lia).
    match goal with
    | |- context [for_range start stop ?b hc] => set (body := b) in *
    end.
    pose proof (for_steps_buf_update_from port
                  (fun h1 l v => F32.add v (buf (h1 s) l)) body) as L.
    set (inner := for_range start stop body hc) in *.
    subst body. cbv beta in L.
    match type of L with
    | ?A -> _ => assert (Hb : A)
    end.
    { intros i h1. rewrite store_same.
      split; [apply same_but_buf_set|]. split; [intros j; reflexivity|].
      intros q Hq. apply store_other. assumption. }
    specialize (L Hb).
    match type of L with
    | ?A -> _ => assert (HG : A)
    end.
    { intros h1 h2 i v Hq. rewrite (Hq s Hs). reflexivity. }
    specialize (L HG (Z.to_nat (stop - start)) start hc).
    change (for_steps (Z.to_nat (stop - start)) start _ hc) with inner in L.
    destruct L as (L1 & L2 & L3).
    destruct (IH (lo + 1) inner) as (I1 & I2 & I3).
    + intros k Hk. apply Hself. lia.
    + intros q Hq. rewrite L3 by assumption. apply Hother. exact Hq.
    + eapply same_but_buf_trans; eassumption.
    + cbv zeta in I1, I2, I3. split; [exact I1|]. split; [exact I2|].
      intros l. rewrite I3, L2.
      replace (in_frames start (start + Z.of_nat (Z.to_nat (stop - start))) l)
        with (in_frames start stop l) by (unfold in_frames; zcases).
      destruct (in_frames start stop l); [|reflexivity].
      unfold sum_frame. cbn [fold_left].
      rewrite (Hother s Hs), Es. reflexivity.
Qed.

(** The loop over the sources of an event port. *)
Lemma event_merge_loop (start_frame nframes : Z) :
  forall (n : nat) (lo : Z) (hc : heap),
    (forall k, lo <= k < lo + Z.of_nat n -> srcs (h port) k <> port) ->
    (forall q, q <> port -> hc q = h q) ->
    same_but_events (h port) (hc port) ->
    let res :=
      for_steps n lo
        (fun k h0 =>
           store h0 port
             (set_midi_events
                (midi_events_append (midi_events (h0 (srcs (h0 port) k)))
                   (midi_events (h0 port)) start_frame nframes 0)
                (h0 port)))
        hc in
    (forall q, q <> port -> res q = h q) /\
    same_but_events (h port) (res port) /\
    midi_events (res port) =
      midi_events (hc port) ++
      List.concat (map (fun s => events_in_cycle start_frame nframes (midi_events (h s)))
                (map (srcs (h port)) (zrange lo n))).
Proof.
  induction n as [|n IH]; intros lo hc Hself Hother Hport; cbv zeta.
  - cbn [for_steps]. split; [exact Hother|]. split; [exact Hport|].
    cbn. rewrite app_nil_r. reflexivity.
  - cbn [for_steps]. rewrite zrange_succ. cbn [map concat].
    destruct (same_but_events_fields _ _ Hport) as (_ & _ & Esrcs & _).
    assert (Hs : srcs (hc port) lo <> port) by (rewrite Esrcs; apply Hself; lia).
    match goal with
    | |- context [for_steps n (lo + 1) _ ?hn] =>
        destruct (IH (lo + 1) hn) as (I1 & I2 & I3)
    end.
    + intros k Hk. apply Hself. lia.
    + intros q Hq. rewrite store_other by assumption. apply Hother. exact Hq.
    + rewrite store_same. apply same_but_events_set. exact Hport.
    + cbv zeta in I1, I2, I3. split; [exact I1|]. split; [exact I2|].
      rewrite I3, store_same. cbn [midi_events set_midi_events].
      unfold midi_events_append. rewrite (Hother _ Hs), Esrcs, <- app_assoc.
      reflexivity.
Qed.

End SumLoops.

Section ClampFacts.

Import C Port Graph Processing Signal.

Lemma Pos_compare_cont_refl (m : positive) : Pos.compare_cont Eq m m = Eq.
Proof. exact (Pos.compare_refl m). Qed.

Lemma ltb_irrefl (x : F32.float) : F32.ltb x x = false.
Proof.
  unfold F32.ltb, SFltb, SFcompare.
  destruct x as [s|s| |s m e]; try (destruct s; reflexivity); try reflexivity.
  rewrite Z.compare_refl, Pos_compare_cont_refl. destruct s; reflexivity.
Qed.

(** [CLAMP] gives a value that is neither above [high] nor below [low],
    unless [high] is below [low]. *)
Lemma CLAMP_in_range (x low high : F32.float) :
  F32.ltb high low = false ->
  F32.ltb high (CLAMP F32.ltb x low high) = false /\
  F32.ltb (CLAMP F32.ltb x low high) low = false.
Proof.
  intros H. unfold CLAMP.
  destruct (F32.ltb high x) eqn:E1.
  - split; [apply ltb_irrefl | exact H].
  - destruct (F32.ltb x low) eqn:E2.
    + split; [exact H | apply ltb_irrefl].
    + split; assumption.
Qed.

Lemma filter_none {A : Type} (f : A -> bool) (l : list A) :
  (forall x, In x l -> f x = false) -> filter f l = [].
Proof.
  induction l as [|a l IH]; intros H; [reflexivity|].
  cbn [filter]. rewrite (H a) by (left; reflexivity).
  apply IH. intros x Hx. apply H. right. exact Hx.
Qed.

Lemma spec_fold_last (minf maxf base : F32.float)
    (l : list (F32.float * F32.float)) (st : F32.float * bool) :
  l <> [] ->
  exists v cv mult,
    fst (fold_left (spec_step minf maxf base) l st) = modulate minf maxf v cv mult.
Proof.
  intros Hne. destruct (exists_last Hne) as (l' & x & ->).
  rewrite fold_left_app. cbn [fold_left]. unfold spec_step at 1. cbn [fst].
  eauto.
Qed.

(** The current value of a control port after
    [port_sum_signal_from_inputs], and what the call leaves alone. *)
Lemma control_sum_value (jb : ptr -> array F32.float)
    (jm : ptr -> Midi.MidiEvents) (h : heap) (port : ptr)
    (start_frame nframes : Z) (noroll : bool) :
  type (identifier (h port)) = TYPE_CONTROL ->
  let h' := port_sum_signal_from_inputs jb jm h port start_frame nframes noroll in
  (forall q, q <> port -> h' q = h q) /\
  same_but_control (h port) (h' port) /\
  control (lv2_port (h' port)) =
    control_value_spec (minf (lv2_control (lv2_port (h port))))
      (maxf (lv2_control (lv2_port (h port)))) (base_value (h port))
      (control (lv2_port (h port))) (cv_inputs h port).
Proof.
  intros Hc. cbv zeta. unfold port_sum_signal_from_inputs. rewrite Hc.
  unfold for_range. rewrite Z.sub_0_r.
  match goal with
  | |- context [for_steps _ 0 ?b (h, true)] => set (body := b)
  end.
  assert (Hbody : forall k hc fc,
             body k (hc, fc) =
             if is_cv hc (srcs (hc port) k) then
               (store hc port
                  (set_lv2_port_control
                     (modulate (minf (lv2_control (lv2_port (hc port))))
                        (maxf (lv2_control (lv2_port (hc port))))
                        (if fc then base_value (hc port)
                         else control (lv2_port (hc port)))
                        (buf (hc (srcs (hc port) k)) 0)
                        (multipliers (hc (srcs (hc port) k))
                           (port_get_dest_index hc (srcs (hc port) k) port)))
                     (hc port)),
                false)
             else (hc, fc)).
  { intros k hc fc. subst body. cbv beta iota. unfold is_cv.
    destruct (PortType_eqb (type (identifier (hc (srcs (hc port) k)))) TYPE_CV);
      [destruct fc|]; reflexivity. }
  clearbody body.
  destruct (control_loop h port Hc body Hbody (Z.to_nat (num_srcs (h port))) 0 h true)
    as ((Hother & Hport) & Hval).
  { split; [reflexivity | apply same_but_control_refl]. }
  split; [exact Hother|]. split; [exact Hport|].
  unfold control_value_spec, cv_inputs, live_srcs.
  rewrite <- Hval. reflexivity.
Qed.

End ClampFacts.

Section SignalProperties.

Import C Port Graph Processing Signal.

Lemma for_range_from_zero {S : Type} (n : Z) (body : Z -> S -> S) (s : S) :
  for_range 0 n body s = for_steps (Z.to_nat n) 0 body s.
Proof. unfold for_range. rewrite Z.sub_0_r. reflexivity. Qed.

(** X6: [port_apply_fader] multiplies by [amp] the samples of the frames
    [start_frame <= l < start_frame + nframes] that are not zero, and leaves
    every other sample, every other field of the port and every other port
    as it was. *)
Theorem port_apply_fader_frames (h : heap) (port : ptr) (amp : F32.float)
    (start_frame nframes : Z) :
  let h' := port_apply_fader h port amp start_frame nframes in
  same_but_buf (h port) (h' port) /\
  (forall q, q <> port -> h' q = h q) /\
  (forall l, buf (h' port) l =
             if in_frames start_frame (start_frame + nframes) l
                && negb (F32.eqb (buf (h port) l) F32.zero)
             then F32.mul (buf (h port) l) amp
             else buf (h port) l).
Proof.
  cbv zeta. unfold port_apply_fader, for_range.
  match goal with
  | |- context [for_steps ?n ?lo ?b h] =>
      pose proof (for_steps_buf_update port
        (fun _ v => if negb (F32.eqb v F32.zero) then F32.mul v amp else v) b) as L
  end.
  cbv beta in L.
  match type of L with
  | ?A -> _ => assert (Hb : A)
  end.
  { intros i h0. destruct (F32.eqb (buf (h0 port) i) F32.zero) eqn:E0; cbn [negb].
    - split; [apply same_but_buf_refl|]. split; [|reflexivity].
      intros j. destruct (Z.eqb_spec j i); subst; reflexivity.
    - rewrite store_same. split; [apply same_but_buf_set|].
      split; [intros j; reflexivity|].
      intros q Hq. apply store_other. assumption. }
  specialize (L Hb (Z.to_nat (start_frame + nframes - start_frame)) start_frame h).
  destruct L as (L1 & L2 & L3).
  split; [exact L1|]. split; [exact L3|].
  intros l. rewrite L2. unfold in_frames.
  destruct (F32.eqb (buf (h port) l) F32.zero); cbn [negb]; zcases.
Qed.

(** X7: with [noroll] set, the audio branch of
    [port_sum_signal_from_inputs] zeroes the frames
    [start_frame <= l < nframes] and no other: its loop stops at [nframes],
    not at [start_frame + nframes], so that the frames from [nframes] on
    keep their samples even when they belong to the cycle. *)
Theorem audio_noroll_zeroes_below_nframes (jb : ptr -> array F32.float)
    (jm : ptr -> Midi.MidiEvents) (h : heap) (port : ptr) (start_frame nframes : Z) :
  type (identifier (h port)) = TYPE_AUDIO ->
  let h' := port_sum_signal_from_inputs jb jm h port start_frame nframes true in
  same_but_buf (h port) (h' port) /\
  (forall q, q <> port -> h' q = h q) /\
  (forall l, buf (h' port) l =
             if in_frames start_frame nframes l then F32.zero else buf (h port) l) /\
  (forall l, nframes <= l -> buf (h' port) l = buf (h port) l).
Proof.
  intros Ht. cbv zeta. unfold port_sum_signal_from_inputs. rewrite Ht.
  unfold for_range.
  match goal with
  | |- context [for_steps ?n ?lo ?b h] =>
      pose proof (for_steps_buf_update port (fun _ _ => F32.zero) b) as L
  end.
  cbv beta in L.
  match type of L with
  | ?A -> _ => assert (Hb : A)
  end.
  { intros i h0. rewrite store_same. split; [apply same_but_buf_set|].
    split; [intros j; reflexivity|].
    intros q Hq. apply store_other. assumption. }
  specialize (L Hb (Z.to_nat (nframes - start_frame)) start_frame h).
  destruct L as (L1 & L2 & L3).
  assert (Hframes : forall l,
            buf (for_steps (Z.to_nat (nframes - start_frame)) start_frame
                   (fun l0 h0 =>
                      store h0 port
                        (set_buf (array_set (buf (h0 port)) l0 F32.zero) (h0 port)))
                   h port) l =
            if in_frames start_frame nframes l then F32.zero else buf (h port) l).
  { intros l. rewrite L2. unfold in_frames. zcases. }
  split; [exact L1|]. split; [exact L3|]. split; [exact Hframes|].
  intros l Hl. rewrite Hframes. unfold in_frames.
  destruct (Z.ltb_spec l nframes); [lia|]. rewrite andb_false_r. reflexivity.
Qed.

Lemma audio_noroll_zeroes_below_nframes_witness :
  let h' := port_sum_signal_from_inputs no_jack_buffer no_jack_events
              right_heap 0 2 2 true in
  buf (h' 0) 2 = F32.one /\ buf (h' 0) 3 = F32.one.
Proof.
  destruct (audio_noroll_zeroes_below_nframes no_jack_buffer no_jack_events
              right_heap 0 2 2 eq_refl) as (_ & _ & _ & H).
  cbv zeta. split; rewrite H; try lia; reflexivity.
Defined.

(** X8: for an audio port that takes no input from JACK and is not its
    own source, [port_sum_signal_from_inputs] adds to each frame
    [start_frame <= l < nframes] the samples of the sources at that frame,
    in the order of the source list, and leaves the other frames, the other
    fields of the port and the other ports as they were.  The upper end of
    the summed frames is [nframes], whatever [start_frame] is. *)
Theorem audio_sum_frames (jb : ptr -> array F32.float)
    (jm : ptr -> Midi.MidiEvents) (h : heap) (port : ptr) (start_frame nframes : Z) :
  type (identifier (h port)) = TYPE_AUDIO ->
  takes_jack_input (h port) = false ->
  (forall k, 0 <= k < num_srcs (h port) -> srcs (h port) k <> port) ->
  let h' := port_sum_signal_from_inputs jb jm h port start_frame nframes false in
  same_but_buf (h port) (h' port) /\
  (forall q, q <> port -> h' q = h q) /\
  (forall l, buf (h' port) l =
             if in_frames start_frame nframes l
             then sum_frame h (live_srcs h port) l (buf (h port) l)
             else buf (h port) l).
Proof.
  intros Ht Hj Hself. cbv zeta. unfold port_sum_signal_from_inputs. rewrite Ht.
  cbv zeta. rewrite sum_data_from_jack_skips by exact Hj.
  unfold port_send_data_to_jack. rewrite for_range_from_zero.
  destruct (audio_sum_loop h port start_frame nframes
              (Z.to_nat (num_srcs (h port))) 0 h) as (A1 & A2 & A3).
  - intros k Hk. apply Hself. lia.
  - reflexivity.
  - apply same_but_buf_refl.
  - split; [exact A2|]. split; [exact A1|]. exact A3.
Qed.

Lemma audio_sum_frames_witness :
  let h' := port_sum_signal_from_inputs no_jack_buffer no_jack_events
              sum_heap 0 1 3 false in
  buf (h' 0) 2 = F32.of_Z 6 /\ buf (h' 0) 3 = F32.zero.
Proof.
  destruct (audio_sum_frames no_jack_buffer no_jack_events sum_heap 0 1 3)
    as (_ & _ & H).
  - reflexivity.
  - reflexivity.
  - intros k Hk. cbn. lia.
  - cbv zeta. rewrite !H. split; vm_compute; reflexivity.
Defined.

(** X9: for an event port that takes no input from JACK and is not its
    own source, [port_sum_signal_from_inputs] appends to the events of the
    port those events of each source whose time lies in the frames of the
    cycle, source after source in the order of the source list and in the
    order each source holds them; with [noroll] set it changes nothing. *)
Theorem event_sum_merges_in_source_order (jb : ptr -> array F32.float)
    (jm : ptr -> Midi.MidiEvents) (h : heap) (port : ptr) (start_frame nframes : Z) :
  type (identifier (h port)) = TYPE_EVENT ->
  takes_jack_input (h port) = false ->
  (forall k, 0 <= k < num_srcs (h port) -> srcs (h port) k <> port) ->
  let h' := port_sum_signal_from_inputs jb jm h port start_frame nframes false in
  same_but_events (h port) (h' port) /\
  (forall q, q <> port -> h' q = h q) /\
  midi_events (h' port) =
    midi_events (h port) ++
    List.concat
      (map (fun s => events_in_cycle start_frame nframes (midi_events (h s)))
         (live_srcs h port)) /\
  port_sum_signal_from_inputs jb jm h port start_frame nframes true = h.
Proof.
  intros Ht Hj Hself. cbv zeta. unfold port_sum_signal_from_inputs. rewrite Ht.
  cbv zeta. rewrite sum_data_from_jack_skips by exact Hj.
  unfold port_send_data_to_jack. rewrite for_range_from_zero.
  destruct (event_merge_loop h port start_frame nframes
              (Z.to_nat (num_srcs (h port))) 0 h) as (A1 & A2 & A3).
  - intros k Hk. apply Hself. lia.
  - reflexivity.
  - apply same_but_events_refl.
  - split; [exact A2|]. split; [exact A1|]. split; [exact A3 | reflexivity].
Qed.

Lemma event_sum_merges_in_source_order_witness :
  midi_events
    (port_sum_signal_from_inputs no_jack_buffer no_jack_events merge_heap 0 0 256
       false 0)
  = [note_at 0 50; note_at 5 71; note_at 5 72].
Proof.
  destruct (event_sum_merges_in_source_order no_jack_buffer no_jack_events
              merge_heap 0 0 256) as (_ & _ & H & _).
  - reflexivity.
  - reflexivity.
  - intros k Hk. cbn. lia.
  - rewrite H. reflexivity.
Defined.

(** X10: for a control port whose declared range is not inverted,
    [port_sum_signal_from_inputs] leaves a current value that is neither
    above the maximum nor below the minimum as soon as one source is of kind
    CV, whatever the base value, the CV samples and the multipliers are; and
    without a source of kind CV it leaves the current value as it was. *)
Theorem control_sum_stays_in_range (jb : ptr -> array F32.float)
    (jm : ptr -> Midi.MidiEvents) (h : heap) (port : ptr)
    (start_frame nframes : Z) (noroll : bool) :
  type (identifier (h port)) = TYPE_CONTROL ->
  F32.ltb (maxf (lv2_control (lv2_port (h port))))
          (minf (lv2_control (lv2_port (h port)))) = false ->
  let h' := port_sum_signal_from_inputs jb jm h port start_frame nframes noroll in
  ((exists k, 0 <= k < num_srcs (h port) /\ is_cv h (srcs (h port) k) = true) ->
   F32.ltb (maxf (lv2_control (lv2_port (h port))))
           (control (lv2_port (h' port))) = false /\
   F32.ltb (control (lv2_port (h' port)))
           (minf (lv2_control (lv2_port (h port)))) = false) /\
  ((forall k, 0 <= k < num_srcs (h port) -> is_cv h (srcs (h port) k) = false) ->
   control (lv2_port (h' port)) = control (lv2_port (h port))).
Proof.
  intros Hc Hrange. cbv zeta.
  destruct (control_sum_value jb jm h port start_frame nframes noroll Hc)
    as (_ & _ & Hval).
  rewrite Hval. unfold control_value_spec, cv_inputs, live_srcs. split.
  - intros (k & Hk & Hcv).
    match goal with
    | |- context [fold_left ?f ?l ?st] =>
        destruct (spec_fold_last (minf (lv2_control (lv2_port (h port))))
                    (maxf (lv2_control (lv2_port (h port))))
                    (base_value (h port)) l st) as (v & cv & mult & E)
    end.
    + intros E. apply map_eq_nil in E.
      assert (Hin : In (srcs (h port) k)
                      (filter (is_cv h)
                         (map (srcs (h port))
                            (zrange 0 (Z.to_nat (num_srcs (h port))))))).
      { apply filter_In. split; [|exact Hcv].
        apply in_map. apply in_zrange. lia. }
      rewrite E in Hin. destruct Hin.
    + rewrite E. unfold modulate. apply CLAMP_in_range. exact Hrange.
  - intros Hno.
    replace (filter (is_cv h)
               (map (srcs (h port)) (zrange 0 (Z.to_nat (num_srcs (h port))))))
      with (@nil ptr); [reflexivity|].
    symmetry. apply filter_none. intros s Hin.
    apply in_map_iff in Hin. destruct Hin as (k & <- & Hk).
    apply in_zrange in Hk. apply Hno. lia.
Qed.

Lemma control_sum_stays_in_range_witness :
  let h' := port_sum_signal_from_inputs no_jack_buffer no_jack_events
              modulated_heap 2 0 4 false in
  F32.ltb (F32.of_Z 10) (control (lv2_port (h' 2))) = false /\
  F32.ltb (control (lv2_port (h' 2))) F32.zero = false.
Proof.
  destruct (control_sum_stays_in_range no_jack_buffer no_jack_events
              modulated_heap 2 0 4 false) as (H & _).
  - reflexivity.
  - reflexivity.
  - apply H. exists 0. split; [vm_compute; split; [discriminate | reflexivity]|].
    reflexivity.
Defined.

(** X11: [port_sum_data_from_jack] changes nothing unless the port is an
    input backed by a JACK port and not owned by the backend.  For such a
    port of kind audio it adds the samples of the JACK buffer to the frames
    [start_frame <= l < start_frame + nframes] of the buffer; for one of
    kind event it appends the JACK events whose time lies in those frames,
    in their order; and for the other kinds it changes nothing.  No other
    port is written. *)
Theorem sum_data_from_jack_effect (jb : ptr -> array F32.float)
    (jm : ptr -> Midi.MidiEvents) (h : heap) (self : ptr) (start_frame nframes : Z) :
  let h' := port_sum_data_from_jack jb jm h self start_frame nframes in
  (forall q, q <> self -> h' q = h q) /\
  (takes_jack_input (h self) = false -> h' = h) /\
  (takes_jack_input (h self) = true ->
   match type (identifier (h self)) with
   | TYPE_AUDIO =>
       same_but_buf (h self) (h' self) /\
       forall l, buf (h' self) l =
                 if in_frames start_frame (start_frame + nframes) l
                 then F32.add (buf (h self) l) (jb self l)
                 else buf (h self) l
   | TYPE_EVENT =>
       same_but_events (h self) (h' self) /\
       midi_events (h' self) =
         midi_events (h self) ++ events_in_cycle start_frame nframes (jm self)
   | _ => h' = h
   end).
Proof.
  cbv zeta. split; [|split].
  - apply (sum_data_from_jack_writes jb jm h self start_frame nframes).
  - apply sum_data_from_jack_skips.
  - intros Hj. unfold port_sum_data_from_jack.
    rewrite takes_jack_input_guard, Hj. cbn [negb].
    assert (Hi : internal_type (h self) = INTERNAL_JACK_PORT).
    { unfold takes_jack_input in Hj.
      destruct (internal_type (h self)); try reflexivity;
        cbn in Hj; rewrite ?andb_false_r in Hj; discriminate. }
    unfold port_receive_midi_events_from_jack. rewrite Hi.
    cbn [PortInternalType_eqb negb orb].
    destruct (type (identifier (h self))) eqn:Ht; cbn [PortType_eqb negb].
    + unfold port_receive_audio_data_from_jack. rewrite Ht, orb_true_r. reflexivity.
    + unfold port_receive_audio_data_from_jack. rewrite Ht, orb_true_r. reflexivity.
    + destruct (receive_audio_frames jb h self start_frame nframes Hi Ht)
        as (L1 & L2 & _).
      split; [exact L1 | exact L2].
    + unfold port_receive_audio_data_from_jack. rewrite store_same.
      cbn [identifier set_midi_events type]. rewrite Ht, orb_true_r.
      rewrite store_same. split; [reflexivity|]. reflexivity.
    + unfold port_receive_audio_data_from_jack. rewrite Ht, orb_true_r. reflexivity.
Qed.

Lemma sum_data_from_jack_effect_witness :
  let h' := port_sum_data_from_jack ramp_buffer no_jack_events jack_heap 0 2 3 in
  buf (h' 0) 4 = F32.of_Z 5 /\ buf (h' 0) 5 = F32.one.
Proof.
  destruct (sum_data_from_jack_effect ramp_buffer no_jack_events jack_heap 0 2 3)
    as (_ & _ & H).
  destruct (H eq_refl) as (_ & Hb).
  cbv zeta. rewrite !Hb. split; vm_compute; reflexivity.
Defined.

(** X12: whatever the kind of the port and the arguments are,
    [port_sum_signal_from_inputs] writes no port but the one it is called
    for, and of that port nothing but the sample buffer, the events and the
    current value of the LV2 control: identifier, connections, multipliers
    and base value stay as they were. *)
Theorem port_sum_signal_writes_one_port (jb : ptr -> array F32.float)
    (jm : ptr -> Midi.MidiEvents) (h : heap) (port : ptr)
    (start_frame nframes : Z) (noroll : bool) :
  let h' := port_sum_signal_from_inputs jb jm h port start_frame nframes noroll in
  (forall q, q <> port -> h' q = h q) /\
  same_but_signal (h port) (h' port) /\
  identifier (h' port) = identifier (h port) /\
  num_srcs (h' port) = num_srcs (h port) /\
  num_dests (h' port) = num_dests (h port) /\
  srcs (h' port) = srcs (h port) /\
  dests (h' port) = dests (h port) /\
  multipliers (h' port) = multipliers (h port) /\
  base_value (h' port) = base_value (h port).
Proof.
  cbv zeta.
  destruct (port_sum_signal_writes jb jm h port start_frame nframes noroll)
    as (H1 & H2).
  split; [exact H1|]. split; [exact H2|].
  unfold same_but_signal in H2. rewrite H2. repeat split.
Qed.

End SignalProperties.

(** ** Properties of the consumer of the recording events *)

Section CopyLoops.

Import C Recording Consumer.

Variables (c : Z) (lb rb : array F32.float).

(** The loop of [handle_audio_event] over the frames of the event. *)
Lemma interleave_loop :
  2 <= c ->
  forall (n : nat) (lo : Z) (fr : array F32.float) (cur : Z),
    0 <= cur -> cur + Z.of_nat n <= 2 ^ 32 ->
    let res :=
      for_steps n lo
        (fun i (st : array F32.float * Z) =>
           let '(fr, cur_local_offset) := st in
           let fr := array_set fr (i * c) (lb cur_local_offset) in
           let fr := array_set fr (i * c + 1) (rb cur_local_offset) in
           (fr, (cur_local_offset + 1) mod 2 ^ 32))
        (fr, cur) in
    (forall k, 0 <= k < Z.of_nat n ->
       fst res ((lo + k) * c) = lb (cur + k) /\
       fst res ((lo + k) * c + 1) = rb (cur + k)) /\
    (forall j,
       (forall k, 0 <= k < Z.of_nat n -> j <> (lo + k) * c /\ j <> (lo + k) * c + 1) ->
       fst res j = fr j).
Proof.
  intros Hc. induction n as [|n IH]; intros lo fr cur Hcur Hfit; cbv zeta.
  - cbn [for_steps fst]. split; [intros k Hk; lia | reflexivity].
  - cbn [for_steps].
    set (fr1 := array_set (array_set fr (lo * c) (lb cur)) (lo * c + 1) (rb cur)).
    assert (Hmod : n <> O -> (cur + 1) mod 2 ^ 32 = cur + 1).
    { intros Hn. apply Z.mod_small. lia. }
    destruct (IH (lo + 1) fr1 ((cur + 1) mod 2 ^ 32)) as (I1 & I2).
    { apply Z.mod_pos_bound. lia. }
    { destruct n as [|n]; [|rewrite Hmod by discriminate; lia].
      pose proof (Z.mod_pos_bound (cur + 1) (2 ^ 32) ltac:(lia)). lia. }
    cbv zeta in I1, I2. split.
    + intros k Hk. destruct (Z.eq_dec k 0) as [->|Hk0].
      * rewrite !Z.add_0_r. rewrite !I2.
        -- subst fr1. unfold array_set. rewrite Z.eqb_refl.
           destruct (Z.eqb_spec (lo * c) (lo * c + 1)); [lia|].
           rewrite Z.eqb_refl. split; reflexivity.
        -- intros k' Hk'. split; nia.
        -- intros k' Hk'. split; nia.
      * destruct (I1 (k - 1) ltac:(lia)) as (E1 & E2).
        rewrite Hmod in E1, E2 |- * by lia.
        replace (lo + 1 + (k - 1)) with (lo + k) in E1, E2 by lia.
        replace (cur + 1 + (k - 1)) with (cur + k) in E1, E2 by lia.
        split; assumption.
    + intros j Hj. rewrite I2.
      * subst fr1. unfold array_set.
        destruct (Hj 0 ltac:(lia)) as (J1 & J2). rewrite Z.add_0_r in J1, J2.
        destruct (Z.eqb_spec j (lo * c + 1)); [lia|].
        destruct (Z.eqb_spec j (lo * c)); [lia | reflexivity].
      * intros k Hk. destruct (Hj (k + 1) ltac:(lia)) as (J1 & J2).
        replace (lo + (k + 1)) with (lo + 1 + k) in J1, J2 by lia.
        split; assumption.
Qed.

(** The loop of [handle_split_event] over the frames of the event: both
    assignments of a turn go to the same slot. *)
Lemma overwrite_loop :
  c <> 0 ->
  forall (n : nat) (lo : Z) (fr : array F32.float) (off : Z),
    let res :=
      for_steps n lo
        (fun i (st : array F32.float * Z) =>
           let '(fr, off) := st in
           let fr := array_set fr (c * off) (lb i) in
           let fr := array_set fr (c * off) (rb i) in
           (fr, off + 1))
        (fr, off) in
    (forall k, 0 <= k < Z.of_nat n -> fst res (c * (off + k)) = rb (lo + k)) /\
    (forall j, (forall k, 0 <= k < Z.of_nat n -> j <> c * (off + k)) ->
               fst res j = fr j).
Proof.
  intros Hc. induction n as [|n IH]; intros lo fr off; cbv zeta.
  - cbn [for_steps fst]. split; [intros k Hk; lia | reflexivity].
  - cbn [for_steps].
    set (fr1 := array_set (array_set fr (c * off) (lb lo)) (c * off) (rb lo)).
    destruct (IH (lo + 1) fr1 (off + 1)) as (I1 & I2).
    cbv zeta in I1, I2. split.
    + intros k Hk. destruct (Z.eq_dec k 0) as [->|Hk0].
      * rewrite !Z.add_0_r. rewrite I2.
        -- subst fr1. unfold array_set. rewrite Z.eqb_refl. reflexivity.
        -- intros k' Hk'. nia.
      * specialize (I1 (k - 1) ltac:(lia)).
        replace (off + 1 + (k - 1)) with (off + k) in I1 by lia.
        replace (lo + 1 + (k - 1)) with (lo + k) in I1 by lia.
        exact I1.
    + intros j Hj. rewrite I2.
      * subst fr1. unfold array_set.
        pose proof (Hj 0 ltac:(lia)) as J. rewrite Z.add_0_r in J.
        destruct (Z.eqb_spec j (c * off)); [lia | reflexivity].
      * intros k Hk. pose proof (Hj (k + 1) ltac:(lia)) as J.
        replace (off + (k + 1)) with (off + 1 + k) in J by lia. exact J.
Qed.

End CopyLoops.

Section ConsumerProperties.

Import C Recording Consumer.

(** X13: [handle_audio_event] stores the block of an audio event in the
    clip of the region in progress, interleaved: for the [k]-th frame of the
    block the sample of the left buffer goes to slot [i * channels] and
    that of the right buffer to slot [i * channels + 1], where [i] counts
    the frames from the start of the region.  Every other slot of the clip
    keeps its sample, the clip and the region end where the block ends, and
    the region stays where it starts. *)
Theorem handle_audio_event_interleaves (position_from_frames : Z -> Position)
    (ev : RecordingEvent) (pj : project) (tr_ptr : Z) (tr : Track)
    (region : Z) (r : Region.ZRegion) (clip : Clip.AudioClip) :
  (forall f, frames (position_from_frames f) = f) ->
  track_get_from_name pj (track_name ev) = Some tr_ptr ->
  deref (tracks pj) tr_ptr = Some tr ->
  recording_region tr = Some region ->
  deref (region_heap pj) region = Some r ->
  deref (clip_heap pj) (Region.pool_id r) = Some clip ->
  2 <= Clip.channels clip ->
  0 <= local_offset ev -> 0 <= nframes ev ->
  local_offset ev + nframes ev <= 2 ^ 32 ->
  let first :=
    g_start_frames ev + local_offset ev - frames (ArrangerObj.pos (Region.base r)) in
  exists pj' clip' r',
    handle_audio_event position_from_frames ev pj = Some pj' /\
    deref (clip_heap pj') (Region.pool_id r) = Some clip' /\
    Clip.channels clip' = Clip.channels clip /\
    Clip.num_frames clip' = first + nframes ev /\
    (forall k, 0 <= k < nframes ev ->
       Clip.frames clip' ((first + k) * Clip.channels clip) =
         lbuf ev (local_offset ev + k) /\
       Clip.frames clip' ((first + k) * Clip.channels clip + 1) =
         rbuf ev (local_offset ev + k)) /\
    (forall j,
       (forall k, 0 <= k < nframes ev ->
          j <> (first + k) * Clip.channels clip /\
          j <> (first + k) * Clip.channels clip + 1) ->
       Clip.frames clip' j = Clip.frames clip j) /\
    deref (region_heap pj') region = Some r' /\
    ArrangerObj.pos (Region.base r') = ArrangerObj.pos (Region.base r) /\
    frames (ArrangerObj.end_pos (Region.base r')) =
      g_start_frames ev + local_offset ev + nframes ev /\
    Region.num_frames r' = first + nframes ev /\
    note_heap pj' = note_heap pj /\
    recorded_ids pj' = recorded_ids pj.
Proof.
  intros Hpf Hname Htr Hreg Hr Hclip Hch Hlo Hn Hfit. cbv zeta.
  unfold handle_audio_event, audio_region_get_clip.
  rewrite Hname, Htr, Hreg, Hr, Hclip. cbv zeta.
  cbn [ArrangerObj.arranger_object_end_pos_setter ArrangerObj.set_end_pos_frames
       ArrangerObj.set_end_pos ArrangerObj.set_loop_end_pos
       ArrangerObj.set_fade_out_pos ArrangerObj.pos ArrangerObj.end_pos
       ArrangerObj.loop_end_pos frames total_ticks
       Clip.set_num_frames Clip.set_frames Clip.num_frames Clip.channels Clip.frames
       Region.set_num_frames Region.set_frames Region.set_base Region.base
       Region.pool_id Region.num_frames].
  rewrite !Hpf. unfold for_range.
  match goal with
  | |- context [for_steps ?n ?lo ?b (Clip.frames clip, local_offset ev)] =>
      pose proof (interleave_loop (Clip.channels clip) (lbuf ev) (rbuf ev) Hch
                    n lo (Clip.frames clip) (local_offset ev) Hlo) as L;
      set (copied := for_steps n lo b (Clip.frames clip, local_offset ev)) in *
  end.
  cbv zeta in L. destruct L as (L1 & L2); [lia|].
  eexists. eexists. eexists.
  split; [reflexivity|].
  cbn [tracks region_heap note_heap clip_heap recorded_ids].
  split; [apply deref_store_at_same; congruence|].
  cbn [Clip.channels Clip.num_frames Clip.frames Clip.set_frames Clip.set_num_frames].
  split; [reflexivity|]. split; [lia|]. split.
  { intros k Hk. destruct (L1 k ltac:(lia)) as (E1 & E2).
    match type of E1 with
    | fst copied (?a * _) = _ =>
        replace a
          with (g_start_frames ev + local_offset ev
                - frames (ArrangerObj.pos (Region.base r)) + k) in E1, E2 by lia
    end.
    split; assumption. }
  split.
  { intros j Hj. apply L2. intros k Hk. destruct (Hj k ltac:(lia)) as (J1 & J2).
    match goal with
    | |- _ <> ?a * _ /\ _ =>
        replace a
          with (g_start_frames ev + local_offset ev
                - frames (ArrangerObj.pos (Region.base r)) + k) by lia
    end.
    split; assumption. }
  split; [apply deref_store_at_same; congruence|].
  cbn [Region.base Region.num_frames Region.set_base Region.set_frames
       Region.set_num_frames ArrangerObj.pos ArrangerObj.end_pos
       ArrangerObj.set_fade_out_pos ArrangerObj.set_loop_end_pos
       ArrangerObj.set_end_pos_frames ArrangerObj.set_end_pos
       ArrangerObj.arranger_object_end_pos_setter frames].
  split; [reflexivity|]. split; [reflexivity|]. split; [lia|].
  split; reflexivity.
Qed.

Lemma handle_audio_event_interleaves_witness :
  exists pj' clip',
    handle_audio_event frames_to_position audio_event audio_project = Some pj' /\
    deref (clip_heap pj') 0 = Some clip' /\
    Clip.num_frames clip' = 104 /\
    Clip.frames clip' 202 = F32.of_Z 11 /\
    Clip.frames clip' 203 = F32.of_Z 21.
Proof.
  destruct (handle_audio_event_interleaves frames_to_position audio_event
              audio_project 0 audio_track 0
              (audio_region_new frames_to_position 0 100 (frames_to_position 1000) 0 0 0)
              (audio_clip_new_recording 2 100))
    as (pj' & clip' & r' & E & D & _ & N & F & _);
    try reflexivity; try (cbn; lia).
  exists pj', clip'. split; [exact E|]. split; [exact D|]. split; [exact N|].
  destruct (F 1) as (F1 & F2); [cbn; lia|].
  split; [exact F1 | exact F2].
Defined.

(** X14: in the audio branch of [handle_split_event] both assignments of
    a turn of the copy loop go to the slot [channels * offset]: for the
    [k]-th frame of the event that slot ends up with the sample of the right
    buffer, and no other slot of the clip is written, so that the samples
    of the left buffer are not kept and, with two channels, the odd slots
    keep what they held. *)
Theorem split_event_keeps_right_samples_only (TRANSPORT : Transport)
    (position_from_frames position_from_ticks : Z -> Position)
    (handle_split_automation : RecordingEvent -> project -> option project)
    (fuel : nat) (ev : RecordingEvent) (pj : project)
    (tr_ptr : Z) (tr : Track) (region : Z) (r : Region.ZRegion)
    (clip : Clip.AudioClip) :
  type ev = RECORDING_EVENT_TYPE_SPLIT_TRACK_RECORDING ->
  track_get_from_name pj (track_name ev) = Some tr_ptr ->
  deref (tracks pj) tr_ptr = Some tr ->
  recording_region tr = Some region ->
  deref (region_heap pj) region = Some r ->
  in_signal_type tr = Port.TYPE_AUDIO ->
  deref (clip_heap pj) (Region.pool_id r) = Some clip ->
  Clip.channels clip <> 0 ->
  0 <= local_offset ev -> 0 <= nframes ev ->
  local_offset ev + nframes ev < 2 ^ 32 ->
  let off := g_start_frames ev - frames (ArrangerObj.pos (Region.base r)) in
  exists pj' clip',
    handle_split_event TRANSPORT position_from_frames position_from_ticks
      handle_split_automation fuel ev pj = Some pj' /\
    deref (clip_heap pj') (Region.pool_id r) = Some clip' /\
    Clip.channels clip' = Clip.channels clip /\
    (forall k, 0 <= k < nframes ev ->
       Clip.frames clip' (Clip.channels clip * (off + k)) =
       rbuf ev (local_offset ev + k)) /\
    (forall j,
       (forall k, 0 <= k < nframes ev -> j <> Clip.channels clip * (off + k)) ->
       Clip.frames clip' j = Clip.frames clip j).
Proof.
  intros Hty Hname Htr Hreg Hr Hk Hclip Hch Hlo Hn Hfit. cbv zeta.
  unfold handle_split_event. rewrite Hty. cbn [RecordingEventType_eqb].
  rewrite Hname, Htr, Hreg, Hr, Hk.
  cbv zeta. cbn [Region.pool_id Region.set_base Region.set_frames
                 Region.set_num_frames Region.id clip_heap set_region_heap
                 region_heap tracks note_heap recorded_ids].
  rewrite Hclip. rewrite Z.mod_small by lia. unfold for_range.
  cbn [ArrangerObj.arranger_object_end_pos_setter ArrangerObj.set_end_pos_frames
       ArrangerObj.arranger_object_loop_end_pos_setter
       ArrangerObj.set_end_pos ArrangerObj.set_loop_end_pos
       ArrangerObj.set_fade_out_pos ArrangerObj.pos ArrangerObj.end_pos
       ArrangerObj.loop_end_pos frames total_ticks
       Clip.set_num_frames Clip.set_frames Clip.num_frames Clip.channels Clip.frames].
  match goal with
  | |- context [for_steps ?n ?lo ?b (Clip.frames clip, ?o)] =>
      pose proof (overwrite_loop (Clip.channels clip) (lbuf ev) (rbuf ev) Hch
                    n lo (Clip.frames clip) o) as L;
      set (copied := for_steps n lo b (Clip.frames clip, o)) in *
  end.
  cbv zeta in L. destruct L as (L1 & L2).
  eexists. eexists. split; [reflexivity|].
  cbn [tracks clip_heap recorded_ids region_heap note_heap set_tracks
       set_region_heap add_recorded_id set_recorded_ids].
  split.
  { apply deref_app_old. apply deref_store_at_same. congruence. }
  cbn [Clip.channels Clip.frames Clip.set_frames Clip.set_num_frames].
  split; [reflexivity|]. split.
  - intros k Hk0. apply L1. lia.
  - intros j Hj. apply L2. intros k Hk0. apply Hj. lia.
Qed.

Lemma split_event_keeps_right_samples_only_witness :
  exists pj' clip',
    handle_split_event stopped_transport frames_to_position ticks_to_position
      (fun _ pj => Some pj) 1
      (set_bufs (fun i => F32.of_Z (10 + i)) (fun i => F32.of_Z (20 + i))
         (set_header RECORDING_EVENT_TYPE_SPLIT_TRACK_RECORDING 1100 0 4 "vox"
            blank_event))
      audio_project = Some pj' /\
    deref (clip_heap pj') 0 = Some clip' /\
    Clip.frames clip' 202 = F32.of_Z 21 /\
    Clip.frames clip' 203 = F32.zero.
Proof.
  destruct (split_event_keeps_right_samples_only stopped_transport
              frames_to_position ticks_to_position (fun _ pj => Some pj) 1
              (set_bufs (fun i => F32.of_Z (10 + i)) (fun i => F32.of_Z (20 + i))
                 (set_header RECORDING_EVENT_TYPE_SPLIT_TRACK_RECORDING 1100 0 4 "vox"
                    blank_event))
              audio_project 0 audio_track 0
              (audio_region_new frames_to_position 0 100 (frames_to_position 1000) 0 0 0)
              (audio_clip_new_recording 2 100))
    as (pj' & clip' & E & D & _ & F & G);
    try reflexivity; try (cbn; lia).
  exists pj', clip'. split; [exact E|]. split; [exact D|]. split.
  - apply (F 1). change (0 <= 1 < 4). lia.
  - rewrite G; [reflexivity|]. intros k Hk.
    change (203 <> 2 * (1100 - 1000 + k)). lia.
Defined.

Lemma find_track_list_set (l : list Track) (n : nat) (tr tr' : Track)
    (nm : string) (i : Z) :
  nth_error l n = Some tr -> name tr' = name tr ->
  find_track (list_set l n tr') nm i = find_track l nm i.
Proof.
  revert n i; induction l as [|a l IH]; intros [|n] i E Hn; cbn in *;
    try discriminate.
  - injection E as ->. rewrite Hn. reflexivity.
  - rewrite (IH n (i + 1) E Hn). reflexivity.
Qed.

(** Replacing a track by one of the same name does not change what
    [track_get_from_name] finds. *)
Lemma track_get_from_name_store (pj pj' : project) (p : Z) (tr tr' : Track)
    (nm : string) :
  deref (tracks pj) p = Some tr -> name tr' = name tr ->
  tracks pj' = store_at (tracks pj) p tr' ->
  track_get_from_name pj' nm = track_get_from_name pj nm.
Proof.
  unfold track_get_from_name, deref, store_at. intros E Hn ->.
  destruct (p <? 0); [discriminate|].
  apply find_track_list_set with (tr := tr); assumption.
Qed.

Lemma name_track_add_region (tr : Track) (region lane_pos : Z) :
  name (track_add_region tr region lane_pos) = name tr.
Proof.
  unfold track_add_region.
  destruct (deref (create_missing_lanes (lanes tr) lane_pos) lane_pos); reflexivity.
Qed.

(** X15: [handle_start_recording] for a track without a region in
    progress, on a track with a piano roll or of type audio, opens one
    region: it is the one further region of the project, a MIDI region for
    the piano roll and an audio region otherwise, it starts at the frame of
    the event, or at the start of the loop when the loop point is met in
    the cycle, it lies in the last lane of the track with the number of
    regions of that lane as its index, it becomes the recording region of
    the track, and its identifier is added to the recorded identifiers.
    The timeline selection is set aside as the selection before the start,
    and the rest of the state of the recording manager is as it was. *)
Theorem handle_start_recording_opens_region (TRANSPORT : Transport)
    (position_from_frames position_from_ticks : Z -> Position)
    (transport_is_loop_point_met : Z -> Z -> bool)
    (track_has_piano_roll : Track -> bool)
    (handle_start_automation : RecordingEvent -> project -> option project)
    (ev : RecordingEvent) (self : recording_state) (tr_ptr : Z) (tr : Track)
    (lane : TrackLane) :
  track_get_from_name (proj self) (track_name ev) = Some tr_ptr ->
  deref (tracks (proj self)) tr_ptr = Some tr ->
  recording_region tr = None ->
  deref (lanes tr) (num_lanes tr - 1) = Some lane ->
  track_has_piano_roll tr = true \/ track_type tr = TRACK_TYPE_AUDIO ->
  let start_frames := g_start_frames ev + local_offset ev in
  let start :=
    if transport_is_loop_point_met start_frames (nframes ev)
    then frames (loop_start_pos TRANSPORT) else start_frames in
  let new_region := Z.of_nat (List.length (region_heap (proj self))) in
  exists self' rn tr' lane',
    handle_start_recording TRANSPORT position_from_frames position_from_ticks
      transport_is_loop_point_met track_has_piano_roll handle_start_automation
      ev false self = Some self' /\
    region_heap (proj self') = region_heap (proj self) ++ [rn] /\
    ArrangerObj.pos (Region.base rn) = position_from_frames start /\
    RegionId.type (Region.id rn) =
      (if track_has_piano_roll tr then REGION_TYPE_MIDI else REGION_TYPE_AUDIO) /\
    RegionId.track_pos (Region.id rn) = pos tr /\
    RegionId.lane_pos (Region.id rn) = num_lanes tr - 1 /\
    RegionId.idx (Region.id rn) = Z.of_nat (List.length (regions lane)) /\
    deref (tracks (proj self')) tr_ptr = Some tr' /\
    recording_region tr' = Some new_region /\
    deref (lanes tr') (num_lanes tr - 1) = Some lane' /\
    In new_region (regions lane') /\
    recorded_ids (proj self') = recorded_ids (proj self) ++ [Region.id rn] /\
    note_heap (proj self') = note_heap (proj self) /\
    selections_before_start_track self' =
      Some (arranger_selections_clone (TL_SELECTIONS self)) /\
    selections_before_start_automation self' =
      selections_before_start_automation self /\
    TL_SELECTIONS self' = TL_SELECTIONS self /\
    is_recording self' = is_recording self.
Proof.
  intros Hname Htr Hreg Hlane Hkind. cbv zeta.
  pose proof (deref_range _ _ _ Hlane) as Rl.
  destruct (track_add_region_lane tr
              (Z.of_nat (List.length (region_heap (proj self))))
              (num_lanes tr - 1) ltac:(lia)) as (lane' & Hl1 & Hl2).
  unfold handle_start_recording. cbv zeta.
  cbn [proj set_selections_before_start_track].
  rewrite Hname, Htr, Hreg. cbn [is_set andb].
  destruct (transport_is_loop_point_met (g_start_frames ev + local_offset ev)
              (nframes ev)); cbv beta iota.
  all: destruct (track_has_piano_roll tr) eqn:Hp;
    [|destruct Hkind as [Hk|Hk]; [discriminate|];
      rewrite Hk; cbn [TrackType_eqb]];
    rewrite Hlane;
    eexists; eexists; eexists; exists lane';
    (split; [reflexivity|]);
    cbn [tracks clip_heap recorded_ids region_heap note_heap set_tracks
         set_region_heap set_clip_heap add_recorded_id set_recorded_ids
         proj set_proj set_selections_before_start_track
         selections_before_start_track selections_before_start_automation
         TL_SELECTIONS is_recording];
    (split; [reflexivity|]); (split; [reflexivity|]); (split; [reflexivity|]);
    (split; [reflexivity|]); (split; [reflexivity|]); (split; [reflexivity|]);
    (split; [apply deref_store_at_same; congruence|]);
    (split; [reflexivity|]);
    (split; [exact Hl1|]); (split; [exact Hl2|]);
    repeat (split; [reflexivity|]); reflexivity.
Qed.

Lemma handle_start_recording_opens_region_witness :
  exists self' rn,
    handle_start_recording stopped_transport frames_to_position ticks_to_position
      (fun _ _ => false) (fun tr => records_midi (track_type tr))
      keep_project start_event false idle_state = Some self' /\
    region_heap (proj self') = [rn] /\
    ArrangerObj.pos (Region.base rn) = frames_to_position 4000 /\
    RegionId.lane_pos (Region.id rn) = 0 /\
    selections_before_start_track self' = Some [].
Proof.
  destruct (handle_start_recording_opens_region stopped_transport
              frames_to_position ticks_to_position
              (fun _ _ => false) (fun tr => records_midi (track_type tr))
              keep_project start_event idle_state 0 idle_track
              {| regions := [] |})
    as (self' & rn & _ & _ & E & H1 & H2 & _ & _ & H3 & _ & _ & _ & _ & _ & _
        & _ & H4 & _);
    try reflexivity.
  - left. reflexivity.
  - exists self', rn. split; [exact E|]. split; [exact H1|].
    split; [exact H2|]. split; [exact H3 | exact H4].
Defined.

(** X16: for a track that has a region in progress,
    [handle_start_recording] takes the snapshot of the timeline selection
    and returns: what a start event has opened, a further start event of
    that track leaves as it is, whatever its frames are.  The one thing the
    further event writes is [selections_before_start_track], which is set
    to a clone of the timeline selection of that moment; the project, the
    flag [is_recording], the other snapshot and the timeline selection stay
    as they are. *)
Theorem handle_start_recording_once (TRANSPORT : Transport)
    (position_from_frames position_from_ticks : Z -> Position)
    (transport_is_loop_point_met : Z -> Z -> bool)
    (track_has_piano_roll : Track -> bool)
    (handle_start_automation : RecordingEvent -> project -> option project)
    (ev ev2 : RecordingEvent) (self self' later : recording_state) :
  handle_start_recording TRANSPORT position_from_frames position_from_ticks
    transport_is_loop_point_met track_has_piano_roll handle_start_automation
    ev false self = Some self' ->
  track_name ev2 = track_name ev ->
  proj later = proj self' ->
  handle_start_recording TRANSPORT position_from_frames position_from_ticks
    transport_is_loop_point_met track_has_piano_roll handle_start_automation
    ev2 false later =
  Some
    (set_selections_before_start_track
       (Some (arranger_selections_clone (TL_SELECTIONS later))) later).
Proof.
  intros H Hname Hlater. unfold handle_start_recording in H. cbv zeta in H.
  cbn [proj set_selections_before_start_track] in H.
  destruct (track_get_from_name (proj self) (track_name ev)) as [tr_ptr|] eqn:Eptr;
    [|discriminate].
  destruct (deref (tracks (proj self)) tr_ptr) as [tr|] eqn:Etr; [|discriminate].
  assert (Hsame : is_set (recording_region tr) = true
                  \/ (track_has_piano_roll tr = false /\
                      TrackType_eqb (track_type tr) TRACK_TYPE_AUDIO = false) ->
                  proj later = proj self ->
                  handle_start_recording TRANSPORT position_from_frames
                    position_from_ticks transport_is_loop_point_met
                    track_has_piano_roll handle_start_automation ev2 false later
                  = Some
                      (set_selections_before_start_track
                         (Some (arranger_selections_clone (TL_SELECTIONS later)))
                         later)).
  { intros Hc Hp. unfold handle_start_recording. cbv zeta.
    cbn [proj set_selections_before_start_track].
    rewrite Hp, Hname, Eptr, Etr.
    destruct Hc as [Hc|(Hc1 & Hc2)].
    - rewrite Hc. reflexivity.
    - destruct (is_set (recording_region tr)); [reflexivity|]. cbn [andb negb].
      destruct (transport_is_loop_point_met (g_start_frames ev2 + local_offset ev2)
                  (nframes ev2)); cbv beta iota;
        rewrite Hc1, Hc2; reflexivity. }
  assert (Hnew : forall pjx trx region,
            proj later = pjx ->
            tracks pjx = store_at (tracks (proj self)) tr_ptr
                           (set_recording_region (Some region) trx) ->
            name trx = name tr ->
            handle_start_recording TRANSPORT position_from_frames
              position_from_ticks transport_is_loop_point_met
              track_has_piano_roll handle_start_automation ev2 false later
            = Some
                (set_selections_before_start_track
                   (Some (arranger_selections_clone (TL_SELECTIONS later)))
                   later)).
  { intros pjx trx region Hp Ht Hn. unfold handle_start_recording. cbv zeta.
    cbn [proj set_selections_before_start_track].
    rewrite Hp, Hname.
    rewrite (track_get_from_name_store (proj self) pjx tr_ptr tr
               (set_recording_region (Some region) trx) (track_name ev) Etr Hn Ht).
    rewrite Eptr, Ht, deref_store_at_same by congruence.
    reflexivity. }
  destruct (is_set (recording_region tr)) eqn:Eset; cbn [andb negb] in H.
  { injection H as <-. apply Hsame; [left; reflexivity | exact Hlater]. }
  destruct (transport_is_loop_point_met (g_start_frames ev + local_offset ev)
              (nframes ev)); cbv beta iota in H.
  all: destruct (track_has_piano_roll tr) eqn:Hp;
    [|destruct (TrackType_eqb (track_type tr) TRACK_TYPE_AUDIO) eqn:Ha];
    try (destruct (deref (lanes tr) (num_lanes tr - 1)) as [lane|]; [|discriminate]);
    injection H as <-; cbn [proj set_proj set_selections_before_start_track] in Hlater;
    first [ apply Hsame; [right; split; reflexivity | exact Hlater]
          | eapply Hnew; [exact Hlater | reflexivity | apply name_track_add_region] ].
Qed.

Lemma handle_start_recording_once_witness :
  exists self',
    handle_start_recording stopped_transport frames_to_position ticks_to_position
      (fun _ _ => false) (fun tr => records_midi (track_type tr))
      keep_project start_event false idle_state = Some self' /\
    handle_start_recording stopped_transport frames_to_position ticks_to_position
      (fun _ _ => false) (fun tr => records_midi (track_type tr))
      keep_project
      (set_header RECORDING_EVENT_TYPE_START_TRACK_RECORDING 4256 0 256 "lead"
         blank_event)
      false
      {| is_recording := 1;
         selections_before_start_track := selections_before_start_track self';
         selections_before_start_automation := None;
         TL_SELECTIONS := [0];
         proj := proj self' |} =
    Some
      {| is_recording := 1;
         selections_before_start_track := Some [0];
         selections_before_start_automation := None;
         TL_SELECTIONS := [0];
         proj := proj self' |}.
Proof.
  eexists. split; [reflexivity|].
  eapply (handle_start_recording_once stopped_transport frames_to_position
            ticks_to_position (fun _ _ => false)
            (fun tr => records_midi (track_type tr)) keep_project
            start_event
            (set_header RECORDING_EVENT_TYPE_START_TRACK_RECORDING 4256 0 256 "lead"
               blank_event)
            idle_state); reflexivity.
Defined.

(** X17: for an event without MIDI data, and for a MIDI event that is
    neither a note-on nor a note-off, [handle_midi_event] moves the end and
    the loop end of the region in progress to the end of the cycle and
    changes nothing else: no note is added or changed, the open notes stay
    open, and every other region is as it was. *)
Theorem handle_midi_event_without_note
    (position_from_frames position_from_ticks : Z -> Position)
    (ev : RecordingEvent) (pj : project) (tr_ptr : Z) (tr : Track)
    (region : Z) (r : Region.ZRegion) :
  track_get_from_name pj (track_name ev) = Some tr_ptr ->
  deref (tracks pj) tr_ptr = Some tr ->
  recording_region tr = Some region ->
  deref (region_heap pj) region = Some r ->
  has_midi_event ev = 0 \/
  (Midi.type (midi_event ev) <> Midi.MIDI_EVENT_TYPE_NOTE_ON /\
   Midi.type (midi_event ev) <> Midi.MIDI_EVENT_TYPE_NOTE_OFF) ->
  let end_pos :=
    position_from_frames (g_start_frames ev + local_offset ev + nframes ev) in
  exists pj' r',
    handle_midi_event position_from_frames position_from_ticks ev pj = Some pj' /\
    note_heap pj' = note_heap pj /\
    clip_heap pj' = clip_heap pj /\
    recorded_ids pj' = recorded_ids pj /\
    deref (region_heap pj') region = Some r' /\
    (forall q, q <> region -> deref (region_heap pj') q = deref (region_heap pj) q) /\
    ArrangerObj.end_pos (Region.base r') = end_pos /\
    ArrangerObj.loop_end_pos (Region.base r') = end_pos /\
    ArrangerObj.pos (Region.base r') = ArrangerObj.pos (Region.base r) /\
    Region.midi_notes r' = Region.midi_notes r /\
    Region.unended_notes r' = Region.unended_notes r.
Proof.
  intros Hname Htr Hreg Hr Hkind. cbv zeta.
  unfold handle_midi_event. rewrite Hname, Htr, Hreg, Hr. cbv zeta.
  assert (Hres : exists pj' r',
            Some
              (set_tracks
                 (store_at (tracks pj) tr_ptr (set_recording_region (Some region) tr))
                 (set_region_heap
                    (store_at (region_heap pj) region
                       (Region.set_base
                          (set_loop_end_pos_frames
                             (frames
                                (position_from_frames
                                   (g_start_frames ev + local_offset ev + nframes ev)))
                             (ArrangerObj.arranger_object_loop_end_pos_setter
                                (ArrangerObj.set_end_pos_frames
                                   (frames
                                      (position_from_frames
                                         (g_start_frames ev + local_offset ev
                                          + nframes ev)))
                                   (ArrangerObj.arranger_object_end_pos_setter
                                      (Region.base r)
                                      (position_from_frames
                                         (g_start_frames ev + local_offset ev
                                          + nframes ev))))
                                (position_from_frames
                                   (g_start_frames ev + local_offset ev + nframes ev))))
                          r))
                    pj)) = Some pj' /\
            note_heap pj' = note_heap pj /\
            clip_heap pj' = clip_heap pj /\
            recorded_ids pj' = recorded_ids pj /\
            deref (region_heap pj') region = Some r' /\
            (forall q, q <> region ->
                       deref (region_heap pj') q = deref (region_heap pj) q) /\
            ArrangerObj.end_pos (Region.base r') =
              position_from_frames (g_start_frames ev + local_offset ev + nframes ev) /\
            ArrangerObj.loop_end_pos (Region.base r') =
              position_from_frames (g_start_frames ev + local_offset ev + nframes ev) /\
            ArrangerObj.pos (Region.base r') = ArrangerObj.pos (Region.base r) /\
            Region.midi_notes r' = Region.midi_notes r /\
            Region.unended_notes r' = Region.unended_notes r).
  { eexists. eexists. split; [reflexivity|].
    cbn [tracks clip_heap recorded_ids region_heap note_heap set_tracks
         set_region_heap].
    split; [reflexivity|]. split; [reflexivity|]. split; [reflexivity|].
    split; [apply deref_store_at_same; congruence|].
    split; [intros q Hq; apply deref_store_at_other; congruence|].
    cbn. rewrite !position_eta. repeat split. }
  destruct Hkind as [H0|(Hon & Hoff)].
  - rewrite H0. cbn [Z.eqb]. exact Hres.
  - destruct (has_midi_event ev =? 0); [exact Hres|].
    destruct (Midi.type (midi_event ev)); try congruence; exact Hres.
Qed.

Lemma handle_midi_event_without_note_witness :
  exists pj' r',
    handle_midi_event frames_to_position ticks_to_position
      (set_header RECORDING_EVENT_TYPE_MIDI 5000 0 256 "lead" blank_event)
      recording_project = Some pj' /\
    note_heap pj' = note_heap recording_project /\
    deref (region_heap pj') 0 = Some r' /\
    ArrangerObj.end_pos (Region.base r') = frames_to_position 5256 /\
    Region.unended_notes r' = [1; 0].
Proof.
  destruct (handle_midi_event_without_note frames_to_position ticks_to_position
              (set_header RECORDING_EVENT_TYPE_MIDI 5000 0 256 "lead" blank_event)
              recording_project 0 armed_track 0
              (Region.set_unended_notes [1; 0]
                 (Region.set_base
                    {| ArrangerObj.pos := frames_to_position 2000;
                       ArrangerObj.end_pos := frames_to_position 4900;
                       ArrangerObj.loop_end_pos := frames_to_position 2900;
                       ArrangerObj.fade_out_pos := frames_to_position 2900 |}
                    (midi_region_new ticks_to_position (frames_to_position 2000)
                       (frames_to_position 4900) 3 0 0))))
    as (pj' & r' & E & H1 & _ & _ & H2 & _ & H3 & _ & _ & _ & H4);
    try reflexivity.
  - left. reflexivity.
  - exists pj', r'. split; [exact E|]. split; [exact H1|]. split; [exact H2|].
    split; [exact H3 | exact H4].
Defined.

Lemma list_set_app_new {A : Type} (h : list A) (v v' : A) :
  list_set (h ++ [v]) (List.length h) v' = h ++ [v'].
Proof.
  induction h as [|a h IH]; cbn; [reflexivity|]. rewrite IH. reflexivity.
Qed.

Lemma store_at_app_new {A : Type} (h : list A) (v v' : A) :
  store_at (h ++ [v]) (Z.of_nat (List.length h)) v' = h ++ [v'].
Proof.
  unfold store_at. destruct (Z.ltb_spec (Z.of_nat (List.length h)) 0); [lia|].
  rewrite Nat2Z.id. apply list_set_app_new.
Qed.

(** The region in progress with its end and its loop end moved to the
    end of the cycle, as [handle_midi_event] leaves it before it looks at
    the MIDI data. *)
Let extended (r : Region.ZRegion) (end_pos : Position) : Region.ZRegion :=
  Region.set_base
    (set_loop_end_pos_frames (frames end_pos)
       (ArrangerObj.arranger_object_loop_end_pos_setter
          (ArrangerObj.set_end_pos_frames (frames end_pos)
             (ArrangerObj.arranger_object_end_pos_setter (Region.base r) end_pos))
          end_pos))
    r.

Lemma handle_midi_note_on
    (position_from_frames position_from_ticks : Z -> Position)
    (ev : RecordingEvent) (pj : project) (tr_ptr : Z) (tr : Track)
    (region : Z) (r : Region.ZRegion) :
  track_get_from_name pj (track_name ev) = Some tr_ptr ->
  deref (tracks pj) tr_ptr = Some tr ->
  recording_region tr = Some region ->
  deref (region_heap pj) region = Some r ->
  has_midi_event ev <> 0 ->
  Midi.type (midi_event ev) = Midi.MIDI_EVENT_TYPE_NOTE_ON ->
  let start_pos := position_from_frames (g_start_frames ev + local_offset ev) in
  let end_pos :=
    position_from_frames (g_start_frames ev + local_offset ev + nframes ev) in
  let origin := total_ticks (ArrangerObj.pos (Region.base r)) in
  let mn := Z.of_nat (List.length (note_heap pj)) in
  handle_midi_event position_from_frames position_from_ticks ev pj =
  Some
    {| tracks := store_at (tracks pj) tr_ptr (set_recording_region (Some region) tr);
       region_heap :=
         store_at (region_heap pj) region
           (Region.set_unended_notes (mn :: Region.unended_notes r)
              (set_midi_notes (Region.midi_notes r ++ [mn]) (extended r end_pos)));
       note_heap :=
         note_heap pj ++
         [ {| Note.base :=
                {| ArrangerObj.pos :=
                     position_from_ticks (total_ticks start_pos - origin);
                   ArrangerObj.end_pos :=
                     position_from_ticks (total_ticks end_pos - origin);
                   ArrangerObj.loop_end_pos := zero_position;
                   ArrangerObj.fade_out_pos := zero_position |};
              Note.val := Midi.note_pitch (midi_event ev);
              Note.vel := Midi.velocity (midi_event ev) |} ];
       clip_heap := clip_heap pj;
       recorded_ids := recorded_ids pj |}.
Proof.
  intros Hname Htr Hreg Hr Hon Ton. cbv zeta.
  assert (Hon' : (has_midi_event ev =? 0) = false) by (apply Z.eqb_neq; exact Hon).
  unfold handle_midi_event.
  rewrite Hname, Htr, Hreg, Hr. cbv zeta. rewrite Hon', Ton.
  unfold midi_region_start_unended_note.
  cbn [tracks clip_heap recorded_ids region_heap note_heap set_tracks
       set_region_heap set_note_heap].
  rewrite deref_store_at_same by congruence. cbv zeta.
  rewrite store_at_twice. reflexivity.
Qed.

Lemma handle_midi_note_off
    (position_from_frames position_from_ticks : Z -> Position)
    (ev : RecordingEvent) (pj : project) (tr_ptr : Z) (tr : Track)
    (region : Z) (r : Region.ZRegion) (mn : Z) (rest : list Z) (n : Note.MidiNote) :
  track_get_from_name pj (track_name ev) = Some tr_ptr ->
  deref (tracks pj) tr_ptr = Some tr ->
  recording_region tr = Some region ->
  deref (region_heap pj) region = Some r ->
  has_midi_event ev <> 0 ->
  Midi.type (midi_event ev) = Midi.MIDI_EVENT_TYPE_NOTE_OFF ->
  Region.unended_notes r = mn :: rest ->
  deref (note_heap pj) mn = Some n ->
  Note.val n = Midi.note_pitch (midi_event ev) ->
  let end_pos :=
    position_from_frames (g_start_frames ev + local_offset ev + nframes ev) in
  let origin := total_ticks (ArrangerObj.pos (Region.base r)) in
  handle_midi_event position_from_frames position_from_ticks ev pj =
  Some
    {| tracks := store_at (tracks pj) tr_ptr (set_recording_region (Some region) tr);
       region_heap :=
         store_at (region_heap pj) region
           (Region.set_unended_notes rest (extended r end_pos));
       note_heap :=
         store_at (note_heap pj) mn
           (Note.set_base
              (ArrangerObj.set_end_pos
                 (position_from_ticks (total_ticks end_pos - origin)) (Note.base n))
              n);
       clip_heap := clip_heap pj;
       recorded_ids := recorded_ids pj |}.
Proof.
  intros Hname Htr Hreg Hr Hoff Toff Hun Hn Hval. cbv zeta.
  assert (Hoff' : (has_midi_event ev =? 0) = false) by (apply Z.eqb_neq; exact Hoff).
  unfold handle_midi_event.
  rewrite Hname, Htr, Hreg, Hr. cbv zeta. rewrite Hoff', Toff.
  unfold midi_region_pop_unended_note.
  cbn [tracks clip_heap recorded_ids region_heap note_heap set_tracks
       set_region_heap set_note_heap].
  rewrite deref_store_at_same by congruence.
  cbn [Region.unended_notes Region.set_base]. rewrite Hun.
  cbn [pop_unended]. rewrite Hn, Hval, Z.eqb_refl, orb_true_r.
  cbn [fst snd tracks clip_heap recorded_ids region_heap note_heap set_tracks
       set_region_heap set_note_heap].
  rewrite Hn, store_at_twice. reflexivity.
Qed.

(** X18: a note-on event followed by a note-off event of the same pitch
    for the same track leaves one more note in the project: a note of that
    pitch, with the velocity of the note-on, from the start of the cycle of
    the note-on to the end of the cycle of the note-off, both taken
    relative to the start of the region.  The note is among the notes of
    the region, and the notes that were open before are the open notes
    again. *)
Theorem note_on_then_off_records_note
    (position_from_frames position_from_ticks : Z -> Position)
    (e_on e_off : RecordingEvent) (pj : project) (tr_ptr : Z) (tr : Track)
    (region : Z) (r : Region.ZRegion) :
  track_get_from_name pj (track_name e_on) = Some tr_ptr ->
  deref (tracks pj) tr_ptr = Some tr ->
  recording_region tr = Some region ->
  deref (region_heap pj) region = Some r ->
  has_midi_event e_on <> 0 ->
  Midi.type (midi_event e_on) = Midi.MIDI_EVENT_TYPE_NOTE_ON ->
  track_name e_off = track_name e_on ->
  has_midi_event e_off <> 0 ->
  Midi.type (midi_event e_off) = Midi.MIDI_EVENT_TYPE_NOTE_OFF ->
  Midi.note_pitch (midi_event e_off) = Midi.note_pitch (midi_event e_on) ->
  let start_on := position_from_frames (g_start_frames e_on + local_offset e_on) in
  let end_off :=
    position_from_frames (g_start_frames e_off + local_offset e_off + nframes e_off) in
  let origin := total_ticks (ArrangerObj.pos (Region.base r)) in
  exists pj1 pj2 n r2,
    handle_midi_event position_from_frames position_from_ticks e_on pj = Some pj1 /\
    handle_midi_event position_from_frames position_from_ticks e_off pj1 = Some pj2 /\
    note_heap pj2 = note_heap pj ++ [n] /\
    Note.val n = Midi.note_pitch (midi_event e_on) /\
    Note.vel n = Midi.velocity (midi_event e_on) /\
    ArrangerObj.pos (Note.base n) =
      position_from_ticks (total_ticks start_on - origin) /\
    ArrangerObj.end_pos (Note.base n) =
      position_from_ticks (total_ticks end_off - origin) /\
    deref (region_heap pj2) region = Some r2 /\
    Region.midi_notes r2 =
      Region.midi_notes r ++ [Z.of_nat (List.length (note_heap pj))] /\
    Region.unended_notes r2 = Region.unended_notes r /\
    ArrangerObj.end_pos (Region.base r2) = end_off.
Proof.
  intros Hname Htr Hreg Hr Hon Ton Hname2 Hoff Toff Hpitch. cbv zeta.
  pose proof (handle_midi_note_on position_from_frames position_from_ticks
                e_on pj tr_ptr tr region r Hname Htr Hreg Hr Hon Ton) as E1.
  cbv zeta in E1.
  match type of E1 with
  | _ = Some ?p => set (pj1 := p) in *
  end.
  assert (Hname1 : track_get_from_name pj1 (track_name e_off) = Some tr_ptr).
  { rewrite Hname2, <- Hname.
    apply (track_get_from_name_store pj pj1 tr_ptr tr
             (set_recording_region (Some region) tr)); [exact Htr | | ]; reflexivity. }
  assert (Htr1 : deref (tracks pj1) tr_ptr
                 = Some (set_recording_region (Some region) tr)).
  { apply deref_store_at_same. congruence. }
  match goal with
  | _ := {| tracks := _; region_heap := store_at _ _ ?rr; note_heap := _ ++ [?nn];
            clip_heap := _; recorded_ids := _ |} |- _ =>
      pose proof (handle_midi_note_off position_from_frames position_from_ticks
                    e_off pj1 tr_ptr (set_recording_region (Some region) tr)
                    region rr (Z.of_nat (List.length (note_heap pj)))
                    (Region.unended_notes r) nn Hname1 Htr1 eq_refl) as E2
  end.
  cbv zeta in E2.
  match type of E2 with
  | ?A -> _ => assert (H1 : A) by (apply deref_store_at_same; congruence)
  end.
  specialize (E2 H1 Hoff Toff eq_refl (deref_app_new _ _) (eq_sym Hpitch)).
  exists pj1. eexists. eexists. eexists.
  split; [exact E1|]. split; [exact E2|].
  cbn [tracks clip_heap recorded_ids region_heap note_heap pj1].
  split; [apply store_at_app_new|].
  cbn [Note.val Note.vel Note.base Note.set_base ArrangerObj.pos ArrangerObj.end_pos
       ArrangerObj.set_end_pos].
  split; [reflexivity|]. split; [reflexivity|].
  split; [reflexivity|]. split; [reflexivity|].
  split; [apply deref_store_at_same; subst pj1; cbn [region_heap];
          rewrite deref_store_at_same by congruence; discriminate|].
  cbn. rewrite position_eta. repeat split.
Qed.

Lemma note_on_then_off_records_note_witness :
  exists pj1 pj2 n,
    handle_midi_event frames_to_position ticks_to_position
      (midi_data 5000 256 Midi.MIDI_EVENT_TYPE_NOTE_ON 67) recording_project
    = Some pj1 /\
    handle_midi_event frames_to_position ticks_to_position
      (midi_data 5256 256 Midi.MIDI_EVENT_TYPE_NOTE_OFF 67) pj1
    = Some pj2 /\
    note_heap pj2 = note_heap recording_project ++ [n] /\
    Note.val n = 67 /\
    ArrangerObj.pos (Note.base n) = ticks_to_position 300 /\
    ArrangerObj.end_pos (Note.base n) = ticks_to_position 351.
Proof.
  destruct (note_on_then_off_records_note frames_to_position ticks_to_position
              (midi_data 5000 256 Midi.MIDI_EVENT_TYPE_NOTE_ON 67)
              (midi_data 5256 256 Midi.MIDI_EVENT_TYPE_NOTE_OFF 67)
              recording_project 0 armed_track 0
              (Region.set_unended_notes [1; 0]
                 (Region.set_base
                    {| ArrangerObj.pos := frames_to_position 2000;
                       ArrangerObj.end_pos := frames_to_position 4900;
                       ArrangerObj.loop_end_pos := frames_to_position 2900;
                       ArrangerObj.fade_out_pos := frames_to_position 2900 |}
                    (midi_region_new ticks_to_position (frames_to_position 2000)
                       (frames_to_position 4900) 3 0 0))))
    as (pj1 & pj2 & n & r2 & E1 & E2 & H1 & H2 & _ & H3 & H4 & _);
    try reflexivity; try discriminate.
  exists pj1, pj2, n. split; [exact E1|]. split; [exact E2|]. split; [exact H1|].
  split; [exact H2|]. split; [exact H3 | exact H4].
Defined.

End ConsumerProperties.

Section FuelFacts.

Import C Recording Consumer.

Lemma open_notes_bound_region (pj : project) (region : Z) (r : Region.ZRegion) :
  deref (region_heap pj) region = Some r ->
  (List.length (Region.unended_notes r) <= open_notes_bound pj)%nat.
Proof.
  intros Hr. unfold deref in Hr.
  destruct (region <? 0); [discriminate|].
  apply nth_error_In in Hr. unfold open_notes_bound.
  assert (H : Forall (fun k => (k <= list_max
                 (map (fun r => List.length (Region.unended_notes r))
                    (region_heap pj)))%nat)
                (map (fun r => List.length (Region.unended_notes r))
                   (region_heap pj))).
  { apply list_max_le. apply Nat.le_refl. }
  rewrite Forall_forall in H. apply H. apply in_map_iff. exists r. auto.
Qed.

(** The loop over the unended notes uses no more turns than notes are
    open, and one: further fuel changes nothing. *)
Lemma end_unended_notes_fuel (rle : Position) (L : list Z) :
  forall (f1 f2 : nat) (pj : project) (region : Z) (r : Region.ZRegion),
    deref (region_heap pj) region = Some r ->
    Region.unended_notes r = L ->
    (List.length L < f1)%nat -> (List.length L < f2)%nat ->
    end_unended_notes f1 pj region rle = end_unended_notes f2 pj region rle.
Proof.
  induction L as [|mn rest IH]; intros f1 f2 pj region r Hr HL H1 H2;
    (destruct f1 as [|f1]; [cbn in H1; lia|]);
    (destruct f2 as [|f2]; [cbn in H2; lia|]);
    cbn [end_unended_notes]; unfold midi_region_pop_unended_note;
    rewrite Hr, HL; cbn [pop_unended].
  - reflexivity.
  - destruct (deref (note_heap pj) mn) as [n0|] eqn:En0; [|reflexivity].
    cbn [Z.eqb Pos.eqb orb fst snd note_heap set_region_heap]. rewrite En0.
    apply (IH f1 f2 _ region (Region.set_unended_notes rest r)).
    + cbn [region_heap set_note_heap set_region_heap].
      apply deref_store_at_same. congruence.
    + reflexivity.
    + cbn in H1. lia.
    + cbn in H2. lia.
Qed.

(** The fuel that [process_event] gives to [handle_split_event] is enough:
    with more of it the result is the same, so that a failure is that of a
    pointer. *)
Lemma handle_split_event_fuel (TRANSPORT : Transport)
    (position_from_frames position_from_ticks : Z -> Position)
    (handle_split_automation : RecordingEvent -> project -> option project)
    (fuel : nat) (ev : RecordingEvent) (pj : project) :
  (open_notes_bound pj < fuel)%nat ->
  handle_split_event TRANSPORT position_from_frames position_from_ticks
    handle_split_automation fuel ev pj =
  handle_split_event TRANSPORT position_from_frames position_from_ticks
    handle_split_automation (S (open_notes_bound pj)) ev pj.
Proof.
  intros Hfuel. unfold handle_split_event.
  destruct (RecordingEventType_eqb (type ev)
              RECORDING_EVENT_TYPE_SPLIT_TRACK_RECORDING); [|reflexivity].
  destruct (track_get_from_name pj (track_name ev)) as [tr_ptr|]; [|reflexivity].
  destruct (deref (tracks pj) tr_ptr) as [tr|]; [|reflexivity].
  destruct (recording_region tr) as [region|]; [|reflexivity].
  destruct (deref (region_heap pj) region) as [r|] eqn:Hr; [|reflexivity].
  pose proof (open_notes_bound_region pj region r Hr) as Hb.
  destruct (in_signal_type tr); try reflexivity.
  cbv zeta.
  match goal with
  | |- end_unended_notes _ ?pjx region ?rle = _ =>
      apply (end_unended_notes_fuel rle (Region.unended_notes r) fuel
               (S (open_notes_bound pj)) pjx region
               (Region.set_base
                  (ArrangerObj.arranger_object_loop_end_pos_setter
                     (ArrangerObj.set_end_pos_frames
                        (frames (loop_end_pos TRANSPORT))
                        (ArrangerObj.arranger_object_end_pos_setter
                           (Region.base r) (loop_end_pos TRANSPORT)))
                     rle)
                  r))
  end.
  - cbn. apply deref_app_old. apply deref_store_at_same. congruence.
  - reflexivity.
  - lia.
  - lia.
Qed.

End FuelFacts.

Section QueueProperties.

Import C Recording Consumer.

Variable TRANSPORT : Transport.
Variable block_length : Z.
Variable position_from_frames : Z -> Position.
Variable position_from_ticks : Z -> Position.
Variable transport_is_loop_point_met : Z -> Z -> bool.
Variable track_type_can_record : TrackType -> bool.
Variable track_has_piano_roll : Track -> bool.
Variable automation_track_should_be_recording : AutomationTrack -> Z -> bool -> bool.
Variable handle_split_automation : RecordingEvent -> project -> option project.
Variable handle_automation_event : RecordingEvent -> project -> option project.
Variable handle_start_automation : RecordingEvent -> project -> option project.
Variable process_start_automation :
  RecordingEvent -> recording_state -> option recording_state.
Variable process_stop_automation :
  RecordingEvent -> recording_state -> option recording_state.
Variable on_stop_recording : bool -> recording_state -> option recording_state.

Let process_event' :=
  process_event TRANSPORT position_from_frames position_from_ticks
    transport_is_loop_point_met track_has_piano_roll handle_split_automation
    handle_automation_event handle_start_automation process_start_automation
    process_stop_automation on_stop_recording.

Let events_process' :=
  events_process TRANSPORT position_from_frames position_from_ticks
    transport_is_loop_point_met track_has_piano_roll handle_split_automation
    handle_automation_event handle_start_automation process_start_automation
    process_stop_automation on_stop_recording.

(** One turn of the loop of [events_process]. *)
Lemma events_process_turn (fuel : nat) (ev : RecordingEvent)
    (q pool : list RecordingEvent) (st : recording_state) :
  events_process' (S fuel)
    {| manager := {| event_obj_pool := pool; event_queue := ev :: q |};
       state := st |} =
  match process_event' ev st with
  | Some st1 =>
      events_process' fuel
        {| manager := {| event_obj_pool := pool ++ [ev]; event_queue := q |};
           state := st1 |}
  | None => None
  end.
Proof. reflexivity. Qed.

(** The loop of [events_process] over a queue [q], with fuel for it.  When
    the run fails, it has handled the events [done] at the front of the
    queue, as the run on them alone shows, and the switch fails on the next
    event in the state they leave. *)
Lemma events_process_loop (q : list RecordingEvent) :
  forall (fuel : nat) (pool : list RecordingEvent) (st : recording_state),
    (List.length q < fuel)%nat ->
    match events_process' fuel
            {| manager := {| event_obj_pool := pool; event_queue := q |};
               state := st |} with
    | Some (status, self') =>
        status = G_SOURCE_CONTINUE /\
        event_queue (manager self') = [] /\
        event_obj_pool (manager self') = pool ++ q
    | None =>
        exists done ev rest self1,
          q = done ++ ev :: rest /\
          events_process' fuel
            {| manager := {| event_obj_pool := pool; event_queue := done |};
               state := st |} = Some (G_SOURCE_CONTINUE, self1) /\
          process_event' ev (state self1) = None
    end.
Proof.
  induction q as [|ev q IH]; intros fuel pool st Hfuel.
  - destruct fuel as [|fuel]; [cbn in Hfuel; lia|].
    cbn. rewrite app_nil_r. auto.
  - destruct fuel as [|fuel]; [cbn in Hfuel; lia|].
    rewrite events_process_turn.
    destruct (process_event' ev st) as [st1|] eqn:E.
    + assert (Hf : (List.length q < fuel)%nat) by (cbn in Hfuel; lia).
      specialize (IH fuel (pool ++ [ev]) st1 Hf).
      destruct (events_process' fuel
                  {| manager := {| event_obj_pool := pool ++ [ev];
                                   event_queue := q |};
                     state := st1 |}) as [[status self']|].
      * destruct IH as (H1 & H2 & H3).
        split; [exact H1|]. split; [exact H2|].
        rewrite H3, <- app_assoc. reflexivity.
      * destruct IH as (done & ev' & rest & self1 & Hq & Hrun & Hnone).
        exists (ev :: done), ev', rest, self1.
        split; [rewrite Hq; reflexivity|]. split; [|exact Hnone].
        rewrite events_process_turn, E. exact Hrun.
    + exists [], ev, q,
        {| manager := {| event_obj_pool := pool; event_queue := [] |};
           state := st |}.
      split; [reflexivity|]. split; [reflexivity | exact E].
Qed.


(** X20: the objects that a cycle of [recording_manager_handle_recording]
    takes from the pool come back when [events_process] has handled the
    queue: within the block and with enough objects in the pool, the cycle
    returns, and a run of [events_process] after it, with fuel for its loop,
    either leaves an empty queue and a pool of as many objects as the pool
    and the queue held before the cycle, or the handler of a queued event
    failed: the events before it are handled, as the run on them alone
    shows, and in the state they leave the switch on that event fails. *)
Theorem recorded_events_return_to_pool (tp : TrackProcessor)
    (cur_time g_start_frames local_offset nframes : Z) (reached_loop_end : bool)
    (s : rm_state) (fuel : nat) (st : recording_state) :
  (local_offset + nframes) mod 2 ^ 32 <= block_length ->
  (pool_demand tp <= List.length (event_obj_pool s))%nat ->
  (List.length (event_queue s) + pool_demand tp < fuel)%nat ->
  exists s1,
    recording_manager_handle_recording TRANSPORT block_length
      position_from_frames track_type_can_record track_has_piano_roll
      automation_track_should_be_recording
      tp cur_time g_start_frames local_offset nframes reached_loop_end s
    = Some (tt, s1) /\
    match events_process' fuel {| manager := s1; state := st |} with
    | Some (_, self') =>
        event_queue (manager self') = [] /\
        List.length (event_obj_pool (manager self')) =
          (List.length (event_obj_pool s) + List.length (event_queue s))%nat
    | None =>
        exists done ev rest self1,
          event_queue s1 = done ++ ev :: rest /\
          events_process' fuel
            {| manager := {| event_obj_pool := event_obj_pool s1;
                             event_queue := done |};
               state := st |} = Some (G_SOURCE_CONTINUE, self1) /\
          process_event' ev (state self1) = None
    end.
Proof.
  intros Hguard Hpool Hfuel.
  destruct (handle_recording_emits TRANSPORT block_length position_from_frames
              track_type_can_record track_has_piano_roll
              automation_track_should_be_recording
              tp cur_time g_start_frames local_offset nframes reached_loop_end Hguard)
    as (T2 & T3 & Hem & _ & L2 & _ & L3 & _).
  cbv zeta in Hem.
  match type of Hem with
  | emits _ _ (?T1 ++ _) => set (T1' := T1) in *
  end.
  assert (L1 : (List.length T1' <= 1)%nat).
  { subst T1'.
    destruct (gating TRANSPORT position_from_frames (track tp) g_start_frames),
             (track_type_can_record (track_type (track tp))),
             (reached_loop_end && is_set (recording_region (track tp))),
             (is_set (recording_region (track tp))); cbn; lia. }
  assert (Ltys : (List.length (T1' ++ T2 ++ T3) <= pool_demand tp)%nat).
  { rewrite !length_app. unfold pool_demand. lia. }
  destruct (Hem s) as (evs & Erun & Etys); [lia|].
  assert (Levs : List.length evs = List.length (T1' ++ T2 ++ T3)).
  { rewrite <- Etys. symmetry. apply length_map. }
  set (k := List.length (T1' ++ T2 ++ T3)) in *.
  eexists. split; [exact Erun|].
  cbn [event_queue event_obj_pool].
  pose proof (events_process_loop (event_queue s ++ evs) fuel
                (skipn k (event_obj_pool s)) st) as Hloop.
  destruct (events_process' fuel _) as [[status self']|].
  - destruct Hloop as (_ & H2 & H3).
    { rewrite length_app. lia. }
    split; [exact H2|].
    rewrite H3, !length_app, length_skipn. lia.
  - apply Hloop. rewrite length_app. lia.
Qed.

End QueueProperties.

Section QueueExamples.

Import C Recording Consumer.


Lemma recorded_events_return_to_pool_witness :
  exists s1,
    recording_manager_handle_recording stopped_transport 256
      frames_to_position records_midi (fun tr => records_midi (track_type tr))
      (fun _ _ _ => true) armed_processor 0 4096 0 256 false fresh_manager
    = Some (tt, s1) /\
    match events_process stopped_transport frames_to_position frames_to_position
            (fun _ _ => false) (fun tr => records_midi (track_type tr))
            keep_project keep_project keep_project keep_state keep_state
            (fun _ self => Some self) 16
            {| manager := s1; state := idle_state |} with
    | Some (_, self') =>
        event_queue (manager self') = [] /\
        List.length (event_obj_pool (manager self')) =
          (List.length (event_obj_pool fresh_manager)
           + List.length (event_queue fresh_manager))%nat
    | None =>
        exists done ev rest self1,
          event_queue s1 = done ++ ev :: rest /\
          events_process stopped_transport frames_to_position frames_to_position
            (fun _ _ => false) (fun tr => records_midi (track_type tr))
            keep_project keep_project keep_project keep_state keep_state
            (fun _ self => Some self) 16
            {| manager := {| event_obj_pool := event_obj_pool s1;
                             event_queue := done |};
               state := idle_state |} = Some (G_SOURCE_CONTINUE, self1) /\
          process_event stopped_transport frames_to_position frames_to_position
            (fun _ _ => false) (fun tr => records_midi (track_type tr))
            keep_project keep_project keep_project keep_state keep_state
            (fun _ self => Some self) ev (state self1) = None
    end.
Proof.
  apply (recorded_events_return_to_pool stopped_transport 256 frames_to_position
           frames_to_position (fun _ _ => false) records_midi
           (fun tr => records_midi (track_type tr)) (fun _ _ _ => true)
           keep_project keep_project keep_project keep_state keep_state
           (fun _ self => Some self)
           armed_processor 0 4096 0 256 false fresh_manager 16%nat idle_state).
  - vm_compute. discriminate.
  - vm_compute. repeat constructor.
  - vm_compute. repeat constructor.
Defined.

End QueueExamples.

Section SendFacts.

Import C Recording Cycle.


Lemma fill_all_app (f1 f2 : list (RecordingEvent -> RecordingEvent)) :
  forall pool, (List.length f1 <= List.length pool)%nat ->
    fill_all (f1 ++ f2) pool =
      fill_all f1 pool ++ fill_all f2 (skipn (List.length f1) pool).
Proof.
  induction f1 as [|f fs IH]; intros pool H.
  - cbn. reflexivity.
  - destruct pool as [|re rest]; [cbn in H; lia|].
    cbn. rewrite IH by (cbn in H; lia). reflexivity.
Qed.

Lemma fill_all_Forall (P : RecordingEvent -> Prop)
    (fills : list (RecordingEvent -> RecordingEvent)) :
  Forall (fun f => forall re, P (f re)) fills ->
  forall pool, Forall P (fill_all fills pool).
Proof.
  induction 1 as [|f fs Hf _ IH]; intros [|re rest]; cbn; constructor; auto.
Qed.

Lemma sends_ret {A : Type} (a : A) : sends (ret a) a [].
Proof.
  intros s _. unfold ret. cbn [List.length skipn fill_all].
  rewrite app_nil_r. destruct s; reflexivity.
Qed.

Lemma sends_send (fill : RecordingEvent -> RecordingEvent) :
  sends (send fill) tt [fill].
Proof.
  intros s Hlen. unfold send, bind, object_pool_get.
  destruct (event_obj_pool s) as [|re rest] eqn:E; [cbn in Hlen; lia|].
  reflexivity.
Qed.

Lemma sends_bind {A B : Type} (m : M A) (k : A -> M B) (a : A) (b : B)
    (f1 f2 : list (RecordingEvent -> RecordingEvent)) :
  sends m a f1 -> sends (k a) b f2 -> sends (bind m k) b (f1 ++ f2).
Proof.
  intros H1 H2 s Hlen. rewrite length_app in Hlen.
  unfold bind. rewrite (H1 s) by lia.
  rewrite H2 by (cbn [event_obj_pool]; rewrite length_skipn; lia).
  cbn [event_obj_pool event_queue].
  rewrite skipn_skipn, length_app, <- app_assoc, fill_all_app by lia.
  replace (List.length f2 + List.length f1)%nat
    with (List.length f1 + List.length f2)%nat by lia.
  reflexivity.
Qed.

Lemma sends_then_ret {B : Type} (m : M unit) (b : B)
    (fills : list (RecordingEvent -> RecordingEvent)) :
  sends m tt fills -> sends (bind m (fun _ => ret b)) b fills.
Proof.
  intros H. rewrite <- (app_nil_r fills).
  apply sends_bind with (a := tt); [exact H | apply sends_ret].
Qed.

Lemma sends_for_each {A : Type}
    (Q : (RecordingEvent -> RecordingEvent) -> Prop) (c : nat)
    (l : list A) (body : A -> M unit) :
  (forall a, exists fs,
      sends (body a) tt fs /\ Forall Q fs /\ (List.length fs <= c)%nat) ->
  exists fs,
    sends (for_each l body) tt fs /\ Forall Q fs /\
    (List.length fs <= c * List.length l)%nat.
Proof.
  intros Hbody. induction l as [|a l (fl & El & Ql & Ll)].
  - exists []. split; [apply sends_ret|]. split; [constructor | cbn; lia].
  - destruct (Hbody a) as (fa & Ea & Qa & La).
    exists (fa ++ fl). split; [|split].
    + cbn [for_each]. apply sends_bind with (a := tt); assumption.
    + apply Forall_app. split; assumption.
    + rewrite length_app. cbn [List.length]. lia.
Qed.

Lemma sends_for_each_send {A : Type} (l : list A)
    (fill : A -> RecordingEvent -> RecordingEvent) :
  sends (for_each l (fun a => send (fill a))) tt (map fill l).
Proof.
  induction l as [|a l IH].
  - apply sends_ret.
  - cbn [for_each map].
    apply (sends_bind _ _ tt tt [fill a] (map fill l)); [apply sends_send | exact IH].
Qed.

End SendFacts.

Section CycleFacts.

Import C Recording Cycle.

Variable TRANSPORT : Transport.
Variable block_length : Z.
Variable position_from_frames : Z -> Position.
Variable track_type_can_record : TrackType -> bool.
Variable track_has_piano_roll : Track -> bool.
Variable automation_track_should_be_recording : AutomationTrack -> Z -> bool -> bool.

Ltac send_solve :=
  repeat (cbv beta iota; cbn [when_ negb andb orb];
          first [ apply sends_ret
                | apply sends_send
                | apply sends_then_ret
                | eapply sends_bind ]).

Ltac control_solve :=
  repeat first
    [ apply Forall_nil
    | apply Forall_cons;
        [ intros re;
          (split; [unfold of_cycle; cbn; repeat split; reflexivity
                  | cbn; unfold is_data_type; intros [H|H]; discriminate H])
        | ] ].

Lemma handle_recording_sends (tp : TrackProcessor) (cur_time g lo n : Z)
    (reached_loop_end : bool) :
  (lo + n) mod 2 ^ 32 <= block_length ->
  exists F1 F2,
    sends
      (recording_manager_handle_recording TRANSPORT block_length
         position_from_frames track_type_can_record track_has_piano_roll
         automation_track_should_be_recording
         tp cur_time g lo n reached_loop_end)
      tt
      (F1 ++ F2 ++
       if gating TRANSPORT position_from_frames (track tp) g
       then material_fills block_length track_has_piano_roll tp g lo n else []) /\
    Forall (control_fill g lo n (name (track tp))) F1 /\
    (List.length F1 <= 1)%nat /\
    Forall (control_fill g lo n (name (track tp))) F2 /\
    (List.length F2 <= 2 * List.length (automation_tracklist (track tp)))%nat.
Proof.
  intros Hguard. unfold recording_manager_handle_recording.
  replace ((lo + n) mod 2 ^ 32 <=? block_length) with true
    by (symmetry; apply Z.leb_le; exact Hguard).
  cbn [negb]. cbv zeta.
  set (inside := if punch_mode TRANSPORT then _ else true).
  match goal with
  | |- context [for_each (automation_tracklist (track tp)) ?b] =>
      destruct (sends_for_each (control_fill g lo n (name (track tp))) 2
                  (automation_tracklist (track tp)) b) as (F2 & E2 & Q2 & L2)
  end.
  { intros at_.
    destruct (rolling TRANSPORT), inside,
             (automation_track_should_be_recording at_ cur_time false),
             (recording_started at_), reached_loop_end;
      eexists; (split; [send_solve|]);
      (split; [control_solve | cbn; lia]). }
  assert (E3 : sends
            (if track_has_piano_roll (track tp) then
               bind
                 (for_each (midi_in_events tp)
                    (fun me =>
                       send (fun re =>
                         set_midi_event me
                           (set_has_midi_event 1
                              (set_header RECORDING_EVENT_TYPE_MIDI
                                 g lo n (name (track tp)) re)))))
                 (fun _ =>
                    when_ (Midi.num_events (midi_in_events tp) =? 0)
                      (send (fun re =>
                         set_has_midi_event 0
                           (set_header RECORDING_EVENT_TYPE_MIDI
                              g lo n (name (track tp)) re))))
             else if TrackType_eqb (track_type (track tp)) TRACK_TYPE_AUDIO then
               send (fun re =>
                 set_bufs
                   (memcpy (lbuf re) (stereo_in_l_buf tp) block_length)
                   (memcpy (rbuf re) (stereo_in_r_buf tp) block_length)
                   (set_header RECORDING_EVENT_TYPE_AUDIO
                      g lo n (name (track tp)) re))
             else ret tt)
            tt (material_fills block_length track_has_piano_roll tp g lo n)).
  { unfold material_fills. destruct (track_has_piano_roll (track tp)).
    - eapply sends_bind with (a := tt).
      + apply (sends_for_each_send (midi_in_events tp)
                 (fun me re =>
                    set_midi_event me
                      (set_has_midi_event 1
                         (set_header RECORDING_EVENT_TYPE_MIDI
                            g lo n (name (track tp)) re)))).
      + destruct (Midi.num_events (midi_in_events tp) =? 0); send_solve.
    - destruct (TrackType_eqb (track_type (track tp)) TRACK_TYPE_AUDIO);
        send_solve. }
  unfold gating. fold inside.
  destruct (transport_recording TRANSPORT), (recording (track tp)),
           (rolling TRANSPORT), inside;
    cbn [negb andb orb];
    [> (* every gating condition holds *)
       destruct (track_type_can_record (track_type (track tp))),
                (reached_loop_end && is_set (recording_region (track tp))),
                (negb (is_set (recording_region (track tp))));
       eexists; exists F2;
       (split;
          [eapply sends_bind;
             [send_solve | cbv beta; eapply sends_bind; [exact E2 | exact E3]]
          | split; [control_solve | split; [cbn; lia | split; assumption]]])
     | (* a gating condition is false *)
       destruct (track_type_can_record (track_type (track tp))
                 && is_set (recording_region (track tp)));
       eexists; exists F2;
       (split;
          [eapply sends_bind;
             [send_solve | cbv beta; eapply sends_bind; [exact E2 | apply sends_ret]]
          | split; [control_solve | split; [cbn; lia | split; assumption]]]) .. ].
Qed.

End CycleFacts.

Section CycleProperties.

Import C Recording Cycle.

Variable TRANSPORT : Transport.
Variable block_length : Z.
Variable position_from_frames : Z -> Position.
Variable track_type_can_record : TrackType -> bool.
Variable track_has_piano_roll : Track -> bool.
Variable automation_track_should_be_recording : AutomationTrack -> Z -> bool -> bool.

Lemma fill_all_map {A B : Type} (fill : A -> RecordingEvent -> RecordingEvent)
    (field : RecordingEvent -> B) (h : A -> B) :
  (forall a re, field (fill a re) = h a) ->
  forall (l : list A) (pool : list RecordingEvent),
    (List.length l <= List.length pool)%nat ->
    map field (fill_all (map fill l) pool) = map h l.
Proof.
  intros Hf. induction l as [|a l IH]; intros [|re rest] H; cbn in *;
    try lia; try reflexivity.
  f_equal; [apply Hf | apply IH; lia].
Qed.

Lemma material_fills_length (tp : TrackProcessor) (g lo n : Z) :
  (List.length (material_fills block_length track_has_piano_roll tp g lo n)
   <= 1 + List.length (midi_in_events tp))%nat.
Proof.
  unfold material_fills.
  destruct (track_has_piano_roll (track tp)).
  - rewrite length_app, length_map. unfold Midi.num_events.
    destruct (midi_in_events tp) as [|me l]; cbn; lia.
  - destruct (TrackType_eqb _ _); cbn; lia.
Qed.


(** What a cycle within the block does to a manager with enough objects:
    the fills of the control events, [F], and those of the material. *)
Lemma handle_recording_run (tp : TrackProcessor) (cur_time g lo n : Z)
    (reached_loop_end : bool) (s : rm_state) :
  (lo + n) mod 2 ^ 32 <= block_length ->
  (pool_demand tp <= List.length (event_obj_pool s))%nat ->
  exists F,
    let D :=
      if gating TRANSPORT position_from_frames (track tp) g
      then material_fills block_length track_has_piano_roll tp g lo n else [] in
    recording_manager_handle_recording TRANSPORT block_length
      position_from_frames track_type_can_record track_has_piano_roll
      automation_track_should_be_recording
      tp cur_time g lo n reached_loop_end s
    = Some (tt,
            {| event_obj_pool :=
                 skipn (List.length F + List.length D) (event_obj_pool s);
               event_queue :=
                 event_queue s ++ fill_all F (event_obj_pool s)
                 ++ fill_all D (skipn (List.length F) (event_obj_pool s)) |}) /\
    Forall (control_fill g lo n (name (track tp))) F /\
    (List.length F + List.length D <= List.length (event_obj_pool s))%nat.
Proof.
  intros Hguard Hpool.
  destruct (handle_recording_sends TRANSPORT block_length position_from_frames
              track_type_can_record track_has_piano_roll
              automation_track_should_be_recording
              tp cur_time g lo n reached_loop_end Hguard)
    as (F1 & F2 & Hs & Q1 & L1 & Q2 & L2).
  exists (F1 ++ F2). cbv zeta.
  set (D := if gating _ _ _ _ then _ else []) in *.
  assert (LD : (List.length D <= 1 + List.length (midi_in_events tp))%nat).
  { subst D. destruct (gating _ _ _ _); [apply material_fills_length | cbn; lia]. }
  assert (Lall : (List.length (F1 ++ F2) + List.length D
                  <= List.length (event_obj_pool s))%nat).
  { rewrite length_app. unfold pool_demand in Hpool. lia. }
  split; [|split; [apply Forall_app; split; assumption | exact Lall]].
  rewrite app_assoc in Hs. rewrite (Hs s) by (rewrite length_app; lia).
  rewrite length_app, fill_all_app by lia. reflexivity.
Qed.


(** X22: in a cycle in which every gating condition holds, the track of a
    piano roll gets its MIDI input queued in order, behind the events on
    the state of the recording: one MIDI event for each event of the
    [midi_in] port, which carries a copy of it and has [has_midi_event]
    set; and when the port holds no event, one MIDI event with
    [has_midi_event] clear. *)
Theorem cycle_queues_midi_in_order (tp : TrackProcessor) (cur_time g lo n : Z)
    (reached_loop_end : bool) (s : rm_state) :
  (lo + n) mod 2 ^ 32 <= block_length ->
  (pool_demand tp <= List.length (event_obj_pool s))%nat ->
  gating TRANSPORT position_from_frames (track tp) g = true ->
  track_has_piano_roll (track tp) = true ->
  exists ctl data s',
    recording_manager_handle_recording TRANSPORT block_length
      position_from_frames track_type_can_record track_has_piano_roll
      automation_track_should_be_recording
      tp cur_time g lo n reached_loop_end s
    = Some (tt, s') /\
    event_queue s' = event_queue s ++ ctl ++ data /\
    Forall (fun ev => ~ is_data_type (type ev)) ctl /\
    Forall (fun ev => type ev = RECORDING_EVENT_TYPE_MIDI) data /\
    (midi_in_events tp <> [] ->
     map midi_event data = midi_in_events tp /\
     Forall (fun ev => has_midi_event ev = 1) data) /\
    (midi_in_events tp = [] ->
     exists ev, data = [ev] /\ has_midi_event ev = 0).
Proof.
  intros Hguard Hpool Hgate Hroll.
  destruct (handle_recording_run tp cur_time g lo n reached_loop_end s Hguard Hpool)
    as (F & Hrun & QF & Lall).
  cbv zeta in Hrun, Lall. rewrite Hgate in Hrun, Lall.
  unfold material_fills in Hrun, Lall. rewrite Hroll in Hrun, Lall.
  set (pool' := skipn (List.length F) (event_obj_pool s)) in *.
  assert (Lpool : List.length pool'
                  = (List.length (event_obj_pool s) - List.length F)%nat).
  { subst pool'. apply length_skipn. }
  eexists. eexists. eexists. split; [exact Hrun|].
  split; [reflexivity|]. split; [|split; [|split]].
  - apply fill_all_Forall. eapply Forall_impl; [|exact QF].
    intros f Hf re. apply Hf.
  - apply fill_all_Forall. apply Forall_app. split.
    + apply Forall_forall. intros f Hin. apply in_map_iff in Hin.
      destruct Hin as (me & <- & _). intros re. reflexivity.
    + destruct (_ =? 0); repeat constructor.
  - intros Hne.
    assert (Hz : (Midi.num_events (midi_in_events tp) =? 0) = false).
    { apply Z.eqb_neq. unfold Midi.num_events.
      destruct (midi_in_events tp); [congruence | cbn; lia]. }
    rewrite Hz, app_nil_r in Lall |- *. rewrite length_map in Lall.
    split.
    + rewrite (fill_all_map _ midi_event (fun me => me)) by (auto || lia).
      apply map_id.
    + apply fill_all_Forall. apply Forall_forall. intros f Hin.
      apply in_map_iff in Hin. destruct Hin as (me & <- & _).
      intros re. reflexivity.
  - intros He. rewrite He in Lall |- *. cbn in Lall |- *.
    destruct pool' as [|re rest]; [cbn in Lpool; lia|].
    eexists. split; reflexivity.
Qed.

(** X23: in a cycle in which every gating condition holds, an audio track
    without a piano roll gets one Audio event queued, behind the events on
    the state of the recording, and the buffers of the event hold the block
    of the [stereo_in] ports of the track processor: their first
    [block_length] samples, left and right. *)
Theorem cycle_queues_audio_block (tp : TrackProcessor) (cur_time g lo n : Z)
    (reached_loop_end : bool) (s : rm_state) :
  (lo + n) mod 2 ^ 32 <= block_length ->
  (pool_demand tp <= List.length (event_obj_pool s))%nat ->
  gating TRANSPORT position_from_frames (track tp) g = true ->
  track_has_piano_roll (track tp) = false ->
  track_type (track tp) = TRACK_TYPE_AUDIO ->
  exists ctl ev s',
    recording_manager_handle_recording TRANSPORT block_length
      position_from_frames track_type_can_record track_has_piano_roll
      automation_track_should_be_recording
      tp cur_time g lo n reached_loop_end s
    = Some (tt, s') /\
    event_queue s' = event_queue s ++ ctl ++ [ev] /\
    Forall (fun ev => ~ is_data_type (type ev)) ctl /\
    type ev = RECORDING_EVENT_TYPE_AUDIO /\
    (forall i, 0 <= i < block_length ->
       lbuf ev i = stereo_in_l_buf tp i /\ rbuf ev i = stereo_in_r_buf tp i).
Proof.
  intros Hguard Hpool Hgate Hroll Haudio.
  destruct (handle_recording_run tp cur_time g lo n reached_loop_end s Hguard Hpool)
    as (F & Hrun & QF & Lall).
  cbv zeta in Hrun, Lall. rewrite Hgate in Hrun, Lall.
  unfold material_fills in Hrun, Lall. rewrite Hroll, Haudio in Hrun, Lall.
  cbn [TrackType_eqb] in Hrun, Lall.
  set (pool' := skipn (List.length F) (event_obj_pool s)) in *.
  assert (Lpool : List.length pool'
                  = (List.length (event_obj_pool s) - List.length F)%nat).
  { subst pool'. apply length_skipn. }
  cbn [List.length] in Lall.
  destruct pool' as [|re rest]; [cbn in Lpool; lia|].
  cbn [fill_all] in Hrun.
  eexists. eexists. eexists. split; [exact Hrun|].
  split; [reflexivity|]. split; [|split].
  - apply fill_all_Forall. eapply Forall_impl; [|exact QF].
    intros f Hf re'. apply Hf.
  - reflexivity.
  - intros i Hi. cbn. unfold memcpy.
    replace ((0 <=? i) && (i <? block_length)) with true
      by (symmetry; apply andb_true_iff; split;
          [apply Z.leb_le | apply Z.ltb_lt]; lia).
    split; reflexivity.
Qed.

End CycleProperties.

Section CycleExamples.

Import C Recording Cycle.


Lemma cycle_queues_midi_in_order_witness :
  exists ctl data s',
    recording_manager_handle_recording rolling_transport 256
      frames_to_position records_midi (fun tr => records_midi (track_type tr))
      (fun _ _ _ => true) armed_processor 0 4096 0 256 false fresh_manager
    = Some (tt, s') /\
    event_queue s' = event_queue fresh_manager ++ ctl ++ data /\
    Forall (fun ev => ~ is_data_type (type ev)) ctl /\
    Forall (fun ev => type ev = RECORDING_EVENT_TYPE_MIDI) data /\
    (midi_in_events armed_processor <> [] ->
     map midi_event data = midi_in_events armed_processor /\
     Forall (fun ev => has_midi_event ev = 1) data) /\
    (midi_in_events armed_processor = [] ->
     exists ev, data = [ev] /\ has_midi_event ev = 0).
Proof.
  apply (cycle_queues_midi_in_order rolling_transport 256 frames_to_position
           records_midi (fun tr => records_midi (track_type tr))
           (fun _ _ _ => true) armed_processor 0 4096 0 256 false fresh_manager).
  - vm_compute. discriminate.
  - vm_compute. repeat constructor.
  - reflexivity.
  - reflexivity.
Defined.

Lemma cycle_queues_audio_block_witness :
  exists ctl ev s',
    recording_manager_handle_recording rolling_transport 256
      frames_to_position (fun _ => true) (fun tr => records_midi (track_type tr))
      (fun _ _ _ => true) audio_processor 0 4096 0 256 false fresh_manager
    = Some (tt, s') /\
    event_queue s' = event_queue fresh_manager ++ ctl ++ [ev] /\
    Forall (fun ev => ~ is_data_type (type ev)) ctl /\
    type ev = RECORDING_EVENT_TYPE_AUDIO /\
    (forall i, 0 <= i < 256 ->
       lbuf ev i = stereo_in_l_buf audio_processor i /\
       rbuf ev i = stereo_in_r_buf audio_processor i).
Proof.
  apply (cycle_queues_audio_block rolling_transport 256 frames_to_position
           (fun _ => true) (fun tr => records_midi (track_type tr))
           (fun _ _ _ => true) audio_processor 0 4096 0 256 false fresh_manager).
  - vm_compute. discriminate.
  - vm_compute. repeat constructor.
  - reflexivity.
  - reflexivity.
  - reflexivity.
Defined.

End CycleExamples.

Section RoundTrip.

Import C Recording Consumer Cycle.

(** The samples that [handle_audio_event] leaves in the clip. *)
Lemma handle_audio_event_samples (position_from_frames : Z -> Position)
    (ev : RecordingEvent) (pj : project) (tr_ptr : Z) (tr : Track)
    (region : Z) (r : Region.ZRegion) (clip : Clip.AudioClip) :
  (forall f, frames (position_from_frames f) = f) ->
  track_get_from_name pj (track_name ev) = Some tr_ptr ->
  deref (tracks pj) tr_ptr = Some tr ->
  recording_region tr = Some region ->
  deref (region_heap pj) region = Some r ->
  deref (clip_heap pj) (Region.pool_id r) = Some clip ->
  2 <= Clip.channels clip ->
  0 <= local_offset ev -> 0 <= nframes ev ->
  local_offset ev + nframes ev <= 2 ^ 32 ->
  exists pj' clip',
    handle_audio_event position_from_frames ev pj = Some pj' /\
    deref (clip_heap pj') (Region.pool_id r) = Some clip' /\
    (forall k, 0 <= k < nframes ev ->
       Clip.frames clip'
         ((g_start_frames ev + local_offset ev
           - frames (ArrangerObj.pos (Region.base r)) + k) * Clip.channels clip) =
         lbuf ev (local_offset ev + k) /\
       Clip.frames clip'
         ((g_start_frames ev + local_offset ev
           - frames (ArrangerObj.pos (Region.base r)) + k) * Clip.channels clip + 1) =
         rbuf ev (local_offset ev + k)).
Proof.
  intros Hpf Hname Htr Hreg Hr Hclip Hch Hlo Hn Hfit.
  unfold handle_audio_event, audio_region_get_clip.
  rewrite Hname, Htr, Hreg, Hr, Hclip. cbv zeta.
  cbn [ArrangerObj.arranger_object_end_pos_setter ArrangerObj.set_end_pos_frames
       ArrangerObj.set_end_pos ArrangerObj.set_loop_end_pos
       ArrangerObj.set_fade_out_pos ArrangerObj.pos ArrangerObj.end_pos
       ArrangerObj.loop_end_pos frames total_ticks
       Clip.set_num_frames Clip.set_frames Clip.num_frames Clip.channels Clip.frames
       Region.set_num_frames Region.set_frames Region.set_base Region.base
       Region.pool_id Region.num_frames].
  rewrite !Hpf. unfold for_range.
  match goal with
  | |- context [for_steps ?n ?lo ?b (Clip.frames clip, local_offset ev)] =>
      pose proof (interleave_loop (Clip.channels clip) (lbuf ev) (rbuf ev) Hch
                    n lo (Clip.frames clip) (local_offset ev) Hlo) as L;
      set (copied := for_steps n lo b (Clip.frames clip, local_offset ev)) in *
  end.
  cbv zeta in L. destruct L as (L1 & _); [lia|].
  eexists. eexists.
  split; [reflexivity|].
  cbn [tracks region_heap note_heap clip_heap recorded_ids].
  split; [apply deref_store_at_same; congruence|].
  cbn [Clip.channels Clip.num_frames Clip.frames Clip.set_frames Clip.set_num_frames].
  intros k Hk. destruct (L1 k ltac:(lia)) as (E1 & E2).
  match type of E1 with
  | fst copied (?a * _) = _ =>
      replace a
        with (g_start_frames ev + local_offset ev
              - frames (ArrangerObj.pos (Region.base r)) + k) in E1, E2 by lia
  end.
  split; assumption.
Qed.

(** X24: what comes in is what is recorded.  In a cycle in which every
    gating condition holds, the block of an audio track goes through the
    queue into the clip of the region in progress: once [handle_audio_event]
    has handled the Audio event that [recording_manager_handle_recording]
    queued, the clip holds, for each of the [n] frames of the cycle, the
    sample of the left [stereo_in] port at [lo + k] in slot [i * channels]
    and that of the right port in slot [i * channels + 1], where [i] counts
    the frames from the start of the region. *)
Theorem audio_block_reaches_clip (TRANSPORT : Transport) (block_length : Z)
    (position_from_frames : Z -> Position)
    (track_type_can_record : TrackType -> bool)
    (track_has_piano_roll : Track -> bool)
    (automation_track_should_be_recording : AutomationTrack -> Z -> bool -> bool)
    (tp : TrackProcessor) (cur_time g lo n : Z) (reached_loop_end : bool)
    (s : rm_state) (pj : project) (tr_ptr : Z) (tr : Track)
    (region : Z) (r : Region.ZRegion) (clip : Clip.AudioClip) :
  0 <= lo -> 0 <= n -> lo + n <= block_length -> block_length < 2 ^ 32 ->
  (pool_demand tp <= List.length (event_obj_pool s))%nat ->
  gating TRANSPORT position_from_frames (track tp) g = true ->
  track_has_piano_roll (track tp) = false ->
  track_type (track tp) = TRACK_TYPE_AUDIO ->
  (forall f, frames (position_from_frames f) = f) ->
  track_get_from_name pj (name (track tp)) = Some tr_ptr ->
  deref (tracks pj) tr_ptr = Some tr ->
  recording_region tr = Some region ->
  deref (region_heap pj) region = Some r ->
  deref (clip_heap pj) (Region.pool_id r) = Some clip ->
  2 <= Clip.channels clip ->
  let first := g + lo - frames (ArrangerObj.pos (Region.base r)) in
  exists ctl ev s' pj' clip',
    recording_manager_handle_recording TRANSPORT block_length
      position_from_frames track_type_can_record track_has_piano_roll
      automation_track_should_be_recording
      tp cur_time g lo n reached_loop_end s
    = Some (tt, s') /\
    event_queue s' = event_queue s ++ ctl ++ [ev] /\
    handle_audio_event position_from_frames ev pj = Some pj' /\
    deref (clip_heap pj') (Region.pool_id r) = Some clip' /\
    (forall k, 0 <= k < n ->
       Clip.frames clip' ((first + k) * Clip.channels clip) =
         stereo_in_l_buf tp (lo + k) /\
       Clip.frames clip' ((first + k) * Clip.channels clip + 1) =
         stereo_in_r_buf tp (lo + k)).
Proof.
  intros Hlo Hn Hfit Hblock Hpool Hgate Hroll Haudio Hpf Hname Htr Hreg Hr Hclip
         Hch. cbv zeta.
  assert (Hguard : (lo + n) mod 2 ^ 32 <= block_length).
  { rewrite Z.mod_small; lia. }
  destruct (handle_recording_run TRANSPORT block_length position_from_frames
              track_type_can_record track_has_piano_roll
              automation_track_should_be_recording
              tp cur_time g lo n reached_loop_end s Hguard Hpool)
    as (F & Hrun & _ & Lall).
  cbv zeta in Hrun, Lall. rewrite Hgate in Hrun, Lall.
  unfold material_fills in Hrun, Lall. rewrite Hroll, Haudio in Hrun, Lall.
  cbn [TrackType_eqb] in Hrun, Lall.
  set (pool' := skipn (List.length F) (event_obj_pool s)) in *.
  assert (Lpool : List.length pool'
                  = (List.length (event_obj_pool s) - List.length F)%nat).
  { subst pool'. apply length_skipn. }
  cbn [List.length] in Lall.
  destruct pool' as [|re rest]; [cbn in Lpool; lia|].
  cbn [fill_all] in Hrun.
  match type of Hrun with
  | context [fill_all F (event_obj_pool s) ++ [?e]] => set (ev := e) in *
  end.
  destruct (handle_audio_event_samples position_from_frames ev pj tr_ptr tr
              region r clip Hpf Hname Htr Hreg Hr Hclip Hch)
    as (pj' & clip' & Hrec & Hderef & Hsamples).
  { exact Hlo. }
  { exact Hn. }
  { change (lo + n <= 2 ^ 32). lia. }
  eexists. exists ev. eexists. exists pj', clip'.
  split; [exact Hrun|]. split; [reflexivity|].
  split; [exact Hrec|]. split; [exact Hderef|].
  intros k Hk. destruct (Hsamples k Hk) as (E1 & E2).
  change (g_start_frames ev) with g in E1, E2.
  change (local_offset ev) with lo in E1, E2.
  rewrite E1, E2. subst ev. cbn [lbuf rbuf set_bufs]. unfold memcpy.
  replace ((0 <=? lo + k) && (lo + k <? block_length)) with true
    by (symmetry; apply andb_true_iff; split;
        [apply Z.leb_le | apply Z.ltb_lt]; lia).
  split; reflexivity.
Qed.

End RoundTrip.

Section RoundTripExample.

Import C Recording Consumer Cycle.

Lemma audio_block_reaches_clip_witness :
  exists ctl ev s' pj' clip',
    recording_manager_handle_recording rolling_transport 256
      frames_to_position (fun _ => true) (fun tr => records_midi (track_type tr))
      (fun _ _ _ => true) audio_processor 0 1100 0 4 false fresh_manager
    = Some (tt, s') /\
    event_queue s' = event_queue fresh_manager ++ ctl ++ [ev] /\
    handle_audio_event frames_to_position ev audio_project = Some pj' /\
    deref (clip_heap pj') 0 = Some clip' /\
    (forall k, 0 <= k < 4 ->
       Clip.frames clip' ((100 + k) * 2) = stereo_in_l_buf audio_processor (0 + k) /\
       Clip.frames clip' ((100 + k) * 2 + 1) =
         stereo_in_r_buf audio_processor (0 + k)).
Proof.
  apply (audio_block_reaches_clip rolling_transport 256 frames_to_position
           (fun _ => true) (fun tr => records_midi (track_type tr))
           (fun _ _ _ => true) audio_processor 0 1100 0 4 false fresh_manager
           audio_project 0 audio_track 0
           (audio_region_new frames_to_position 0 100 (frames_to_position 1000) 0 0 0)
           (audio_clip_new_recording 2 100)).
  - lia.
  - lia.
  - lia.
  - lia.
  - vm_compute. repeat constructor.
  - reflexivity.
  - reflexivity.
  - reflexivity.
  - intros f. reflexivity.
  - reflexivity.
  - reflexivity.
  - reflexivity.
  - reflexivity.
  - reflexivity.
  - cbn. lia.
Defined.

End RoundTripExample.

Section PanProperties.

Import C Port Graph Processing Signal.

(** X25: [port_apply_pan] scales the samples of the frames
    [start_frame <= i < start_frame + nframes] that are not zero, by the
    right scalar of the pan algorithm if the port carries the flag
    [PORT_FLAG_STEREO_R] and by the left scalar if it does not, whatever
    else the port is; the pan law plays no part.  Every other sample, every
    other field of the port and every other port stay as they were. *)
Theorem port_apply_pan_scales_by_channel (sinf : F32.float -> F32.float)
    (h : heap) (port : ptr) (pan : F32.float) (pan_law : PanLaw)
    (pan_algo : PanAlgorithm) (start_frame nframes : Z) :
  let h' := port_apply_pan sinf h port pan pan_law pan_algo start_frame nframes in
  let calc :=
    if Z.land (flags (identifier (h port))) PORT_FLAG_STEREO_R =? 0
    then fst (pan_scalars sinf pan pan_algo)
    else snd (pan_scalars sinf pan pan_algo) in
  same_but_buf (h port) (h' port) /\
  (forall q, q <> port -> h' q = h q) /\
  (forall j, buf (h' port) j =
             if in_frames start_frame (start_frame + nframes) j
                && negb (F32.eqb (buf (h port) j) F32.zero)
             then F32.mul (buf (h port) j) calc
             else buf (h port) j).
Proof.
  cbv zeta.
  destruct (port_apply_pan_frames sinf h port pan pan_law pan_algo
              start_frame nframes) as (H1 & H2 & H3).
  split; [exact H1|]. split; [exact H3|].
  intros j. rewrite H2. unfold in_frames.
  destruct ((start_frame <=? j) && (j <? start_frame + nframes));
    destruct (F32.eqb (buf (h port) j) F32.zero); reflexivity.
Qed.

End PanProperties.
